(** * pix: pixel shapes, image geometry and the point-filter engine

    A shallow embedding of [pix.go] (package [pix]) and of
    [filters/point-filter.go], [filters/invert.go] (package [filters]).

    Go's [int] and [int64] are modelled as [Z] with the two's complement
    wrap-around of a 64-bit word written out after every arithmetic
    operation.  Byte slices are Go slice headers (pointer, length, capacity)
    over a flat byte-addressed memory, so that two slices over the same
    backing array really alias. *)

From Stdlib Require Import ZArith Lia List Bool.
From Stdlib.Strings Require Import String Byte.
Import ListNotations.
Open Scope Z_scope.

(** ** Machine integers *)

Module Int.

Definition bits : Z := 64.
Definition modulus : Z := 2 ^ bits.
Definition half : Z := 2 ^ (bits - 1).
Definition max_int : Z := half - 1.
Definition min_int : Z := - half.

(** Two's complement reduction of an unbounded result. *)
Definition wrap (z : Z) : Z := (z + half) mod modulus - half.

Definition add (a b : Z) : Z := wrap (a + b).
Definition sub (a b : Z) : Z := wrap (a - b).
Definition mul (a b : Z) : Z := wrap (a * b).
(** Go's [/] truncates toward zero. *)
Definition div (a b : Z) : Z := wrap (Z.quot a b).

(** The values an [int] variable can hold. *)
Definition in_range (z : Z) : Prop := min_int <= z <= max_int.

End Int.

(** ** Pixel shapes *)

(** [type Shape int]: any integer is a value of the type; the named
    constants are numbered by [iota] from zero. *)
Definition Shape := Z.

Definition shapeUndefined : Shape := 0.
Definition ShapeRGB888 : Shape := 1.
Definition ShapeRGBA8888 : Shape := 2.
Definition ShapeRGB565BE : Shape := 3.
Definition ShapeRGB555 : Shape := 4.
Definition ShapeRGB444BE : Shape := 5.
Definition ShapeGrayscale2bit : Shape := 6.
Definition ShapeMonochrome : Shape := 7.

(** [func (sh Shape) BitsPerPixel() (bits int)]: the [switch] with its
    [default] branch. *)
Definition BitsPerPixel (sh : Shape) : Z :=
  if sh =? ShapeRGBA8888 then 32
  else if sh =? ShapeRGB888 then 24
  else if sh =? ShapeGrayscale2bit then 2
  else if sh =? ShapeMonochrome then 1
  else if sh =? ShapeRGB444BE then 12
  else if sh =? ShapeRGB555 then 15
  else if sh =? ShapeRGB565BE then 16
  else -1.

(** The shapes the [switch] names. *)
Definition named_shapes : list Shape :=
  [ShapeRGB888; ShapeRGBA8888; ShapeRGB565BE; ShapeRGB555; ShapeRGB444BE;
   ShapeGrayscale2bit; ShapeMonochrome].

(** ** Errors *)

(** An [error] value is identified by its message ([errors.New] and
    [errorString] in the source; whatever a reader returns otherwise). *)
Definition error := string.

(** ** Dims *)

Record Dims := mkDims {
  Width : Z;
  Height : Z;
  Stride : Z;
  DShape : Shape
}.

(** The zero value [pix.Dims{}]. *)
Definition Dims_zero : Dims := mkDims 0 0 0 0.

(** [func (d Dims) SizeRow() int] *)
Definition SizeRow (d : Dims) : Z :=
  Int.div (Int.add (Int.mul (Width d) (BitsPerPixel (DShape d))) 7) 8.

(** [func (d Dims) Validate() error]; [None] is the [nil] error. *)
Definition Validate (d : Dims) : option error :=
  let pixbits := BitsPerPixel (DShape d) in
  if (Height d <=? 0) || (Width d <=? 0) then Some "empty image"%string
  else if pixbits <? 1 then Some "bad pixel shape"%string
  else if Int.div (Int.add (Int.mul (Width d) pixbits) 7) 8 >? Stride d
       then Some "stride smaller than pixel row size"%string
  else None.

(** [func (d Dims) NumPixels() int64] *)
Definition NumPixels (d : Dims) : Z := Int.mul (Height d) (Width d).

(** [func (d Dims) Size() int64] *)
Definition Size (d : Dims) : Z :=
  if (Height d =? 0) || (Width d =? 0) then 0
  else Int.add (Int.mul (Int.sub (Height d) 1) (Stride d)) (SizeRow d).

(** The fields of a [Dims] are [int]s. *)
Definition Dims_ok (d : Dims) : Prop :=
  Int.in_range (Width d) /\ Int.in_range (Height d) /\
  Int.in_range (Stride d) /\ Int.in_range (DShape d).

(** ** image.Rectangle (standard library [image] package) *)

Record Point := mkPoint { X : Z; Y : Z }.
Record Rectangle := mkRect { Min : Point; Max : Point }.

Definition Dx (r : Rectangle) : Z := Int.sub (X (Max r)) (X (Min r)).
Definition Dy (r : Rectangle) : Z := Int.sub (Y (Max r)) (Y (Min r)).
Definition Empty (r : Rectangle) : bool :=
  (X (Min r) >=? X (Max r)) || (Y (Min r) >=? Y (Max r)).

(** ** Memory and byte slices *)

(** The byte-addressed memory all backing arrays live in. *)
Definition mem := Z -> byte.

(** A non-nil [[]byte]: the slice header. *)
Record slice := mkSlice { ptr : Z; len : Z; cap : Z }.

(** A [[]byte] value; [None] is the [nil] slice. *)
Definition bytes := option slice.

(** [len(b)] *)
Definition blen (b : bytes) : Z :=
  match b with None => 0 | Some s => len s end.

(** [b[lo:hi]]; [None] is the run-time panic "slice bounds out of range".
    The upper bound of a slice expression on a slice is its capacity. *)
Definition reslice (b : bytes) (lo hi : Z) : option bytes :=
  match b with
  | None => if (lo =? 0) && (hi =? 0) then Some None else None
  | Some s =>
      if (0 <=? lo) && (lo <=? hi) && (hi <=? cap s)
      then Some (Some (mkSlice (ptr s + lo) (hi - lo) (cap s - lo)))
      else None
  end.

(** [b[i]] as a value; [None] is the panic "index out of range". *)
Definition index (b : bytes) (i : Z) (m : mem) : option byte :=
  match b with
  | None => None
  | Some s => if (0 <=? i) && (i <? len s) then Some (m (ptr s + i)) else None
  end.

Definition upd (m : mem) (a : Z) (v : byte) : mem :=
  fun x => if x =? a then v else m x.

(** [b[i] = v] *)
Definition store (b : bytes) (i : Z) (v : byte) (m : mem) : option mem :=
  match b with
  | None => None
  | Some s => if (0 <=? i) && (i <? len s) then Some (upd m (ptr s + i) v) else None
  end.

(** Writing a run of bytes from address [a] on. *)
Fixpoint write_list (m : mem) (a : Z) (l : list byte) : mem :=
  match l with
  | [] => m
  | v :: l' => write_list (upd m a v) (a + 1) l'
  end.

(** The bytes at [a], [a+1], ... ([n] of them). *)
Fixpoint read_list (m : mem) (a : Z) (n : nat) : list byte :=
  match n with
  | O => []
  | S n' => m a :: read_list m (a + 1) n'
  end.

(** Conversion of an integer to [uint8]. *)
Definition byte_of_Z (z : Z) : byte :=
  match Byte.of_N (Z.to_N (z mod 256)) with
  | Some b => b
  | None => x00
  end.

Definition Z_of_byte (b : byte) : Z := Z.of_N (Byte.to_N b).

(** ** Images, filters and the state they run in *)

Section Engine.

(** The private state of the image implementation behind the interface. *)
Context {St : Type}.

(** [type Image interface] and [type ImageBuffered interface].  A method
    may change the private state of its receiver.  [im_ReadAt st m n off]
    is [ReadAt(p, off)] with [len(p) = n]: it yields the bytes it puts in
    [p] from index 0 on, the count and the error it returns.  [im_Buffer]
    is [None] when the dynamic type has no [Buffer] method, so that the
    assertion [src.(ImageBuffered)] fails.  Apart from [ReadAt] filling
    [p], the methods leave the memory alone. *)
Record Image := mkImage {
  im_Dims : St -> Dims * St;
  im_ReadAt : St -> mem -> Z -> Z -> (list byte * Z * option error) * St;
  im_Buffer : option (St -> bytes * St)
}.

(** [type PointFunc func(dst, src []byte)]: a callback working on the
    memory; [None] is a panic inside it. *)
Definition PointFunc := bytes -> bytes -> mem -> option mem.

(** [type PointFilter struct]; [pf_Fn = None] is the nil function.  The
    [Ctrls] field is only handed out by [Controls] and is left out. *)
Record PointFilter := mkPointFilter {
  pf_In : Shape;
  pf_Out : Shape;
  pf_Fn : option PointFunc
}.

(** Everything a call can change: the memory, the allocation pointer (all
    live arrays are below it), the state of the source image, and a log of
    the calls made to the filter's function. *)
Record world := mkWorld {
  w_mem : mem;
  w_brk : Z;
  w_img : St;
  w_calls : list (bytes * bytes)
}.

(** A call either returns or ends in a run-time panic. *)
Inductive outcome (A : Type) : Type :=
| Ret (a : A) (w : world)
| Panic.
Arguments Ret {A} a w.
Arguments Panic {A}.

Definition M (A : Type) : Type := world -> outcome A.

Definition ret {A} (a : A) : M A := fun w => Ret a w.

Definition bind {A B} (c : M A) (k : A -> M B) : M B :=
  fun w => match c w with
           | Ret a w' => k a w'
           | Panic => Panic
           end.

Notation "x <- c ;; k" := (bind c (fun x => k))
  (at level 100, c at next level, right associativity).

(** [src.Dims()] *)
Definition call_Dims (src : Image) : M Dims :=
  fun w => let '(d, st) := im_Dims src (w_img w) in
           Ret d (mkWorld (w_mem w) (w_brk w) st (w_calls w)).

(** [buffered.Buffer()] *)
Definition call_Buffer (bf : St -> bytes * St) : M bytes :=
  fun w => let '(b, st) := bf (w_img w) in
           Ret b (mkWorld (w_mem w) (w_brk w) st (w_calls w)).

(** [src.ReadAt(p, off)] for a non-nil [p] *)
Definition call_ReadAt (src : Image) (p : slice) (off : Z) : M (Z * option error) :=
  fun w => let '(data, n, err, st) := im_ReadAt src (w_img w) (w_mem w) (len p) off in
           Ret (n, err)
               (mkWorld (write_list (w_mem w) (ptr p) (firstn (Z.to_nat (len p)) data))
                        (w_brk w) st (w_calls w)).

(** [make([]byte, n)]: a fresh zeroed array; panics on a negative length. *)
Definition make (n : Z) : M slice :=
  fun w => if n <? 0 then Panic
           else Ret (mkSlice (w_brk w) n n)
                    (mkWorld (fun x => if (w_brk w <=? x) && (x <? w_brk w + n)
                                       then x00 else w_mem w x)
                             (w_brk w + n) (w_img w) (w_calls w)).

(** A slice expression inside a call. *)
Definition slice_expr (b : bytes) (lo hi : Z) : M bytes :=
  fun w => match reslice b lo hi with
           | Some r => Ret r w
           | None => Panic
           end.

(** [f.Fn(d, s)] *)
Definition call_Fn (fn : PointFunc) (d s : bytes) : M unit :=
  fun w => match fn d s (w_mem w) with
           | Some m => Ret tt (mkWorld m (w_brk w) (w_img w) (w_calls w ++ [(d, s)]))
           | None => Panic
           end.

(** ** ValidateProcessArgs *)

(** Lines 175-187: the ROI checks and [requiredMinDstSize]. *)
Definition requiredMinDstSize (dstShape srcDims : Dims) (roi : option Rectangle)
  : error + Z :=
  match roi with
  | Some r =>
      if (X (Max r) <? 0) || (X (Min r) <? 0) || (Y (Min r) <? 0) || (Y (Max r) <? 0)
      then inl "negative ROI"%string
      else if (X (Max r) >? Width srcDims) || (Y (Max r) >? Height srcDims)
      then inl "ROI exceeds image bounds"%string
      else if Empty r then inl "empty ROI"%string
      else inr (Int.mul (Stride dstShape) (Dy r))
  | None => inr (Int.mul (Stride dstShape) (Height dstShape))
  end.

(** Lines 207-210: the final size check. *)
Definition checkDstSize (dst : bytes) (srcDims : Dims) (required : Z)
  : bytes * Dims * option error :=
  if blen dst <? required
  then (dst, srcDims, Some "destination buffer not large enough to store output"%string)
  else (dst, srcDims, None).

(** [func ValidateProcessArgs(dst []byte, dstShape Dims, src Image,
    roi *image.Rectangle) (_ []byte, srcDims Dims, err error)] *)
Definition ValidateProcessArgs (dst : bytes) (dstShape : Dims) (src : Image)
    (roi : option Rectangle) : M (bytes * Dims * option error) :=
  srcDims <- call_Dims src ;;
  match Validate srcDims with
  | Some e => ret (None, srcDims, Some e)
  | None =>
    match requiredMinDstSize dstShape srcDims roi with
    | inl e => ret (None, srcDims, Some e)
    | inr required =>
      match dst with
      | Some _ => ret (checkDstSize dst srcDims required)
      | None =>
        match roi with
        | Some _ =>
            ret (None, srcDims, Some "in-place operation does not support ROI"%string)
        | None =>
          if negb (DShape dstShape =? DShape srcDims)
          then ret (None, srcDims,
                    Some "src must match filter output shape for in-place op"%string)
          else
            match im_Buffer src with
            | None =>
                ret (None, srcDims,
                     Some "src does not implement ImageBuffered for in-place op"%string)
            | Some bf =>
                buf <- call_Buffer bf ;;
                match buf with
                | None =>
                    ret (None, srcDims,
                         Some "src returned nil buffer on in-place op"%string)
                | Some b =>
                    if len b <? Size srcDims
                    then ret (None, srcDims,
                              Some "src ImageBuffered returned a buffer too small to represent complete image"%string)
                    else ret (checkDstSize buf srcDims required)
                end
            end
        end
      end
    end
  end.

(** ** PointFilter.Process *)

Definition errShapeMismatch : error := "pixel shape mismatch"%string.
Definition errNilPixelFunc : error := "nil PixelFunc"%string.

(** [func (f *PointFilter) ShapeIO() (output, input pix.Shape)] *)
Definition ShapeIO (f : PointFilter) : Shape * Shape := (pf_Out f, pf_In f).

(** The values the row loop of [Process] reads but never assigns. *)
Record loopEnv := mkLoopEnv {
  le_fn : PointFunc;
  le_src : Image;
  le_srcDims : Dims;
  le_dst : bytes;
  le_srcBuf : bytes;
  le_rowBuf : slice;
  le_srcRowBytes : Z;
  le_outStride : Z;
  le_inBytesPerPixel : Z;
  le_startX : Z;
  le_startY : Z;
  le_endX : Z
}.

(** Lines 92-112: the body of the row loop for row [y].  The result is
    the error the loop returns with, if any. *)
Definition rowBody (e : loopEnv) (y : Z) : M (option error) :=
  let srcRowStart := Int.mul y (Stride (le_srcDims e)) in
  r <- match le_srcBuf e with
       | Some _ =>
           s <- slice_expr (le_srcBuf e) srcRowStart
                  (Int.add srcRowStart (le_srcRowBytes e)) ;;
           ret (s, None)
       | None =>
           r <- call_ReadAt (le_src e) (le_rowBuf e) srcRowStart ;;
           ret (Some (le_rowBuf e), snd r)
       end ;;
  match snd r with
  | Some err => ret (Some err)
  | None =>
      let srcRow := fst r in
      let dstY := Int.sub y (le_startY e) in
      let dstRowStart := Int.mul dstY (le_outStride e) in
      let srcStart := Int.mul (le_startX e) (le_inBytesPerPixel e) in
      let srcEnd := Int.mul (le_endX e) (le_inBytesPerPixel e) in
      d <- slice_expr (le_dst e) dstRowStart (Int.add dstRowStart (le_outStride e)) ;;
      s <- slice_expr srcRow srcStart srcEnd ;;
      _ <- call_Fn (le_fn e) d s ;;
      ret None
  end.

(** Lines 91-113: [for y := startY; y < endY; y++], run for the [n] rows
    that are left. *)
Fixpoint rowLoop (e : loopEnv) (n : nat) (y : Z) : M (option error) :=
  match n with
  | O => ret None
  | S n' =>
      r <- rowBody e y ;;
      match r with
      | Some err => ret (Some err)
      | None => rowLoop e n' (Int.add y 1)
      end
  end.

(** Lines 49-66: the geometry of the output. *)
Definition dstDimsOf (f : PointFilter) (srcDims : Dims) (roi : option Rectangle)
  : Dims :=
  let '(outShape, inShape) := ShapeIO f in
  let outBytesPerPixel := Int.div (Int.add (BitsPerPixel outShape) 7) 8 in
  let '(outWidth, outHeight) :=
    match roi with
    | Some r => (Dx r, Dy r)
    | None => (Width srcDims, Height srcDims)
    end in
  let outStride := Int.mul outWidth outBytesPerPixel in
  mkDims outWidth outHeight outStride outShape.

(** Lines 88-113: what follows a successful validation, writing to [dst]. *)
Definition processRows (f : PointFilter) (fn : PointFunc) (srcDims dstDims : Dims)
    (dst : bytes) (src : Image) (roi : option Rectangle) : M (Dims * option error) :=
  let inBytesPerPixel := Int.div (Int.add (BitsPerPixel (pf_In f)) 7) 8 in
  let '(startX, startY, endX, endY) :=
    match roi with
    | Some r => (X (Min r), Y (Min r), X (Max r), Y (Max r))
    | None => (0, 0, Width srcDims, Height srcDims)
    end in
  srcBuf <- match im_Buffer src with
            | Some bf => call_Buffer bf
            | None => ret None
            end ;;
  let srcRowBytes := SizeRow srcDims in
  rowBuf <- make srcRowBytes ;;
  r <- rowLoop (mkLoopEnv fn src srcDims dst srcBuf rowBuf srcRowBytes
                  (Stride dstDims) inBytesPerPixel startX startY endX)
         (Z.to_nat (endY - startY)) startY ;;
  match r with
  | Some err => ret (Dims_zero, Some err)
  | None => ret (dstDims, None)
  end.

(** [func (f *PointFilter) Process(dst []byte, src pix.Image,
    roi *image.Rectangle) (pix.Dims, error)] *)
Definition Process (f : PointFilter) (dst : bytes) (src : Image)
    (roi : option Rectangle) : M (Dims * option error) :=
  match pf_Fn f with
  | None => ret (Dims_zero, Some errNilPixelFunc)
  | Some fn =>
    srcDims <- call_Dims src ;;
    if negb (DShape srcDims =? pf_In f) then ret (Dims_zero, Some errShapeMismatch)
    else
      let dstDims := dstDimsOf f srcDims roi in
      v <- ValidateProcessArgs dst dstDims src roi ;;
      match v with
      | (_, _, Some err) => ret (Dims_zero, Some err)
      | (dst', _, None) => processRows f fn srcDims dstDims dst' src roi
      end
  end.

End Engine.

Arguments Image St : clear implicits.
Arguments world St : clear implicits.
Arguments outcome St A : clear implicits.
Arguments M St A : clear implicits.
Arguments loopEnv St : clear implicits.
Arguments Ret {St A} a w.
Arguments Panic {St A}.

(** ** The inversion filter *)

(** The body of the function literal in [NewInvertedPerPixel]:
    [for i := 0; i < len(src); i++ { dst[i] = 255 - src[i] }], run for the
    [n] indices that are left. *)
Fixpoint invertLoop (n : nat) (i : Z) (dst src : bytes) (m : mem) : option mem :=
  match n with
  | O => Some m
  | S n' =>
      match index src i m with
      | None => None
      | Some v =>
          match store dst i (byte_of_Z (255 - Z_of_byte v)) m with
          | None => None
          | Some m' => invertLoop n' (i + 1) dst src m'
          end
      end
  end.

Definition invertFn : PointFunc :=
  fun dst src m => invertLoop (Z.to_nat (blen src)) 0 dst src m.

(** [func NewInvertedPerPixel() *PointFilter] *)
Definition NewInvertedPerPixel : PointFilter :=
  mkPointFilter ShapeRGB888 ShapeRGB888 (Some invertFn).

(** ** Images and memories used in the examples *)

(** An image held in memory, as a caller would implement it: [Dims]
    answers [d], [Buffer] hands out the slice [b], [ReadAt] copies out of
    it and reports [EOF] beyond its end. *)
Definition memImage (d : Dims) (b : slice) : Image unit :=
  mkImage (fun st => (d, st))
          (fun st m n off =>
             if (0 <=? off) && (off + n <=? len b)
             then (read_list m (ptr b + off) (Z.to_nat n), n, None, st)
             else ([], 0, Some "EOF"%string, st))
          (Some (fun st => (Some b, st))).

(** An image that is only read through [ReadAt], out of [data]. *)
Definition streamImage (d : Dims) (data : list byte) : Image unit :=
  mkImage (fun st => (d, st))
          (fun st m n off =>
             let chunk := firstn (Z.to_nat n) (skipn (Z.to_nat off) data) in
             (chunk, Z.of_nat (List.length chunk),
              if Z.of_nat (List.length chunk) <? n then Some "EOF"%string else None, st))
          None.

(** A reader that reads nothing and reports no error. *)
Definition shortReader (d : Dims) : Image unit :=
  mkImage (fun st => (d, st))
          (fun st m n off => ([], 0, None, st))
          None.

(** The memory that holds [l] from address 0 on. *)
Definition mem_of_list (l : list byte) : mem :=
  fun a => if a <? 0 then x00 else nth (Z.to_nat a) l x00.

(** A world whose arrays are laid out in [l]. *)
Definition world_of_list (l : list byte) : world unit :=
  mkWorld (mem_of_list l) (Z.of_nat (List.length l)) tt [].

(** A 2x2 RGB888 image without padding at address 0, followed by a
    12-byte destination. *)
Definition dims2x2 : Dims := mkDims 2 2 6 ShapeRGB888.
Definition buf2x2 : slice := mkSlice 0 12 12.
Definition dst2x2 : slice := mkSlice 12 12 12.
Definition world2x2 : world unit :=
  world_of_list (map byte_of_Z [10; 20; 30; 40; 50; 60; 70; 80; 90; 100; 110; 120;
                                0; 0; 0; 0; 0; 0; 0; 0; 0; 0; 0; 0]).

(** A 2x1 image of 12-bit pixels: 3 bytes at address 0, and a 4-byte
    destination after it. *)
Definition dims444 : Dims := mkDims 2 1 3 ShapeRGB444BE.
Definition buf444 : slice := mkSlice 0 3 3.
Definition dst444 : slice := mkSlice 3 4 4.
Definition world444 : world unit :=
  world_of_list (map byte_of_Z [1; 2; 3; 0; 0; 0; 0]).
Definition filter444 : PointFilter :=
  mkPointFilter ShapeRGB444BE ShapeRGB444BE (Some invertFn).

(** A 1x1 RGB888 image behind [shortReader], and a 3-byte destination at
    address 0. *)
Definition dims1x1 : Dims := mkDims 1 1 3 ShapeRGB888.
Definition dst1x1 : slice := mkSlice 0 3 3.
Definition world1x1 : world unit := world_of_list (map byte_of_Z [7; 7; 7]).

(** The right column of a 2x2 image, and a 6-byte destination for it. *)
Definition rect_right : Rectangle := mkRect (mkPoint 1 0) (mkPoint 2 2).
Definition dstRight : slice := mkSlice 12 6 6.

(** A row of 8 one-bit pixels: 1 byte at address 0, and an 8-byte
    destination after it; the region is its first pixel. *)
Definition dimsMono : Dims := mkDims 8 1 1 ShapeMonochrome.
Definition bufMono : slice := mkSlice 0 1 1.
Definition dstMono : slice := mkSlice 1 8 8.
Definition worldMono : world unit :=
  world_of_list (map byte_of_Z [170; 0; 0; 0; 0; 0; 0; 0; 0]).
Definition filterMono : PointFilter :=
  mkPointFilter ShapeMonochrome ShapeMonochrome (Some invertFn).
Definition rect_first : Rectangle := mkRect (mkPoint 0 0) (mkPoint 1 1).

(** Two rows of one RGB888 pixel with one byte of padding between them
    (stride 4), 7 bytes at address 0; the same buffer seen with the
    packed geometry that [Process] returns for it. *)
Definition dimsPadded : Dims := mkDims 1 2 4 ShapeRGB888.
Definition dimsPacked : Dims := mkDims 1 2 3 ShapeRGB888.
Definition bufPadded : slice := mkSlice 0 7 7.
Definition worldPadded : world unit :=
  world_of_list (map byte_of_Z [1; 2; 3; 9; 4; 5; 6]).

(** A width of [MaxInt] one-bit pixels: the row bit count fits, adding 7
    to round it up does not. *)
Definition dims_wide : Dims := mkDims Int.max_int 1 0 ShapeMonochrome.

(** An empty rectangle. *)
Definition rect_empty : Rectangle := mkRect (mkPoint 1 1) (mkPoint 1 2).

(** * The rest of the package *)

Notation "x <- c ;; k" := (bind c (fun x => k))
  (at level 100, c at next level, right associativity).

(** ** ImageRow *)

(** [io.ErrShortBuffer] and [io.ErrShortWrite] of the standard library. *)
Definition ErrShortBuffer : error := "short buffer"%string.
Definition ErrShortWrite : error := "short write"%string.

(** [img.ReadAt(p, off)] for any [p]; a nil [p] has length 0 and nothing
    to fill. *)
Definition call_ReadAtB {St} (src : Image St) (p : bytes) (off : Z)
  : M St (Z * option error) :=
  match p with
  | Some s => call_ReadAt src s off
  | None =>
      fun w => let '(data, n, err, st) := im_ReadAt src (w_img w) (w_mem w) 0 off in
               Ret (n, err) (mkWorld (w_mem w) (w_brk w) st (w_calls w))
  end.

(** [func ImageRow(dst []byte, img Image, row int)
    (resultSized []byte, err error)] *)
Definition ImageRow {St} (dst : bytes) (img : Image St) (row : Z)
  : M St (bytes * option error) :=
  d <- call_Dims img ;;
  match Validate d with
  | Some e => ret (None, Some e)
  | None =>
    let rowLenBytes := SizeRow d in
    if blen dst <? rowLenBytes then ret (None, Some ErrShortBuffer)
    else if (row <? 0) || (row >=? Height d)
    then ret (None, Some "row out of bounds"%string)
    else
      let off := Int.mul row (Stride d) in
      buf <- match im_Buffer img with
             | Some bf => call_Buffer bf
             | None => ret None
             end ;;
      match buf with
      | Some _ =>
          r <- slice_expr buf off (Int.add off rowLenBytes) ;;
          ret (r, None)
      | None =>
          resultSized <- slice_expr dst 0 rowLenBytes ;;
          r <- call_ReadAtB img resultSized off ;;
          if negb (fst r =? rowLenBytes) then ret (None, Some ErrShortWrite)
          else ret (resultSized, None)
      end
  end.

(** ** The grayscale filter *)

(** [type GrayscaleMode int] with its constants. *)
Definition GrayscaleMode := Z.
Definition GrayscaleLuminance : GrayscaleMode := 0.
Definition GrayscaleAverage : GrayscaleMode := 1.
Definition GrayscaleLightness : GrayscaleMode := 2.

(** [func (m GrayscaleMode) String() string] *)
Definition GrayscaleMode_String (m : GrayscaleMode) : string :=
  if m =? GrayscaleLuminance then "Luminance"%string
  else if m =? GrayscaleAverage then "Average"%string
  else if m =? GrayscaleLightness then "Lightness"%string
  else "Unknown"%string.

(** Conversion to [uint32]. *)
Definition u32 (z : Z) : Z := z mod 2 ^ 32.

(** The [switch filterMode] in the function literal of
    [NewGrayscalePerPixel]: the gray level of a pixel. *)
Definition gray_value (filterMode : GrayscaleMode) (r g b : byte) : byte :=
  let r' := u32 (Z_of_byte r) in
  let g' := u32 (Z_of_byte g) in
  let b' := u32 (Z_of_byte b) in
  if filterMode =? GrayscaleAverage
  then byte_of_Z (u32 (u32 (r' + g') + b') / 3)
  else if filterMode =? GrayscaleLightness
  then byte_of_Z
         (u32 (u32 (Z.min (Z.min (Z_of_byte r) (Z_of_byte g)) (Z_of_byte b)) +
               u32 (Z.max (Z.max (Z_of_byte r) (Z_of_byte g)) (Z_of_byte b))) / 2)
  else byte_of_Z
         (Z.shiftr (u32 (u32 (u32 (77 * r') + u32 (150 * g')) + u32 (29 * b'))) 8).

(** The loop of that function literal,
    [for i := 0; i < len(src); i += 3 { ... }], run for the [n] pixels
    that are left.  An index below [len(src)] does not wrap around. *)
Fixpoint grayLoop (filterMode : GrayscaleMode) (n : nat) (i : Z)
    (dst src : bytes) (m : mem) : option mem :=
  match n with
  | O => Some m
  | S n' =>
      match index src i m, index src (i + 1) m, index src (i + 2) m with
      | Some r, Some g, Some b =>
          let gray := gray_value filterMode r g b in
          match store dst i gray m with
          | None => None
          | Some m1 =>
              match store dst (i + 1) gray m1 with
              | None => None
              | Some m2 =>
                  match store dst (i + 2) gray m2 with
                  | None => None
                  | Some m3 => grayLoop filterMode n' (i + 3) dst src m3
                  end
              end
          end
      | _, _, _ => None
      end
  end.

(** The function literal, for the value [filterMode] of the variable it
    captures; the loop runs once for every started group of 3 bytes. *)
Definition grayscaleFn (filterMode : GrayscaleMode) : PointFunc :=
  fun dst src m =>
    grayLoop filterMode (Z.to_nat ((blen src + 2) / 3)) 0 dst src m.

(** ** Controls *)

Section Controls.

(** The type parameter [T] of a control with its [==] and [<], the [%v]
    and [%T] formats of its values, and the state [E] that the [OnChange]
    callback works on. *)
Context {T E : Type}.
Variables (eqb ltb : T -> T -> bool) (show : T -> string) (typeName : string).

(** A value of type [any]: of dynamic type [T], or of another type whose
    [%T] format is given. *)
Inductive any : Type :=
| IsT (v : T)
| Other (dynType : string).

(** [func(T) error], or nil. *)
Definition OnChangeFunc := option (T -> E -> option error * E).

(** [type ControlOrdered[T cmp.Ordered] struct] *)
Record ControlOrdered := mkControlOrdered {
  co_Name : string;
  co_Description : string;
  co_Value : T;
  co_Min : T;
  co_Max : T;
  co_Step : T;
  co_OnChange : OnChangeFunc
}.

(** [func (co *ControlOrdered[T]) ChangeValue(newValue any) error]: the
    error, the control and the state afterwards; [None] is the panic of
    calling a nil [OnChange]. *)
Definition ControlOrdered_ChangeValue (co : ControlOrdered) (newValue : any)
    (env : E) : option (option error * ControlOrdered * E) :=
  match newValue with
  | Other dynType =>
      Some (Some ("new value " ++ dynType ++ " not of type " ++ typeName)%string,
            co, env)
  | IsT v =>
      if ltb v (co_Min co) || ltb (co_Max co) v
      then Some (Some ("new value " ++ show v ++ " exceeds limits " ++
                       show (co_Min co) ++ ".." ++ show (co_Max co))%string,
                 co, env)
      else
        match co_OnChange co with
        | None => None
        | Some onChange =>
            let '(err, env') := onChange v env in
            match err with
            | None =>
                Some (None,
                      mkControlOrdered (co_Name co) (co_Description co) v
                        (co_Min co) (co_Max co) (co_Step co) (co_OnChange co),
                      env')
            | Some _ => Some (err, co, env')
            end
        end
  end.

(** [type ControlEnum[T enum] struct] *)
Record ControlEnum := mkControlEnum {
  ce_Name : string;
  ce_Description : string;
  ce_Value : T;
  ce_ValidValues : list T;
  ce_OnChange : OnChangeFunc
}.

(** [func (ce *ControlEnum[T]) ChangeValue(newValue any) error] *)
Definition ControlEnum_ChangeValue (ce : ControlEnum) (newValue : any)
    (env : E) : option (option error * ControlEnum * E) :=
  match newValue with
  | Other dynType =>
      Some (Some ("new value " ++ dynType ++ " not of type " ++ typeName)%string,
            ce, env)
  | IsT v =>
      if negb (existsb (eqb v) (ce_ValidValues ce))
      then Some (Some ("value " ++ show v ++ " of " ++ typeName ++ " not valid")%string,
                 ce, env)
      else
        match ce_OnChange ce with
        | None => None
        | Some onChange =>
            let '(err, env') := onChange v env in
            match err with
            | None =>
                Some (None,
                      mkControlEnum (ce_Name ce) (ce_Description ce) v
                        (ce_ValidValues ce) (ce_OnChange ce),
                      env')
            | Some _ => Some (err, ce, env')
            end
        end
  end.

End Controls.

Arguments any T : clear implicits.
Arguments OnChangeFunc T E : clear implicits.
Arguments ControlOrdered T E : clear implicits.
Arguments ControlEnum T E : clear implicits.

(** ** The grayscale filter and its control *)

(** The control in [Ctrls] of [NewGrayscalePerPixel(mode)]; its
    [OnChange] assigns to the captured variable [filterMode], which is the
    state it works on. *)
Definition grayscaleControl (mode : GrayscaleMode)
  : ControlEnum GrayscaleMode GrayscaleMode :=
  mkControlEnum "Conversion Mode"%string
    "Algorithm for RGB to grayscale conversion"%string
    mode
    [GrayscaleLuminance; GrayscaleAverage; GrayscaleLightness]
    (Some (fun m _ => (None, m))).

(** [ChangeValue] of that control. *)
Definition grayscaleChange (ce : ControlEnum GrayscaleMode GrayscaleMode)
    (newValue : any GrayscaleMode) (filterMode : GrayscaleMode) :=
  ControlEnum_ChangeValue Z.eqb GrayscaleMode_String "filters.GrayscaleMode"%string
    ce newValue filterMode.

(** The filter [NewGrayscalePerPixel] returns, when its captured variable
    holds [filterMode]. *)
Definition grayscaleFilter (filterMode : GrayscaleMode) : PointFilter :=
  mkPointFilter ShapeRGB888 ShapeRGB888 (Some (grayscaleFn filterMode)).

(** [func NewGrayscalePerPixel(mode GrayscaleMode) *PointFilter]: the
    filter, its control, and the variable they share. *)
Definition NewGrayscalePerPixel (mode : GrayscaleMode)
  : PointFilter * ControlEnum GrayscaleMode GrayscaleMode * GrayscaleMode :=
  (grayscaleFilter mode, grayscaleControl mode, mode).

(** A run of [ChangeValue] calls on the control of a grayscale filter:
    the control and the captured variable afterwards ([None] after a
    panic). *)
Fixpoint grayscaleChanges (l : list (any GrayscaleMode))
    (ce : ControlEnum GrayscaleMode GrayscaleMode) (filterMode : GrayscaleMode)
  : option (ControlEnum GrayscaleMode GrayscaleMode * GrayscaleMode) :=
  match l with
  | [] => Some (ce, filterMode)
  | v :: l' =>
      match grayscaleChange ce v filterMode with
      | Some (_, ce', filterMode') => grayscaleChanges l' ce' filterMode'
      | None => None
      end
  end.

(** A [ControlOrdered[GrayscaleMode]] that lets the mode be chosen between
    [Min] and [Max]; its callback assigns to a variable as the one of the
    grayscale filter does. *)
Definition modeRange (value lo hi : GrayscaleMode)
  : ControlOrdered GrayscaleMode GrayscaleMode :=
  mkControlOrdered "Mode"%string "Conversion mode by number"%string
    value lo hi 1 (Some (fun m _ => (None, m))).

(** [ChangeValue] of such a control. *)
Definition modeRangeChange (co : ControlOrdered GrayscaleMode GrayscaleMode)
    (newValue : any GrayscaleMode) (filterMode : GrayscaleMode) :=
  ControlOrdered_ChangeValue Z.ltb GrayscaleMode_String
    "filters.GrayscaleMode"%string co newValue filterMode.

(** A reader that delivers what is asked from [data] and reports [EOF]
    with it, as [io.ReaderAt] allows at the end of the input. *)
Definition eofReader (d : Dims) (data : list byte) : Image unit :=
  mkImage (fun st => (d, st))
          (fun st m n off =>
             (firstn (Z.to_nat n) (skipn (Z.to_nat off) data), n,
              Some "EOF"%string, st))
          None.

(** The world after the inversion of the right column of the 2x2 image
    into [dstRight]. *)
Definition world2x2_right : world unit :=
  match Process NewInvertedPerPixel (Some dstRight) (memImage dims2x2 buf2x2)
          (Some rect_right) world2x2 with
  | Ret _ w' => w'
  | Panic => world2x2
  end.

(** A filter from RGB888 to RGBA8888 that writes nothing. *)
Definition filterWiden : PointFilter :=
  mkPointFilter ShapeRGB888 ShapeRGBA8888 (Some (fun _ _ m => Some m)).

(** A reader over [data] whose read at offset [bad] fails. *)
Definition failingReader (d : Dims) (data : list byte) (bad : Z) : Image unit :=
  mkImage (fun st => (d, st))
          (fun st m n off =>
             if off =? bad then ([], 0, Some "read failed"%string, st)
             else (firstn (Z.to_nat n) (skipn (Z.to_nat off) data), n, None, st))
          None.

(** The bytes of the 2x2 image. *)
Definition data2x2 : list byte :=
  map byte_of_Z [10; 20; 30; 40; 50; 60; 70; 80; 90; 100; 110; 120].

(** * The vocabulary of the properties *)

(** The world after the [src.Dims()] call that opens the function. *)
Definition after_Dims {St} (src : Image St) (w : world St) : world St :=
  mkWorld (w_mem w) (w_brk w) (snd (im_Dims src (w_img w))) (w_calls w).

(** The answer of that call. *)
Definition Dims_of {St} (src : Image St) (w : world St) : Dims :=
  fst (im_Dims src (w_img w)).

(** The answer of the [Buffer()] call of an in-place request, made after
    [Dims()]; [None] when the source has no such method. *)
Definition Buffer_of {St} (src : Image St) (w : world St) : option bytes :=
  match im_Buffer src with
  | Some bf => Some (fst (bf (w_img (after_Dims src w))))
  | None => None
  end.

(** The arguments that are to be rejected, for a source whose answer to
    [Dims()] is [srcDims]: a bad ROI, a destination that is too short, an
    in-place request that cannot be served. *)
Definition bad_roi (srcDims : Dims) (r : Rectangle) : Prop :=
  Empty r = true \/
  X (Min r) < 0 \/ Y (Min r) < 0 \/ X (Max r) < 0 \/ Y (Max r) < 0 \/
  X (Max r) > Width srcDims \/ Y (Max r) > Height srcDims.

Definition short_dst (dst : bytes) (dstShape : Dims) (roi : option Rectangle) : Prop :=
  exists s, dst = Some s /\
    len s < match roi with
            | Some r => Int.mul (Stride dstShape) (Dy r)
            | None => Int.mul (Stride dstShape) (Height dstShape)
            end.

Definition bad_in_place {St} (dst : bytes) (dstShape : Dims) (src : Image St)
    (roi : option Rectangle) (w : world St) : Prop :=
  dst = None /\
  (roi <> None \/
   DShape dstShape <> DShape (Dims_of src w) \/
   Buffer_of src w = None \/
   Buffer_of src w = Some None \/
   exists b, Buffer_of src w = Some (Some b) /\ len b < Size (Dims_of src w)).

(** The transformation of one byte by the inversion filter. *)
Definition inv_byte (b : byte) : byte := byte_of_Z (255 - Z_of_byte b).

(** The destination row of the row [y]. *)
Definition dstRow (dst : slice) (sy os y : Z) : slice :=
  mkSlice (ptr dst + (y - sy) * os) os (cap dst - (y - sy) * os).

(** The part of a source row array [row] between the pixels [sx] and
    [ex]. *)
Definition srcPart (row : slice) (ib sx ex : Z) : slice :=
  mkSlice (ptr row + sx * ib) (ex * ib - sx * ib) (cap row - sx * ib).

(** The row [y] of a source buffer. *)
Definition bufRow (buf : slice) (S rb y : Z) : slice :=
  mkSlice (ptr buf + y * S) rb (cap buf - y * S).

(** The call of the function that ends a row. *)
Definition fnCall {St} (fn : PointFunc) (d s : slice) : M St (option error) :=
  bind (call_Fn fn (Some d) (Some s)) (fun _ => ret None).

(** A function of the filter is a pure per-pixel transform with pixel
    function [g] when, on a destination that does not overlap the source,
    it writes for each of the [k] source pixels of [ib] bytes the [ob]
    bytes that [g] makes of it, and changes nothing else. *)
Definition per_pixel (ib ob : Z) (g : list byte -> list byte) (fn : PointFunc)
  : Prop :=
  forall (d s : slice) (m : mem) (k : Z),
    0 <= k -> len s = k * ib -> len d = k * ob ->
    ptr s + len s <= ptr d \/ ptr d + len d <= ptr s ->
    exists m',
      fn (Some d) (Some s) m = Some m' /\
      (forall j c, 0 <= j < k -> 0 <= c < ob ->
         m' (ptr d + j * ob + c) =
         nth (Z.to_nat c) (g (read_list m (ptr s + j * ib) (Z.to_nat ib))) x00) /\
      (forall a, ~ (ptr d <= a < ptr d + len d) -> m' a = m a).

(** Byte [c] of the output pixel for the pixel [x] of row [y] of an image
    whose bytes are [content], with stride [S]. *)
Definition pixel_out (g : list byte -> list byte) (content : Z -> byte)
    (S ib y x c : Z) : byte :=
  nth (Z.to_nat c) (g (read_list content (y * S + x * ib) (Z.to_nat ib))) x00.

(** [Dims()] answers [d] whenever it is called. *)
Definition stable_Dims {St} (src : Image St) (d : Dims) : Prop :=
  forall st, fst (im_Dims src st) = d.

(** The source has a [Buffer] method, and it answers [b] whenever it is
    called. *)
Definition exposes {St} (src : Image St) (b : bytes) : Prop :=
  exists bf, im_Buffer src = Some bf /\ forall st, fst (bf st) = b.

(** The source gives no direct buffer. *)
Definition unbuffered {St} (src : Image St) : Prop :=
  im_Buffer src = None \/ exposes src None.

(** [ReadAt] delivers every row of the image whose bytes are [content],
    whole and without error. *)
Definition delivers {St} (src : Image St) (d : Dims) (content : Z -> byte)
  : Prop :=
  forall st m r, 0 <= r < Height d ->
    exists n st',
      im_ReadAt src st m (SizeRow d) (r * Stride d) =
      (read_list content (r * Stride d) (Z.to_nat (SizeRow d)), n, None, st').

(** A ROI that [ValidateProcessArgs] accepts. *)
Definition roi_ok (d : Dims) (roi : option Rectangle) : Prop :=
  match roi with
  | Some r =>
      0 <= X (Min r) < X (Max r) /\ X (Max r) <= Width d /\
      0 <= Y (Min r) < Y (Max r) /\ Y (Max r) <= Height d
  | None => True
  end.

(** The pixels the loop goes over: [(startX, startY, endX, endY)]. *)
Definition region (d : Dims) (roi : option Rectangle) : Z * Z * Z * Z :=
  match roi with
  | Some r => (X (Min r), Y (Min r), X (Max r), Y (Max r))
  | None => (0, 0, Width d, Height d)
  end.

Definition startX d roi := fst (fst (fst (region d roi))).
Definition startY d roi := snd (fst (fst (region d roi))).
Definition endX d roi := snd (fst (region d roi)).
Definition endY d roi := snd (region d roi).

(** The mathematical size of the readable part of an image with [k]
    bytes per pixel. *)
Definition image_bytes (d : Dims) (k : Z) : Z :=
  (Height d - 1) * Stride d + Width d * k.

(** The source of an out-of-place call shows the bytes [content]: either
    through a buffer that is apart from the destination, or through
    [ReadAt]. *)
Definition readable {St} (src : Image St) (d : Dims) (ib : Z)
    (content : Z -> byte) (w : world St) (dst : slice) : Prop :=
  (exists buf,
      exposes src (Some buf) /\
      (len buf <= cap buf /\ cap buf <= Int.max_int) /\
      image_bytes d ib <= len buf /\
      (ptr buf + len buf <= ptr dst \/ ptr dst + len dst <= ptr buf) /\
      ptr buf + len buf <= w_brk w /\
      forall o, 0 <= o < image_bytes d ib -> w_mem w (ptr buf + o) = content o)
  \/ (unbuffered src /\ delivers src d content).

(** A filter between shapes of [ib] and [ob] whole bytes per pixel whose
    function is the pure per-pixel transform with pixel function [g]. *)
Definition byte_filter (f : PointFilter) (ib ob : Z) (g : list byte -> list byte)
  : Prop :=
  exists fn,
    pf_Fn f = Some fn /\ per_pixel ib ob g fn /\
    BitsPerPixel (pf_In f) = 8 * ib /\ BitsPerPixel (pf_Out f) = 8 * ob.

(** A source of valid geometry [d], with [ib] whole bytes per pixel, whose
    row and image sizes are within the range of [int]. *)
Definition sound_image {St} (src : Image St) (d : Dims) (ib : Z) : Prop :=
  stable_Dims src d /\ Validate d = None /\ Dims_ok d /\
  BitsPerPixel (DShape d) = 8 * ib /\
  Width d * BitsPerPixel (DShape d) + 7 <= Int.max_int /\
  image_bytes d ib <= Int.max_int.

(** A destination of at least [n] bytes among the live arrays of [w]. *)
Definition room {St} (w : world St) (dst : slice) (n : Z) : Prop :=
  (0 <= len dst <= cap dst /\ cap dst <= Int.max_int /\
   ptr dst + len dst <= w_brk w) /\
  n <= len dst.

(** The geometry the inversion filter returns for the whole image. *)
Definition packed_dims (d : Dims) : Dims :=
  mkDims (Width d) (Height d) (Width d * 3) ShapeRGB888.

(** What holds before row [y] of an out-of-place call that started in the
    memory [m0] and writes the pixels [sx..ex] of the rows from [sy] on:
    the rows before [y] are written, and only they and the row buffer
    have changed. *)
Definition out_inv {St} (g : list byte -> list byte) (ib ob : Z) (d : Dims)
    (content : Z -> byte) (dst rowBuf : slice) (sx sy ex : Z) (m0 : mem)
    (y : Z) (w : world St) : Prop :=
  sy <= y /\
  (forall r j c, sy <= r < y -> 0 <= j < ex - sx -> 0 <= c < ob ->
     w_mem w (ptr dst + (r - sy) * ((ex - sx) * ob) + j * ob + c) =
     pixel_out g content (Stride d) ib r (sx + j) c) /\
  (forall a, ~ (ptr dst <= a < ptr dst + (y - sy) * ((ex - sx) * ob)) ->
             ~ (ptr rowBuf <= a < ptr rowBuf + Width d * ib) ->
             w_mem w a = m0 a).

(** What holds before row [y] of an in-place inversion of the RGB888
    image in [buf] that started in the memory [m0]: the rows before [y]
    are written, packed at the output stride, and nothing from there on
    has changed. *)
Definition in_inv {St} (d : Dims) (buf : slice) (m0 : mem) (y : Z)
    (w2 : world St) : Prop :=
  0 <= y /\
  (forall r i, 0 <= r < y -> 0 <= i < Width d * 3 ->
     w_mem w2 (ptr buf + r * (Width d * 3) + i) =
     inv_byte (m0 (ptr buf + r * Stride d + i))) /\
  (forall a, ~ (ptr buf <= a < ptr buf + y * (Width d * 3)) -> w_mem w2 a = m0 a).

(** An in-place request whose buffer is shorter than the output asked
    for. *)
Definition short_in_place {St} (dst : bytes) (dstShape : Dims) (src : Image St)
    (w : world St) : Prop :=
  dst = None /\
  exists b, Buffer_of src w = Some (Some b) /\
            len b < Int.mul (Stride dstShape) (Height dstShape).

(** A geometry that validates and whose sizes are within the range of
    [int]. *)
Definition fits (d : Dims) : Prop :=
  Validate d = None /\ Dims_ok d /\
  Width d * BitsPerPixel (DShape d) + 7 <= Int.max_int /\
  (Height d - 1) * Stride d + SizeRow d <= Int.max_int.

(** The arguments [ValidateProcessArgs] turns down once the source
    geometry has validated. *)
Definition rejected {St} (dst : bytes) (dstShape : Dims) (src : Image St)
    (roi : option Rectangle) (w : world St) : Prop :=
  (exists r, roi = Some r /\ bad_roi (Dims_of src w) r) \/
  short_dst dst dstShape roi \/
  bad_in_place dst dstShape src roi w \/
  short_in_place dst dstShape src w.

(** The destination a successful call resolves to: the one supplied, or
    the buffer of the source. *)
Definition resolved_dst {St} (dst : bytes) (src : Image St) (w : world St)
  : bytes :=
  match dst with
  | Some s => Some s
  | None => match Buffer_of src w with
            | Some b => b
            | None => None
            end
  end.

(** The memory after [make] has handed out [n] zeroed bytes at the
    allocation pointer of [w]. *)
Definition mem_after_make {St} (w : world St) (n : Z) : mem :=
  fun x => if (w_brk w <=? x) && (x <? w_brk w + n) then x00 else w_mem w x.

(** The output pixel of the grayscale filter for a source pixel. *)
Definition gray_pixel (filterMode : GrayscaleMode) (p : list byte) : list byte :=
  match p with
  | [r; g; b] =>
      let gray := gray_value filterMode r g b in [gray; gray; gray]
  | _ => []
  end.

(** The smallest and the largest channel of a pixel. *)
Definition min3 (r g b : byte) : Z :=
  Z.min (Z.min (Z_of_byte r) (Z_of_byte g)) (Z_of_byte b).
Definition max3 (r g b : byte) : Z :=
  Z.max (Z.max (Z_of_byte r) (Z_of_byte g)) (Z_of_byte b).

(** The value is outside the limits of the control, by the [<] of its
    type. *)
Definition off_limits {T E} (ltb : T -> T -> bool) (co : ControlOrdered T E)
    (v : T) : Prop :=
  ltb v (co_Min co) = true \/ ltb (co_Max co) v = true.

(** The value is one of the valid values of the control, by the [==] of
    its type. *)
Definition listed {T E} (eqb : T -> T -> bool) (ce : ControlEnum T E)
    (v : T) : Prop :=
  existsb (eqb v) (ce_ValidValues ce) = true.

(** * Properties of the geometry *)

Lemma half_val : Int.half = 9223372036854775808.
Proof. reflexivity. Qed.

Lemma modulus_val : Int.modulus = 18446744073709551616.
Proof. reflexivity. Qed.

Ltac int_consts :=
  unfold Int.in_range, Int.max_int, Int.min_int in *;
  rewrite ?half_val, ?modulus_val in *.

Lemma wrap_small z : Int.in_range z -> Int.wrap z = z.
Proof.
  unfold Int.wrap. int_consts. intros H.
  rewrite Z.mod_small; lia.
Qed.

Lemma wrap_in_range z : Int.in_range (Int.wrap z).
Proof.
  unfold Int.wrap. int_consts.
  pose proof (Z.mod_pos_bound (z + 9223372036854775808) 18446744073709551616).
  lia.
Qed.

(** C8: the bit depth table.  [BitsPerPixel] is a total function; it gives
    24, 32, 16, 15, 12, 2 and 1 for the seven named shapes, and a negative
    value for the undefined zero shape and for every shape that is not
    named. *)
Theorem BitsPerPixel_table :
  BitsPerPixel ShapeRGB888 = 24 /\
  BitsPerPixel ShapeRGBA8888 = 32 /\
  BitsPerPixel ShapeRGB565BE = 16 /\
  BitsPerPixel ShapeRGB555 = 15 /\
  BitsPerPixel ShapeRGB444BE = 12 /\
  BitsPerPixel ShapeGrayscale2bit = 2 /\
  BitsPerPixel ShapeMonochrome = 1 /\
  BitsPerPixel shapeUndefined < 0 /\
  forall sh : Shape, ~ In sh named_shapes -> BitsPerPixel sh < 0.
Proof.
  repeat (split; [reflexivity|]).
  intros sh Hn. unfold named_shapes in Hn. simpl in Hn.
  unfold BitsPerPixel.
  repeat match goal with
         | |- context [?a =? ?b] =>
             let E := fresh "E" in
             destruct (Z.eqb_spec a b) as [E|E]; [exfalso; apply Hn; rewrite E; auto 10|]
         end.
  lia.
Qed.

Lemma BitsPerPixel_table_witness : BitsPerPixel (-3) < 0.
Proof.
  apply (proj2 (proj2 (proj2 (proj2 (proj2 (proj2 (proj2 (proj2
           BitsPerPixel_table)))))))).
  unfold named_shapes; simpl; intros H; repeat destruct H as [H|H]; try discriminate H; exact H.
Defined.

(** ** Dims.Validate *)

Ltac int_solve := int_consts; lia.

Lemma BitsPerPixel_cases sh :
  BitsPerPixel sh = -1 \/
  In (BitsPerPixel sh) [1; 2; 12; 15; 16; 24; 32].
Proof.
  unfold BitsPerPixel.
  repeat match goal with
         | |- context [if ?a =? ?b then _ else _] => destruct (a =? b)
         end; simpl; auto 10.
Qed.

Lemma BitsPerPixel_bounds sh : -1 <= BitsPerPixel sh <= 32.
Proof.
  destruct (BitsPerPixel_cases sh) as [H|H]; [lia|].
  simpl in H. lia.
Qed.

(** The row size in bytes when nothing wraps around: the ceiling of
    [Width * bits / 8]. *)
Lemma SizeRow_exact d :
  0 <= Width d * BitsPerPixel (DShape d) ->
  Width d * BitsPerPixel (DShape d) + 7 <= Int.max_int ->
  SizeRow d = (Width d * BitsPerPixel (DShape d) + 7) / 8.
Proof.
  intros H0 H1. unfold SizeRow, Int.div, Int.add, Int.mul.
  rewrite (wrap_small (Width d * _)) by int_solve.
  rewrite (wrap_small (_ + 7)) by int_solve.
  rewrite Z.quot_div_nonneg by lia.
  apply wrap_small.
  assert (0 <= (Width d * BitsPerPixel (DShape d) + 7) / 8 <=
          Width d * BitsPerPixel (DShape d) + 7).
  { split; [apply Z.div_pos; lia|].
    apply Z.div_le_upper_bound; lia. }
  int_solve.
Qed.

(** The ceiling test of the code against the product test of the
    specification, over the integers. *)
Lemma ceil_le_iff (n s : Z) : (n + 7) / 8 <= s <-> n <= s * 8.
Proof.
  pose proof (Z.mod_pos_bound (n + 7) 8 ltac:(lia)).
  pose proof (Z.div_mod (n + 7) 8 ltac:(lia)).
  lia.
Qed.

(** When the row bit count plus 7 fits in an [int], [Validate] accepts
    exactly the geometries in which a row fits in the stride. *)
Lemma Validate_None_iff (d : Dims) :
  Width d * BitsPerPixel (DShape d) + 7 <= Int.max_int ->
  (Validate d = None <->
   Width d > 0 /\ Height d > 0 /\ BitsPerPixel (DShape d) >= 1 /\
   Stride d * 8 >= Width d * BitsPerPixel (DShape d)).
Proof.
  intros Hfit. unfold Validate.
  destruct (Z.leb_spec (Height d) 0) as [Hh|Hh]; simpl.
  { split; [discriminate|lia]. }
  destruct (Z.leb_spec (Width d) 0) as [Hw|Hw]; simpl.
  { split; [discriminate|lia]. }
  destruct (Z.ltb_spec (BitsPerPixel (DShape d)) 1) as [Hb|Hb].
  { split; [discriminate|lia]. }
  fold (SizeRow d). rewrite SizeRow_exact by nia.
  pose proof (ceil_le_iff (Width d * BitsPerPixel (DShape d)) (Stride d)) as Hc.
  destruct (Z.gtb_spec ((Width d * BitsPerPixel (DShape d) + 7) / 8) (Stride d)).
  - split; [discriminate|]. intros (_ & _ & _ & Hs). lia.
  - split; [|reflexivity]. intros _. lia.
Qed.

(** C2, as the code has it: for every [Dims] whose row bit count plus 7
    does not exceed the largest [int], [Validate] succeeds exactly when the
    width and height are positive, the shape has at least one bit per pixel
    and [Stride * 8 >= Width * bits]; the ceiling test of the code is the
    product test over the integers. *)
Theorem Validate_iff (d : Dims) :
  Width d * BitsPerPixel (DShape d) + 7 <= Int.max_int ->
  (Validate d = None <->
   Width d > 0 /\ Height d > 0 /\ BitsPerPixel (DShape d) >= 1 /\
   Stride d * 8 >= Width d * BitsPerPixel (DShape d)) /\
  (0 <= Width d * BitsPerPixel (DShape d) ->
   (SizeRow d <= Stride d <->
    Stride d * 8 >= Width d * BitsPerPixel (DShape d))).
Proof.
  intros Hfit. split; [exact (Validate_None_iff d Hfit)|].
  intros Hpos. rewrite SizeRow_exact by assumption.
  pose proof (ceil_le_iff (Width d * BitsPerPixel (DShape d)) (Stride d)).
  lia.
Qed.

Lemma Validate_iff_witness :
  (Validate dims2x2 = None <->
   2 > 0 /\ 2 > 0 /\ 24 >= 1 /\ 6 * 8 >= 2 * 24) /\
  (0 <= 2 * 24 -> (SizeRow dims2x2 <= 6 <-> 6 * 8 >= 2 * 24)).
Proof.
  apply (Validate_iff dims2x2).
  vm_compute. discriminate.
Defined.

(** C2 as stated fails where rounding up wraps around: a one-row
    monochrome image of [MaxInt] pixels with stride 0 validates, although
    no row of it fits in 0 bytes, whether the products of the right-hand
    side are taken over the integers or as the machine computes them. *)
Lemma Validate_iff_wraps :
  Dims_ok dims_wide /\
  Validate dims_wide = None /\
  ~ (Stride dims_wide * 8 >= Width dims_wide * BitsPerPixel (DShape dims_wide)) /\
  ~ (Int.mul (Stride dims_wide) 8 >=
     Int.mul (Width dims_wide) (BitsPerPixel (DShape dims_wide))).
Proof.
  split; [|split; [|split]].
  - vm_compute. repeat split; discriminate.
  - vm_compute. reflexivity.
  - vm_compute. intros H. apply H. reflexivity.
  - vm_compute. intros H. apply H. reflexivity.
Qed.

(** ** ValidateProcessArgs *)

Ltac vpa_unfold :=
  unfold ValidateProcessArgs, bind, call_Dims, call_Buffer, ret, checkDstSize,
    Dims_of, Buffer_of, after_Dims in *.

(** The function always returns, with the answer of its [Dims()] call as
    its second result, and touches neither the memory nor the call log. *)
Lemma ValidateProcessArgs_total {St} dst dstShape (src : Image St) roi w :
  exists b e w',
    ValidateProcessArgs dst dstShape src roi w = Ret (b, Dims_of src w, e) w' /\
    w_mem w' = w_mem w /\ w_brk w' = w_brk w /\ w_calls w' = w_calls w /\
    (w_img w' = w_img (after_Dims src w) \/
     exists bf, im_Buffer src = Some bf /\
                w_img w' = snd (bf (w_img (after_Dims src w)))).
Proof.
  vpa_unfold.
  destruct (im_Dims src (w_img w)) as [d st]; simpl.
  assert (Hdone : forall (r : bytes * option error) st',
             (st' = st \/
              exists bf, im_Buffer src = Some bf /\ st' = snd (bf st)) ->
             exists b e w',
               Ret (fst r, d, snd r) (mkWorld (w_mem w) (w_brk w) st' (w_calls w)) =
               Ret (b, d, e) w' /\
               w_mem w' = w_mem w /\ w_brk w' = w_brk w /\
               w_calls w' = w_calls w /\
               (w_img w' = st \/
                exists bf, im_Buffer src = Some bf /\ w_img w' = snd (bf st))).
  { intros r st' Hst. do 3 eexists. split; [reflexivity|]. simpl. auto. }
  destruct (Validate d) as [e|]; [apply (Hdone (None, Some e)); auto|].
  destruct (requiredMinDstSize dstShape d roi) as [e|z];
    [apply (Hdone (None, Some e)); auto|].
  destruct dst as [s|].
  { destruct (_ <? _);
      [apply (Hdone (Some s, Some _)); auto|apply (Hdone (Some s, None)); auto]. }
  destruct roi; [apply (Hdone (None, Some _)); auto|].
  destruct (negb _); [apply (Hdone (None, Some _)); auto|].
  destruct (im_Buffer src) as [bf|]; [|apply (Hdone (None, Some _)); auto].
  simpl. destruct (bf st) as [buf st'] eqn:Ebf; simpl.
  assert (Hst : st' = st \/
                exists bf0, Some bf = Some bf0 /\ st' = snd (bf0 st)).
  { right. exists bf. rewrite Ebf. auto. }
  destruct buf as [b|]; [|apply (Hdone (None, Some _)); auto].
  destruct (len b <? Size d); [apply (Hdone (None, Some _)); auto|].
  destruct (_ <? _);
    [apply (Hdone (Some b, Some _)); auto|apply (Hdone (Some b, None)); auto].
Qed.

(** C9: on every return path, success or error, [ValidateProcessArgs]
    returns as [srcDims] exactly the value its [src.Dims()] call gave; that
    method is called once, so the state of the source afterwards is the one
    that call left, or the one [Buffer()] left when called after it. *)
Theorem ValidateProcessArgs_srcDims {St} dst dstShape (src : Image St) roi w :
  exists b e w',
    ValidateProcessArgs dst dstShape src roi w =
      Ret (b, fst (im_Dims src (w_img w)), e) w' /\
    (w_img w' = snd (im_Dims src (w_img w)) \/
     exists bf, im_Buffer src = Some bf /\
                w_img w' = snd (bf (snd (im_Dims src (w_img w))))).
Proof.
  destruct (ValidateProcessArgs_total dst dstShape src roi w)
    as (b & e & w' & H & _ & _ & _ & Hs).
  exists b, e, w'. split; [exact H|exact Hs].
Qed.

(** C3: a call with [dst == nil] that succeeds returns as destination the
    very slice header (pointer, length, capacity) that the source's
    [Buffer()] gave in that call, and that slice is not nil. *)
Theorem ValidateProcessArgs_in_place_alias {St} dstShape (src : Image St) roi w
    b d w' :
  ValidateProcessArgs None dstShape src roi w = Ret (b, d, None) w' ->
  Buffer_of src w = Some b /\ b <> None /\ roi = None.
Proof.
  vpa_unfold.
  destruct (im_Dims src (w_img w)) as [d0 st]; simpl.
  destruct (Validate d0); [discriminate|].
  destruct (requiredMinDstSize dstShape d0 roi); [discriminate|].
  destruct roi; [discriminate|].
  destruct (negb _); [discriminate|].
  destruct (im_Buffer src) as [bf|]; [|discriminate].
  simpl. destruct (bf st) as [buf st']; simpl.
  destruct buf as [s|]; [|discriminate].
  destruct (len s <? Size d0); [discriminate|].
  destruct (_ <? _); [discriminate|].
  intros H. inversion H; subst. repeat split; congruence.
Qed.

(** What the ROI checks let through. *)
Lemma requiredMinDstSize_inr dstShape d roi z :
  requiredMinDstSize dstShape d roi = inr z ->
  match roi with
  | Some r => ~ bad_roi d r /\ z = Int.mul (Stride dstShape) (Dy r)
  | None => z = Int.mul (Stride dstShape) (Height dstShape)
  end.
Proof.
  unfold requiredMinDstSize, bad_roi. destruct roi as [r|].
  - destruct (Z.ltb_spec (X (Max r)) 0); [discriminate|].
    destruct (Z.ltb_spec (X (Min r)) 0); [discriminate|].
    destruct (Z.ltb_spec (Y (Min r)) 0); [discriminate|].
    destruct (Z.ltb_spec (Y (Max r)) 0); [discriminate|].
    destruct (Z.gtb_spec (X (Max r)) (Width d)); [discriminate|].
    destruct (Z.gtb_spec (Y (Max r)) (Height d)); [discriminate|].
    simpl. destruct (Empty r) eqn:E; [discriminate|].
    intros Hq. inversion Hq. split; [|reflexivity].
    intros Hb. intuition (try discriminate; lia).
  - intros Hq. inversion Hq. reflexivity.
Qed.


Lemma ValidateProcessArgs_in_place_alias_witness :
  Buffer_of (memImage dims2x2 buf2x2) world2x2 = Some (Some buf2x2) /\
  Some buf2x2 <> None /\ @None Rectangle = None.
Proof.
  apply (ValidateProcessArgs_in_place_alias dims2x2 (memImage dims2x2 buf2x2)
           None world2x2 (Some buf2x2) dims2x2 world2x2).
  reflexivity.
Defined.


(** ** PointFilter.Process: errors raised before the row loop *)

(** C10: when [Process] fails at the nil-function check, at the input
    shape check or in [ValidateProcessArgs], it returns that error, the
    memory (and with it the destination buffer) is what it was, nothing is
    allocated and the function of the filter has not been called. *)
Theorem Process_early_error_no_effect {St} (f : PointFilter) dst
    (src : Image St) roi w :
  pf_Fn f = None \/
  DShape (Dims_of src w) <> pf_In f \/
  (exists b d e w1,
      ValidateProcessArgs dst (dstDimsOf f (Dims_of src w) roi) src roi
        (after_Dims src w) = Ret (b, d, Some e) w1) ->
  exists e w',
    Process f dst src roi w = Ret (Dims_zero, Some e) w' /\
    w_mem w' = w_mem w /\ w_brk w' = w_brk w /\ w_calls w' = w_calls w.
Proof.
  intros Hearly. unfold Process.
  destruct (pf_Fn f) as [fn|].
  2:{ exists errNilPixelFunc, w. repeat split. }
  unfold bind at 1. unfold call_Dims.
  unfold Dims_of, after_Dims in Hearly.
  destruct (im_Dims src (w_img w)) as [d st]; simpl in *.
  destruct (Z.eqb_spec (DShape d) (pf_In f)) as [Hs|Hs]; simpl.
  2:{ do 2 eexists. unfold ret. split; [reflexivity|]. simpl. auto. }
  unfold bind.
  destruct (ValidateProcessArgs_total dst (dstDimsOf f d roi) src roi
              (mkWorld (w_mem w) (w_brk w) st (w_calls w)))
    as (b & e & w1 & Hv & Hm & Hb & Hc & _).
  rewrite Hv. simpl in *.
  destruct e as [e|].
  - exists e, w1. unfold ret. auto.
  - exfalso. destruct Hearly as [Hn|[Hn|(b' & d' & e' & w1' & Hv')]];
      [discriminate|contradiction|].
    rewrite Hv in Hv'. discriminate.
Qed.

Lemma Process_early_error_no_effect_witness :
  exists e w',
    Process (mkPointFilter ShapeRGB888 ShapeRGB888 None) (Some dst2x2)
      (memImage dims2x2 buf2x2) None world2x2 = Ret (Dims_zero, Some e) w' /\
    w_mem w' = w_mem world2x2 /\ w_brk w' = w_brk world2x2 /\
    w_calls w' = w_calls world2x2.
Proof.
  apply (Process_early_error_no_effect
           (mkPointFilter ShapeRGB888 ShapeRGB888 None) (Some dst2x2)
           (memImage dims2x2 buf2x2) None world2x2).
  left. reflexivity.
Defined.

(** ** PointFilter.Process: slices of rows that are not whole bytes *)

(** C6 at a 2x1 image of 12-bit pixels: a row is 3 bytes long, the
    engine takes 2 bytes per pixel and slices the row at [0:4], beyond
    the capacity of the source buffer; the call ends in a panic. *)
Theorem Process_rgb444_panics :
  Validate dims444 = None /\
  len buf444 >= Size dims444 /\
  Process filter444 (Some dst444) (memImage dims444 buf444) None world444 = Panic.
Proof.
  split; [reflexivity|]. split; [vm_compute; discriminate|].
  vm_compute. reflexivity.
Qed.

(** The same image read through [ReadAt]: the row buffer has the 3 bytes
    of a row, and slicing it at [0:4] panics as well. *)
Lemma Process_rgb444_stream_panics :
  Process filter444 (Some dst444)
    (streamImage dims444 (map byte_of_Z [1; 2; 3])) None world444 = Panic.
Proof. vm_compute. reflexivity. Qed.

(** ** PointFilter.Process: reads through ReadAt *)


(** A read that returns an error ends the call with that error, whatever
    the count. *)
Lemma rowBody_read_error {St} (e : loopEnv St) y w data n err st :
  le_srcBuf e = None ->
  im_ReadAt (le_src e) (w_img w) (w_mem w) (len (le_rowBuf e))
    (Int.mul y (Stride (le_srcDims e))) = (data, n, Some err, st) ->
  exists w', rowBody e y w = Ret (Some err) w' /\ w_calls w' = w_calls w.
Proof.
  intros Hb Hr. unfold rowBody, bind, call_ReadAt, ret.
  rewrite Hb, Hr. simpl. eexists. split; reflexivity.
Qed.

(** * The row engine *)

(** ** Memory *)

Lemma upd_same m a v : upd m a v a = v.
Proof. unfold upd. rewrite Z.eqb_refl. reflexivity. Qed.

Lemma upd_other m a v x : x <> a -> upd m a v x = m x.
Proof. unfold upd. intros H. destruct (Z.eqb_spec x a); congruence. Qed.

Lemma read_list_length m a n : List.length (read_list m a n) = n.
Proof. revert a. induction n; intros a; simpl; auto. Qed.

Lemma read_list_nth m a n k :
  (k < n)%nat -> nth k (read_list m a n) x00 = m (a + Z.of_nat k).
Proof.
  revert a k. induction n as [|n IH]; intros a k Hk; [lia|].
  destruct k as [|k]; simpl read_list; simpl nth.
  - f_equal. lia.
  - rewrite IH by lia. f_equal. lia.
Qed.

(** Two memories that agree on a run give the same reading of it. *)
Lemma read_list_ext m1 m2 a1 a2 n :
  (forall k, 0 <= k < Z.of_nat n -> m1 (a1 + k) = m2 (a2 + k)) ->
  read_list m1 a1 n = read_list m2 a2 n.
Proof.
  revert a1 a2. induction n as [|n IH]; intros a1 a2 H; simpl; [reflexivity|].
  f_equal.
  - specialize (H 0 ltac:(lia)). rewrite !Z.add_0_r in H. exact H.
  - apply IH. intros k Hk. specialize (H (1 + k) ltac:(lia)).
    rewrite !Z.add_assoc in H. exact H.
Qed.

Lemma write_list_outside l : forall m a x,
  ~ (a <= x < a + Z.of_nat (List.length l)) -> write_list m a l x = m x.
Proof.
  induction l as [|v l IH]; intros m a x H; simpl in *; [reflexivity|].
  rewrite IH by lia. apply upd_other. lia.
Qed.

Lemma write_list_inside l : forall m a k,
  (k < List.length l)%nat -> write_list m a l (a + Z.of_nat k) = nth k l x00.
Proof.
  induction l as [|v l IH]; intros m a k H; simpl in *; [lia|].
  destruct k as [|k].
  - rewrite write_list_outside by lia. rewrite Z.add_0_r. apply upd_same.
  - replace (a + Z.of_nat (S k)) with (a + 1 + Z.of_nat k) by lia.
    apply IH. lia.
Qed.

(** ** Bytes *)

Lemma inv_byte_involutive b : inv_byte (inv_byte b) = b.
Proof. destruct b; reflexivity. Qed.

(** ** The loop of the inversion filter *)

(** Running the loop from index [i] for [n] more indices, on a destination
    that starts at or before the source, or after the part of the source
    that is read: every byte read is still the original one. *)
Lemma invertLoop_spec n : forall i d s m,
  0 <= i ->
  i + Z.of_nat n <= len s ->
  i + Z.of_nat n <= len d ->
  ptr d <= ptr s \/ ptr s + (i + Z.of_nat n) <= ptr d ->
  exists m',
    invertLoop n i (Some d) (Some s) m = Some m' /\
    (forall j, i <= j < i + Z.of_nat n ->
               m' (ptr d + j) = inv_byte (m (ptr s + j))) /\
    (forall a, ~ (ptr d + i <= a < ptr d + i + Z.of_nat n) -> m' a = m a).
Proof.
  induction n as [|n IH]; intros i d s m Hi Hs Hd Hov.
  - exists m. simpl. split; [reflexivity|]. split; intros; [lia|reflexivity].
  - cbn [invertLoop index store].
    assert (Ei : (0 <=? i) && (i <? len s) = true).
    { apply andb_true_iff. split; [apply Z.leb_le|apply Z.ltb_lt]; lia. }
    assert (Ed : (0 <=? i) && (i <? len d) = true).
    { apply andb_true_iff. split; [apply Z.leb_le|apply Z.ltb_lt]; lia. }
    rewrite Ei, Ed.
    destruct (IH (i + 1) d s (upd m (ptr d + i) (byte_of_Z (255 - Z_of_byte (m (ptr s + i))))))
      as (m' & Hrun & Hval & Hframe); try lia.
    exists m'. split; [exact Hrun|]. split.
    + intros j Hj. destruct (Z.eq_dec j i) as [-> | Hne].
      * rewrite Hframe by lia. rewrite upd_same. reflexivity.
      * rewrite Hval by lia. f_equal. apply upd_other. lia.
    + intros a Ha. rewrite Hframe by lia. apply upd_other. lia.
Qed.

(** ** Bytes per pixel of shapes made of whole bytes *)

Lemma BitsPerPixel_whole_bytes sh k :
  BitsPerPixel sh = 8 * k ->
  2 <= k <= 4 /\ Int.div (Int.add (BitsPerPixel sh) 7) 8 = k.
Proof.
  intros H. destruct (BitsPerPixel_cases sh) as [Hc|Hc]; [lia|].
  simpl in Hc. rewrite H in *.
  assert (Hk : k = 2 \/ k = 3 \/ k = 4) by lia.
  split; [lia|].
  destruct Hk as [-> | [-> | ->]]; reflexivity.
Qed.

Lemma SizeRow_whole_bytes d k :
  BitsPerPixel (DShape d) = 8 * k ->
  0 <= Width d ->
  Width d * BitsPerPixel (DShape d) + 7 <= Int.max_int ->
  SizeRow d = Width d * k.
Proof.
  intros Hk Hw Hfit.
  destruct (BitsPerPixel_whole_bytes _ _ Hk) as [Hr _].
  rewrite SizeRow_exact by nia. rewrite Hk.
  replace (Width d * (8 * k) + 7) with (7 + (Width d * k) * 8) by lia.
  rewrite Z.div_add by lia. reflexivity.
Qed.

(** ** One row *)

(** Removing the wrap-around of results that are in range, innermost
    first. *)
Ltac unwrap :=
  unfold Int.add, Int.sub, Int.mul;
  repeat match goal with
         | |- context [Int.wrap ?z] =>
             lazymatch z with
             | context [Int.wrap _] => fail
             | _ => rewrite (wrap_small z) by (int_consts; lia)
             end
         end.

Lemma andb3_true (a b c : bool) :
  a = true -> b = true -> c = true -> a && b && c = true.
Proof. intros -> -> ->. reflexivity. Qed.

(** The slice expression [b[lo:hi]] within the capacity. *)
Lemma reslice_ok (s : slice) lo hi :
  0 <= lo <= hi -> hi <= cap s ->
  reslice (Some s) lo hi = Some (Some (mkSlice (ptr s + lo) (hi - lo) (cap s - lo))).
Proof.
  intros H1 H2. unfold reslice.
  rewrite andb3_true; [reflexivity| | |]; apply Z.leb_le; lia.
Qed.

(** With a source buffer, the body of the loop comes down to one call of
    the function on two slices, when no index leaves its array. *)
Lemma rowBody_buffered {St} (e : loopEnv St) (y : Z) (w : world St)
    (dst buf : slice) :
  le_dst e = Some dst ->
  le_srcBuf e = Some buf ->
  0 <= le_startY e <= y -> y <= Int.max_int ->
  0 <= y * Stride (le_srcDims e) ->
  0 <= le_srcRowBytes e ->
  y * Stride (le_srcDims e) + le_srcRowBytes e <= cap buf ->
  cap buf <= Int.max_int ->
  0 <= le_outStride e ->
  (y - le_startY e) * le_outStride e + le_outStride e <= cap dst ->
  cap dst <= Int.max_int ->
  0 <= le_startX e * le_inBytesPerPixel e <= le_endX e * le_inBytesPerPixel e ->
  le_endX e * le_inBytesPerPixel e <= le_srcRowBytes e ->
  rowBody e y w =
  fnCall (le_fn e)
    (dstRow dst (le_startY e) (le_outStride e) y)
    (srcPart (bufRow buf (Stride (le_srcDims e)) (le_srcRowBytes e) y)
       (le_inBytesPerPixel e) (le_startX e) (le_endX e)) w.
Proof.
  intros Hdst Hbuf Hy Hymax HyS Hrb Hrow Hcb Hos Hdrow Hcd Hx Hex.
  unfold rowBody, fnCall, dstRow, srcPart, bufRow. rewrite Hdst, Hbuf.
  assert (0 <= (y - le_startY e) * le_outStride e) by nia.
  unwrap.
  unfold bind at 1 2. unfold slice_expr at 1.
  rewrite reslice_ok by lia. unfold ret at 1. cbn [snd fst].
  unfold bind at 1. unfold slice_expr at 1.
  rewrite reslice_ok by lia.
  unfold bind at 1. unfold slice_expr at 1.
  rewrite reslice_ok by (cbn [cap]; lia).
  cbn [ptr cap]. unfold bind.
  replace (y * Stride (le_srcDims e) + le_srcRowBytes e - y * Stride (le_srcDims e))
    with (le_srcRowBytes e) by lia.
  replace ((y - le_startY e) * le_outStride e + le_outStride e -
           (y - le_startY e) * le_outStride e) with (le_outStride e) by lia.
  reflexivity.
Qed.

(** Without a source buffer, the row is read into the row buffer first;
    the count that [ReadAt] returns is not looked at. *)
Lemma rowBody_streamed {St} (e : loopEnv St) (y : Z) (w : world St)
    (dst : slice) data n st :
  le_dst e = Some dst ->
  le_srcBuf e = None ->
  0 <= le_startY e <= y -> y <= Int.max_int ->
  0 <= y * Stride (le_srcDims e) <= Int.max_int ->
  0 <= le_outStride e ->
  (y - le_startY e) * le_outStride e + le_outStride e <= cap dst ->
  cap dst <= Int.max_int ->
  0 <= le_startX e * le_inBytesPerPixel e <= le_endX e * le_inBytesPerPixel e ->
  le_endX e * le_inBytesPerPixel e <= cap (le_rowBuf e) ->
  cap (le_rowBuf e) <= Int.max_int ->
  im_ReadAt (le_src e) (w_img w) (w_mem w) (len (le_rowBuf e))
    (y * Stride (le_srcDims e)) = (data, n, None, st) ->
  rowBody e y w =
  fnCall (le_fn e)
    (dstRow dst (le_startY e) (le_outStride e) y)
    (srcPart (le_rowBuf e) (le_inBytesPerPixel e) (le_startX e) (le_endX e))
    (mkWorld (write_list (w_mem w) (ptr (le_rowBuf e))
                (firstn (Z.to_nat (len (le_rowBuf e))) data))
             (w_brk w) st (w_calls w)).
Proof.
  intros Hdst Hbuf Hy Hymax HyS Hos Hdrow Hcd Hx Hex Hcr Hread.
  unfold rowBody, fnCall, dstRow, srcPart. rewrite Hdst, Hbuf.
  assert (0 <= (y - le_startY e) * le_outStride e) by nia.
  unwrap.
  unfold bind at 1 2. unfold call_ReadAt. rewrite Hread.
  unfold ret at 1. cbn [snd fst].
  unfold bind at 1. unfold slice_expr at 1.
  rewrite reslice_ok by lia.
  unfold bind at 1. unfold slice_expr at 1.
  rewrite reslice_ok by lia.
  unfold bind.
  replace ((y - le_startY e) * le_outStride e + le_outStride e -
           (y - le_startY e) * le_outStride e) with (le_outStride e) by lia.
  reflexivity.
Qed.

(** ** The loop *)

(** The rule of the row loop: an invariant that every row carries from
    [y] to [y + 1] holds at the end, and the loop returns no error. *)
Lemma rowLoop_invariant {St} (e : loopEnv St) (hi : Z)
    (Inv : Z -> world St -> Prop) :
  hi <= Int.max_int ->
  (forall y w, 0 <= y < hi -> Inv y w ->
               exists w1, rowBody e y w = Ret None w1 /\ Inv (y + 1) w1) ->
  forall n y w,
    0 <= y -> y + Z.of_nat n = hi -> Inv y w ->
    exists w', rowLoop e n y w = Ret None w' /\ Inv hi w'.
Proof.
  intros Hhi Hstep. induction n as [|n IH]; intros y w Hy Hn Hinv.
  - exists w. split; [reflexivity|]. replace hi with y by lia. exact Hinv.
  - cbn [rowLoop]. unfold bind.
    destruct (Hstep y w ltac:(lia) Hinv) as (w1 & Hrun & Hinv1).
    rewrite Hrun.
    replace (Int.add y 1) with (y + 1) by (unwrap; reflexivity).
    apply IH; [lia|lia|exact Hinv1].
Qed.

(** The loop allocates nothing. *)
Lemma rowBody_brk {St} (e : loopEnv St) y w r w' :
  rowBody e y w = Ret r w' -> w_brk w' = w_brk w.
Proof.
  unfold rowBody, bind, slice_expr, call_ReadAt, call_Fn, ret.
  destruct (le_srcBuf e).
  - destruct (reslice _ _ _); [|discriminate]. cbn [snd fst].
    destruct (reslice _ _ _); [|discriminate].
    destruct (reslice _ _ _); [|discriminate].
    destruct (le_fn e _ _ _); [|discriminate].
    intros H. inversion H. reflexivity.
  - destruct (im_ReadAt _ _ _ _ _) as [[[data n] err] st]. cbn [snd fst].
    destruct err.
    + intros H. inversion H. reflexivity.
    + destruct (reslice _ _ _); [|discriminate].
      destruct (reslice _ _ _); [|discriminate].
      destruct (le_fn e _ _ _); [|discriminate].
      intros H. inversion H. reflexivity.
Qed.

Lemma rowLoop_brk {St} (e : loopEnv St) n : forall y w r w',
  rowLoop e n y w = Ret r w' -> w_brk w' = w_brk w.
Proof.
  induction n as [|n IH]; intros y w r w'; cbn [rowLoop].
  - unfold ret. intros H. inversion H. reflexivity.
  - unfold bind. destruct (rowBody e y w) as [[err|] w1|] eqn:E; [| |discriminate].
    + unfold ret. intros H. inversion H. subst. eapply rowBody_brk; eassumption.
    + intros H. apply IH in H. rewrite H. eapply rowBody_brk; eassumption.
Qed.

(** ** Pure per-pixel transforms *)

Lemma nth_map_in {A B} (f : A -> B) (l : list A) (k : nat) (a : A) (b : B) :
  (k < List.length l)%nat -> nth k (map f l) b = f (nth k l a).
Proof.
  intros H. rewrite (nth_indep _ b (f a)) by (rewrite length_map; exact H).
  apply map_nth.
Qed.

(** The inversion filter is one, on pixels of 3 bytes. *)
Lemma invertFn_per_pixel : per_pixel 3 3 (map inv_byte) invertFn.
Proof.
  intros d s m k Hk Hs Hd Hdis. unfold invertFn. cbn [blen].
  destruct (invertLoop_spec (Z.to_nat (len s)) 0 d s m)
    as (m' & Hrun & Hval & Hframe); try lia.
  exists m'. split; [exact Hrun|]. split.
  - intros j c Hj Hc.
    replace (ptr d + j * 3 + c) with (ptr d + (j * 3 + c)) by lia.
    rewrite Hval by lia.
    assert (Hn : (Z.to_nat c < 3)%nat) by lia.
    change (Z.to_nat 3) with 3%nat.
    rewrite (nth_map_in inv_byte _ _ x00) by (rewrite read_list_length; exact Hn).
    rewrite read_list_nth by exact Hn.
    f_equal. f_equal. lia.
  - intros a Ha. apply Hframe. lia.
Qed.

Section OutOfPlace.

Context {St : Type}.
Variables (fn : PointFunc) (g : list byte -> list byte) (ib ob : Z).
Hypothesis Hpp : per_pixel ib ob g fn.
Hypothesis Hib : 0 < ib.
Hypothesis Hob : 0 < ob.

Variables (src : Image St) (d : Dims) (content : Z -> byte).
Variables (dst rowBuf : slice) (srcBuf : bytes) (sx sy ex ey : Z).

Let S := Stride d.
Let rb := Width d * ib.
Let os := (ex - sx) * ob.
Let e := mkLoopEnv fn src d (Some dst) srcBuf rowBuf rb os ib sx sy ex.

Hypothesis Hx : 0 <= sx <= ex /\ ex <= Width d.
Hypothesis Hy : 0 <= sy <= ey /\ ey <= Height d.
Hypothesis Hh : Height d <= Int.max_int.
Hypothesis HS : rb <= S.
Hypothesis Hsize : (Height d - 1) * S + rb <= Int.max_int.
Hypothesis Hdst : 0 <= len dst <= cap dst /\ cap dst <= Int.max_int.
Hypothesis Hout : (ey - sy) * os <= len dst.
Hypothesis Hrow : len rowBuf = rb /\ cap rowBuf = rb.
Hypothesis Hscratch :
  ptr rowBuf + rb <= ptr dst \/ ptr dst + len dst <= ptr rowBuf.

(** The memory at the start of the loop. *)
Variable m0 : mem.

Let oinv := @out_inv St g ib ob d content dst rowBuf sx sy ex m0.

(** The arithmetic of a row inside the region. *)
Lemma row_bounds y :
  sy <= y < ey ->
  0 <= y * S /\ y * S + rb <= (Height d - 1) * S + rb /\
  0 <= (y - sy) * os /\ (y - sy) * os + os <= (ey - sy) * os /\
  0 <= sx * ib <= ex * ib /\ ex * ib <= rb /\ 0 <= os /\ 0 <= rb.
Proof.
  intros Hr.
  assert (Hrb : 0 <= rb) by (unfold rb; nia).
  assert (HS0 : 0 <= S) by lia.
  assert (Hos : 0 <= os) by (unfold os; nia).
  assert (0 <= y * S) by (apply Z.mul_nonneg_nonneg; lia).
  assert (y * S <= (Height d - 1) * S)
    by (apply Z.mul_le_mono_nonneg_r; lia).
  assert (0 <= (y - sy) * os) by (apply Z.mul_nonneg_nonneg; lia).
  assert ((y - sy + 1) * os <= (ey - sy) * os)
    by (apply Z.mul_le_mono_nonneg_r; lia).
  assert (0 <= sx * ib) by (apply Z.mul_nonneg_nonneg; lia).
  assert (sx * ib <= ex * ib) by (apply Z.mul_le_mono_nonneg_r; lia).
  assert (ex * ib <= rb)
    by (unfold rb; apply Z.mul_le_mono_nonneg_r; lia).
  repeat split; lia.
Qed.

(** The function on the destination row of [y] and a source slice that
    holds the pixels [sx..ex] of that row. *)
Lemma fn_row y (w : world St) (srow : slice) :
  sy <= y < ey ->
  oinv y w ->
  len srow = (ex - sx) * ib ->
  ptr srow + len srow <= ptr dst \/ ptr dst + len dst <= ptr srow ->
  (forall o, 0 <= o < len srow ->
             w_mem w (ptr srow + o) = content (y * S + sx * ib + o)) ->
  exists w1,
    fnCall fn (dstRow dst sy os y) srow w = Ret None w1 /\
    oinv (y + 1) w1.
Proof.
  intros Hr (Hsy & Hrows & Hframe) Hlen Hdis Hcontent.
  destruct (row_bounds y Hr) as (B1 & B2 & B3 & B4 & B5 & B6 & B7 & B8).
  destruct (Hpp (dstRow dst sy os y) srow (w_mem w) (ex - sx))
    as (m' & Hrun & Hval & Hfr); cbn [dstRow len ptr]; try lia.
  unfold fnCall, bind, call_Fn, ret. rewrite Hrun.
  eexists. split; [reflexivity|].
  cbn [dstRow len ptr] in *.
  split; [lia|]. cbn [w_mem]. split.
  - intros r j c Hrr Hj Hc.
    destruct (Z.eq_dec r y) as [-> | Hne].
    + rewrite Hval by lia. unfold pixel_out. f_equal. f_equal.
      apply read_list_ext. intros k Hk.
      replace (ptr srow + j * ib + k) with (ptr srow + (j * ib + k)) by lia.
      rewrite Hcontent by nia. f_equal. lia.
    + rewrite Hfr by nia. apply Hrows; lia.
  - intros a Ha Hb. rewrite Hfr by nia. apply Hframe; [nia|exact Hb].
Qed.

(** A row of a source that exposes the buffer [buf], which holds
    [content] and overlaps neither the destination nor the row buffer. *)
Lemma row_buffered (buf : slice) y w :
  srcBuf = Some buf ->
  len buf <= cap buf /\ cap buf <= Int.max_int ->
  (Height d - 1) * S + rb <= len buf ->
  ptr buf + len buf <= ptr dst \/ ptr dst + len dst <= ptr buf ->
  ptr buf + len buf <= ptr rowBuf \/ ptr rowBuf + rb <= ptr buf ->
  (forall o, 0 <= o < (Height d - 1) * S + rb -> m0 (ptr buf + o) = content o) ->
  sy <= y < ey -> oinv y w ->
  exists w1, rowBody e y w = Ret None w1 /\ oinv (y + 1) w1.
Proof.
  intros Hsb Hbuf Hfull Hdis Hscr Hcont Hr Hinv.
  destruct (row_bounds y Hr) as (B1 & B2 & B3 & B4 & B5 & B6 & B7 & B8).
  rewrite (rowBody_buffered e y w dst buf); cbn [e le_dst le_srcBuf le_startY
    le_srcDims le_srcRowBytes le_outStride le_startX le_endX le_inBytesPerPixel];
    fold S; try lia; try reflexivity; try exact Hsb.
  apply (fn_row y w); cbn [srcPart bufRow len ptr]; try lia; try exact Hinv.
  intros o Ho. destruct Hinv as (_ & _ & Hframe).
  rewrite Hframe by lia.
  replace (ptr buf + y * S + sx * ib + o) with (ptr buf + (y * S + sx * ib + o))
    by lia.
  apply Hcont. lia.
Qed.

(** A row of a source without buffer, whose [ReadAt] delivers the rows
    of [content]. *)
Lemma row_streamed y w :
  srcBuf = None ->
  (forall st m r, 0 <= r < Height d ->
     exists n st',
       im_ReadAt src st m rb (r * S) =
       (read_list content (r * S) (Z.to_nat rb), n, None, st')) ->
  sy <= y < ey -> oinv y w ->
  exists w1, rowBody e y w = Ret None w1 /\ oinv (y + 1) w1.
Proof.
  intros Hsb Hread Hr Hinv.
  destruct (row_bounds y Hr) as (B1 & B2 & B3 & B4 & B5 & B6 & B7 & B8).
  destruct Hrow as [Hlr Hcr].
  destruct (Hread (w_img w) (w_mem w) y ltac:(lia)) as (n & st' & Hrd).
  rewrite (rowBody_streamed e y w dst
             (read_list content (y * S) (Z.to_nat rb)) n st');
    cbn [e le_dst le_srcBuf le_startY le_srcDims le_srcRowBytes le_outStride
         le_startX le_endX le_inBytesPerPixel le_rowBuf le_src];
    fold S; try lia; try reflexivity; try exact Hsb;
    [|rewrite Hlr; exact Hrd].
  rewrite Hlr.
  rewrite firstn_all2 by (rewrite read_list_length; lia).
  apply fn_row; cbn [srcPart len ptr w_mem]; try lia.
  - destruct Hinv as (Hsy & Hrows & Hframe). split; [exact Hsy|].
    cbn [w_mem]. split.
    + intros r j c Hrr Hj Hc.
      rewrite write_list_outside
        by (rewrite read_list_length; nia).
      apply Hrows; lia.
    + intros a Ha Hb.
      rewrite write_list_outside by (rewrite read_list_length; lia).
      apply Hframe; assumption.
  - intros o Ho.
    replace (ptr rowBuf + sx * ib + o)
      with (ptr rowBuf + Z.of_nat (Z.to_nat (sx * ib + o))) by lia.
    rewrite write_list_inside by (rewrite read_list_length; lia).
    rewrite read_list_nth by lia.
    f_equal. lia.
Qed.

(** The whole loop over the rows [sy..ey]. *)
Lemma rowLoop_out_of_place (w : world St) :
  (forall y w, sy <= y < ey -> oinv y w ->
               exists w1, rowBody e y w = Ret None w1 /\ oinv (y + 1) w1) ->
  (forall a, w_mem w a = m0 a) ->
  exists w',
    rowLoop e (Z.to_nat (ey - sy)) sy w = Ret None w' /\ oinv ey w'.
Proof.
  intros Hstep Hm.
  apply (rowLoop_invariant e ey oinv).
  - lia.
  - intros y w0 Hy0 Hinv. destruct (Z_lt_ge_dec y sy) as [Hlt|Hge].
    + destruct Hinv as (Hsy & _). lia.
    + apply Hstep; [lia|exact Hinv].
  - lia.
  - lia.
  - split; [lia|]. split.
    + intros; lia.
    + intros a _ _. apply Hm.
Qed.

End OutOfPlace.

(** * Whole calls of [Process] *)

(** ** Well-behaved sources *)

Lemma call_Dims_stable {St} (src : Image St) d w :
  stable_Dims src d ->
  exists st, call_Dims src w = Ret d (mkWorld (w_mem w) (w_brk w) st (w_calls w)).
Proof.
  intros H. unfold call_Dims. specialize (H (w_img w)).
  destruct (im_Dims src (w_img w)) as [d' st]. simpl in H. subst d'.
  exists st. reflexivity.
Qed.

Lemma requiredMinDstSize_ok dd d roi :
  Int.in_range (Width d) -> Int.in_range (Height d) ->
  roi_ok d roi ->
  requiredMinDstSize dd d roi =
  inr (Int.mul (Stride dd) (match roi with
                            | Some r => Dy r
                            | None => Height dd
                            end)).
Proof.
  intros Hw Hh Hroi. unfold requiredMinDstSize. destruct roi as [r|]; [|reflexivity].
  simpl in Hroi. destruct Hroi as (H1 & H2 & H3 & H4).
  destruct (Z.ltb_spec (X (Max r)) 0); [lia|].
  destruct (Z.ltb_spec (X (Min r)) 0); [lia|].
  destruct (Z.ltb_spec (Y (Min r)) 0); [lia|].
  destruct (Z.ltb_spec (Y (Max r)) 0); [lia|].
  destruct (Z.gtb_spec (X (Max r)) (Width d)); [lia|].
  destruct (Z.gtb_spec (Y (Max r)) (Height d)); [lia|].
  simpl. unfold Empty.
  destruct (Z.geb_spec (X (Min r)) (X (Max r))); [lia|].
  destruct (Z.geb_spec (Y (Min r)) (Y (Max r))); [lia|].
  reflexivity.
Qed.

(** A supplied destination that is long enough is accepted and returned
    as it is. *)
Lemma ValidateProcessArgs_accepts {St} (dst : slice) dd (src : Image St) d roi w :
  stable_Dims src d ->
  Validate d = None ->
  Int.in_range (Width d) -> Int.in_range (Height d) ->
  roi_ok d roi ->
  Int.mul (Stride dd) (match roi with
                       | Some r => Dy r
                       | None => Height dd
                       end) <= len dst ->
  exists st,
    ValidateProcessArgs (Some dst) dd src roi w =
    Ret (Some dst, d, None) (mkWorld (w_mem w) (w_brk w) st (w_calls w)).
Proof.
  intros Hst Hv Hw Hh Hroi Hlen.
  unfold ValidateProcessArgs, bind.
  destruct (call_Dims_stable src d w Hst) as (st & ->).
  rewrite Hv, (requiredMinDstSize_ok dd d roi Hw Hh Hroi).
  unfold ret, checkDstSize. cbn [blen].
  destruct (Z.ltb_spec (len dst)
              (Int.mul (Stride dd) match roi with
                                   | Some r => Dy r
                                   | None => Height dd
                                   end)); [lia|].
  exists st. reflexivity.
Qed.

Lemma processRows_region {St} (f : PointFilter) fn srcDims dstDims dst
    (src : Image St) roi :
  processRows f fn srcDims dstDims dst src roi =
  bind (match im_Buffer src with
        | Some bf => call_Buffer bf
        | None => ret None
        end)
    (fun srcBuf =>
       bind (make (SizeRow srcDims))
         (fun rowBuf =>
            bind (rowLoop
                    (mkLoopEnv fn src srcDims dst srcBuf rowBuf (SizeRow srcDims)
                       (Stride dstDims)
                       (Int.div (Int.add (BitsPerPixel (pf_In f)) 7) 8)
                       (startX srcDims roi) (startY srcDims roi) (endX srcDims roi))
                    (Z.to_nat (endY srcDims roi - startY srcDims roi))
                    (startY srcDims roi))
              (fun r => match r with
                        | Some err => ret (Dims_zero, Some err)
                        | None => ret (dstDims, None)
                        end))).
Proof. unfold processRows. destruct roi; reflexivity. Qed.

Lemma region_bounds d roi :
  Validate d = None -> roi_ok d roi ->
  0 <= startX d roi < endX d roi /\ endX d roi <= Width d /\
  0 <= startY d roi < endY d roi /\ endY d roi <= Height d.
Proof.
  intros Hv Hroi. unfold startX, startY, endX, endY, region.
  destruct roi as [r|]; cbn [fst snd]; [exact Hroi|].
  unfold Validate in Hv.
  destruct (Z.leb_spec (Height d) 0); [discriminate|].
  destruct (Z.leb_spec (Width d) 0); [discriminate|].
  lia.
Qed.

(** The geometry of the output for shapes made of whole bytes. *)
Lemma dstDimsOf_whole_bytes (f : PointFilter) d roi ob :
  BitsPerPixel (pf_Out f) = 8 * ob ->
  Validate d = None -> roi_ok d roi -> Dims_ok d ->
  Width d * 16 <= Int.max_int ->
  dstDimsOf f d roi =
  mkDims (endX d roi - startX d roi) (endY d roi - startY d roi)
         ((endX d roi - startX d roi) * ob) (pf_Out f).
Proof.
  intros Hob Hv Hroi (Hw & Hh & _) Hfit.
  destruct (BitsPerPixel_whole_bytes _ _ Hob) as [Hr Hbpp].
  pose proof (region_bounds d roi Hv Hroi) as HB.
  unfold dstDimsOf, ShapeIO. rewrite Hbpp.
  unfold startX, startY, endX, endY, region in *.
  destruct roi as [r|]; cbn [fst snd] in *; unfold Dx, Dy.
  - assert (0 <= (X (Max r) - X (Min r)) * ob <= Width d * 4) by nia.
    unwrap. reflexivity.
  - assert (0 <= Width d * ob <= Width d * 4) by nia.
    unwrap. rewrite !Z.sub_0_r. reflexivity.
Qed.

(** ** Out-of-place calls *)

Section ProcessOutOfPlace.

Context {St : Type}.
Variables (f : PointFilter) (fn : PointFunc) (g : list byte -> list byte).
Variables (ib ob : Z) (src : Image St) (d : Dims) (content : Z -> byte).
Variables (dst : slice) (roi : option Rectangle) (w : world St).

Let sx := startX d roi.
Let sy := startY d roi.
Let ex := endX d roi.
Let ey := endY d roi.

Hypothesis Hfn : pf_Fn f = Some fn.
Hypothesis Hpp : per_pixel ib ob g fn.
Hypothesis Hin : BitsPerPixel (pf_In f) = 8 * ib.
Hypothesis Hout : BitsPerPixel (pf_Out f) = 8 * ob.
Hypothesis Hstable : stable_Dims src d.
Hypothesis Hshape : DShape d = pf_In f.
Hypothesis Hvalid : Validate d = None.
Hypothesis Hok : Dims_ok d.
Hypothesis Hfit : Width d * BitsPerPixel (DShape d) + 7 <= Int.max_int.
Hypothesis Hsize : image_bytes d ib <= Int.max_int.
Hypothesis Hroi : roi_ok d roi.
Hypothesis Hdst :
  0 <= len dst <= cap dst /\ cap dst <= Int.max_int /\
  ptr dst + len dst <= w_brk w.
Hypothesis Hlen : (ey - sy) * ((ex - sx) * ob) <= len dst.
Hypothesis Hsrc : readable src d ib content w dst.

(** The call succeeds, returns the geometry of the output, and the
    destination holds, row by row from its start, the transformed pixels
    of the region; memory that was live before is otherwise unchanged. *)
Lemma Process_out_of_place :
  exists w',
    Process f (Some dst) src roi w = Ret (dstDimsOf f d roi, None) w' /\
    (forall r j c, 0 <= r < ey - sy -> 0 <= j < ex - sx -> 0 <= c < ob ->
       w_mem w' (ptr dst + r * ((ex - sx) * ob) + j * ob + c) =
       pixel_out g content (Stride d) ib (sy + r) (sx + j) c) /\
    (forall a, a < w_brk w ->
               ~ (ptr dst <= a < ptr dst + (ey - sy) * ((ex - sx) * ob)) ->
               w_mem w' a = w_mem w a) /\
    w_brk w' = w_brk w + Width d * ib.
Proof.
  destruct (BitsPerPixel_whole_bytes _ _ Hin) as [Hrib Hibpp].
  destruct (BitsPerPixel_whole_bytes _ _ Hout) as [Hrob Hobpp].
  pose proof (region_bounds d roi Hvalid Hroi) as HB.
  fold sx sy ex ey in HB.
  assert (Hw0 : 0 < Width d /\ 0 < Height d) by lia.
  assert (Hrow : SizeRow d = Width d * ib).
  { apply SizeRow_whole_bytes; [rewrite Hshape; exact Hin|lia|exact Hfit]. }
  assert (HvS : Width d * ib <= Stride d).
  { pose proof (proj1 (Validate_None_iff d Hfit) Hvalid) as (_ & _ & _ & Hs).
    rewrite Hshape, Hin in Hs. lia. }
  assert (Hw16 : Width d * 16 <= Int.max_int).
  { rewrite Hshape, Hin in Hfit. nia. }
  destruct Hok as (Hwr & Hhr & _).
  pose proof (dstDimsOf_whole_bytes f d roi ob Hout Hvalid Hroi Hok Hw16) as Hdd.
  fold sx sy ex ey in Hdd.
  unfold Process. rewrite Hfn. unfold bind at 1.
  destruct (call_Dims_stable src d w Hstable) as (st1 & ->).
  rewrite Hshape, Z.eqb_refl. cbn [negb]. unfold bind at 1.
  set (w1 := mkWorld (w_mem w) (w_brk w) st1 (w_calls w)).
  destruct (ValidateProcessArgs_accepts dst (dstDimsOf f d roi) src d roi w1
              Hstable Hvalid Hwr Hhr Hroi) as (st2 & ->).
  { rewrite Hdd. cbn [Stride Height].
    assert (0 <= (ex - sx) * ob) by nia.
    assert (0 <= (ey - sy) * ((ex - sx) * ob)) by nia.
    destruct roi as [r|].
    - unfold Dy. unfold sy, ey, startY, endY, region in *. cbn [fst snd] in *.
      rewrite Z.mul_comm. unwrap. lia.
    - rewrite Z.mul_comm. unwrap. lia. }
  cbn [w1 w_mem w_brk w_calls].
  rewrite processRows_region. fold sx sy ex ey.
  rewrite Hrow, Hibpp, Hdd. cbn [Stride].
  (* the call of Buffer and the allocation of the row buffer *)
  set (m0 := fun x => if (w_brk w <=? x) && (x <? w_brk w + Width d * ib)
                      then x00 else w_mem w x).
  set (rowBuf := mkSlice (w_brk w) (Width d * ib) (Width d * ib)).
  set (Inv := @out_inv St g ib ob d content dst rowBuf sx sy ex m0).
  assert (Hm0 : forall a, a < w_brk w -> m0 a = w_mem w a).
  { intros a Ha. unfold m0. destruct (Z.leb_spec (w_brk w) a); [lia|reflexivity]. }
  assert (Hhmax : Height d <= Int.max_int) by (int_consts; lia).
  assert (Hloop : forall srcBuf st3,
    (forall y w2, sy <= y < ey -> Inv y w2 ->
        exists w3,
          rowBody (mkLoopEnv fn src d (Some dst) srcBuf rowBuf (Width d * ib)
                     ((ex - sx) * ob) ib sx sy ex) y w2 = Ret None w3 /\
          Inv (y + 1) w3) ->
    exists w',
      bind (make (Width d * ib))
        (fun rowBuf0 =>
           bind (rowLoop (mkLoopEnv fn src d (Some dst) srcBuf rowBuf0
                            (Width d * ib) ((ex - sx) * ob) ib sx sy ex)
                   (Z.to_nat (ey - sy)) sy)
             (fun r => match r with
                       | Some err => ret (Dims_zero, Some err)
                       | None =>
                           ret (mkDims (ex - sx) (ey - sy) ((ex - sx) * ob) (pf_Out f),
                                None)
                       end))
        (mkWorld (w_mem w) (w_brk w) st3 (w_calls w)) =
      Ret (mkDims (ex - sx) (ey - sy) ((ex - sx) * ob) (pf_Out f), None) w' /\
      Inv ey w' /\ w_brk w' = w_brk w + Width d * ib).
  { intros srcBuf st3 Hstep. unfold bind at 1. unfold make.
    destruct (Z.ltb_spec (Width d * ib) 0); [nia|]. cbn [w_mem w_brk w_img w_calls].
    fold m0. fold rowBuf. unfold bind.
    edestruct (rowLoop_out_of_place fn g ib ob src d content dst rowBuf srcBuf
                 sx sy ex ey) as (w' & Hrun & Hinv);
      [lia|exact Hhmax|exact Hstep| |].
    2:{ rewrite Hrun. exists w'. split; [reflexivity|]. split; [exact Hinv|].
        apply rowLoop_brk in Hrun. exact Hrun. }
    intros a. reflexivity. }
  assert (Hfinal : forall w',
    Inv ey w' ->
    (forall r j c, 0 <= r < ey - sy -> 0 <= j < ex - sx -> 0 <= c < ob ->
       w_mem w' (ptr dst + r * ((ex - sx) * ob) + j * ob + c) =
       pixel_out g content (Stride d) ib (sy + r) (sx + j) c) /\
    (forall a, a < w_brk w ->
               ~ (ptr dst <= a < ptr dst + (ey - sy) * ((ex - sx) * ob)) ->
               w_mem w' a = w_mem w a)).
  { intros w' (_ & Hrows & Hframe). split.
    - intros r j c Hr Hj Hc.
      specialize (Hrows (sy + r) j c ltac:(lia) Hj Hc).
      replace (sy + r - sy) with r in Hrows by lia. exact Hrows.
    - intros a Ha Hna. rewrite Hframe; [apply Hm0; exact Ha|exact Hna|].
      cbn [rowBuf ptr]. lia. }
  assert (Hscr : ptr rowBuf + Width d * ib <= ptr dst \/
                 ptr dst + len dst <= ptr rowBuf) by (cbn [rowBuf ptr]; lia).
  assert (Hstream : delivers src d content ->
            forall y w2, sy <= y < ey -> Inv y w2 ->
            exists w3,
              rowBody (mkLoopEnv fn src d (Some dst) None rowBuf (Width d * ib)
                         ((ex - sx) * ob) ib sx sy ex) y w2 = Ret None w3 /\
              Inv (y + 1) w3).
  { intros Hdel y w2 Hy Hinv.
    eapply (row_streamed fn g ib ob Hpp) with (ey := ey);
      try eassumption; try lia; try reflexivity; try (split; reflexivity).
    unfold delivers in Hdel. rewrite Hrow in Hdel. exact Hdel. }
  destruct Hsrc as [(buf & (bf & Hbf & Hans) & Hbuf & Hfull & Hdis & Hlive & Hcont)
                   |(Hnb & Hdel)].
  - (* a source with a buffer *)
    rewrite Hbf. unfold bind at 1. unfold call_Buffer.
    cbn [w_img w_mem w_brk w_calls].
    specialize (Hans st2). destruct (bf st2) as [b st3]. cbn [fst] in Hans. subst b.
    destruct (Hloop (Some buf) st3) as (w' & Hrun & Hinv & Hbrk).
    { intros y w2 Hy Hinv.
      eapply (row_buffered fn g ib ob Hpp) with (ey := ey) (buf := buf);
        try eassumption; try lia; try reflexivity.
      - cbn [rowBuf ptr]. lia.
      - intros o Ho. rewrite Hm0 by (unfold image_bytes in *; lia).
        apply Hcont. unfold image_bytes. exact Ho. }
    exists w'. split; [exact Hrun|].
    destruct (Hfinal w' Hinv) as [F1 F2]. auto.
  - (* a source that is read through ReadAt *)
    destruct Hnb as [Hn|(bf & Hbf & Hans)].
    + rewrite Hn. unfold bind at 1. unfold ret at 1.
      destruct (Hloop None st2 (Hstream Hdel)) as (w' & Hrun & Hinv & Hbrk).
      exists w'. split; [exact Hrun|].
      destruct (Hfinal w' Hinv) as [F1 F2]. auto.
    + rewrite Hbf. unfold bind at 1. unfold call_Buffer.
      cbn [w_img w_mem w_brk w_calls].
      specialize (Hans st2). destruct (bf st2) as [b st3]. cbn [fst] in Hans.
      subst b.
      destruct (Hloop None st3 (Hstream Hdel)) as (w' & Hrun & Hinv & Hbrk).
      exists w'. split; [exact Hrun|].
      destruct (Hfinal w' Hinv) as [F1 F2]. auto.
Qed.

End ProcessOutOfPlace.

(** ** In-place calls *)

Lemma Size_whole_bytes d k :
  BitsPerPixel (DShape d) = 8 * k ->
  Validate d = None ->
  Width d * BitsPerPixel (DShape d) + 7 <= Int.max_int ->
  image_bytes d k <= Int.max_int ->
  Size d = image_bytes d k.
Proof.
  intros Hk Hv Hfit Hsz.
  pose proof (proj1 (Validate_None_iff d Hfit) Hv) as (Hw & Hh & _ & Hs).
  destruct (BitsPerPixel_whole_bytes _ _ Hk) as [Hr _].
  unfold Size, image_bytes in *.
  destruct (Z.eqb_spec (Height d) 0); [lia|].
  destruct (Z.eqb_spec (Width d) 0); [lia|]. cbn [orb].
  rewrite (SizeRow_whole_bytes d k Hk ltac:(lia) Hfit).
  rewrite Hk in Hs.
  assert (0 <= (Height d - 1) * Stride d) by nia.
  assert (0 <= Width d * k) by nia.
  assert (Height d - 1 <= (Height d - 1) * Stride d + Width d * k) by nia.
  unwrap. reflexivity.
Qed.

(** An in-place request on a source that exposes a buffer long enough is
    given that buffer as destination. *)
Lemma ValidateProcessArgs_accepts_in_place {St} (buf : slice) dd
    (src : Image St) d w :
  stable_Dims src d ->
  Validate d = None ->
  exposes src (Some buf) ->
  DShape dd = DShape d ->
  Size d <= len buf ->
  Int.mul (Stride dd) (Height dd) <= len buf ->
  exists st,
    ValidateProcessArgs None dd src None w =
    Ret (Some buf, d, None) (mkWorld (w_mem w) (w_brk w) st (w_calls w)).
Proof.
  intros Hst Hv (bf & Hbf & Hans) Hsh Hsz Hlen.
  unfold ValidateProcessArgs, bind.
  destruct (call_Dims_stable src d w Hst) as (st & ->).
  rewrite Hv. cbn [requiredMinDstSize].
  rewrite Hsh, Z.eqb_refl. cbn [negb]. rewrite Hbf.
  unfold call_Buffer. cbn [w_img w_mem w_brk w_calls].
  specialize (Hans st). destruct (bf st) as [b st']. cbn [fst] in Hans. subst b.
  destruct (Z.ltb_spec (len buf) (Size d)); [lia|].
  unfold ret, checkDstSize. cbn [blen].
  destruct (Z.ltb_spec (len buf) (Int.mul (Stride dd) (Height dd))); [lia|].
  exists st'. reflexivity.
Qed.

Section InPlaceInvert.

Context {St : Type}.
Variables (src : Image St) (d : Dims) (buf : slice) (w : world St).

Let W3 := Width d * 3.
Let S := Stride d.

Hypothesis Hstable : stable_Dims src d.
Hypothesis Hshape : DShape d = ShapeRGB888.
Hypothesis Hvalid : Validate d = None.
Hypothesis Hok : Dims_ok d.
Hypothesis Hfit : Width d * BitsPerPixel (DShape d) + 7 <= Int.max_int.
Hypothesis Hexp : exposes src (Some buf).
Hypothesis Hbuf : len buf <= cap buf /\ cap buf <= Int.max_int.
Hypothesis Hfull : image_bytes d 3 <= len buf.
Hypothesis Hlive : ptr buf + len buf <= w_brk w.

Let iinv := @in_inv St d buf.

Lemma in_place_facts :
  0 < Width d /\ 0 < Height d /\ W3 <= S /\
  SizeRow d = W3 /\ Height d <= Int.max_int /\
  Height d * W3 <= image_bytes d 3.
Proof.
  assert (Hbits : BitsPerPixel (DShape d) = 8 * 3) by (rewrite Hshape; reflexivity).
  pose proof (proj1 (Validate_None_iff d Hfit) Hvalid) as (Hw & Hh & _ & Hs).
  rewrite Hbits in Hs. destruct Hok as (_ & Hhr & _).
  unfold W3, S, image_bytes.
  repeat split; try lia.
  - apply SizeRow_whole_bytes; [exact Hbits|lia|exact Hfit].
  - int_consts. lia.
  - nia.
Qed.

(** One row, written over the buffer it is read from. *)
Lemma row_in_place (rowBuf : slice) m0 y w2 :
  0 <= y < Height d -> iinv m0 y w2 ->
  exists w3,
    rowBody (mkLoopEnv invertFn src d (Some buf) (Some buf) rowBuf W3 W3 3 0 0
               (Width d)) y w2 = Ret None w3 /\
    iinv m0 (y + 1) w3.
Proof.
  intros Hy (_ & Hrows & Hframe). fold W3 S in Hrows, Hframe.
  destruct in_place_facts as (Hw & Hh & HWS & _ & Hhm & Hpack).
  assert (0 <= y * S) by nia.
  assert (y * S <= (Height d - 1) * S) by nia.
  assert (0 <= y * W3) by (unfold W3 in *; nia).
  assert (y * W3 + W3 <= Height d * W3) by nia.
  assert (y * W3 <= y * S) by nia.
  unfold image_bytes in *. fold S W3 in Hfull, Hpack.
  rewrite (rowBody_buffered _ y w2 buf buf);
    cbn [le_dst le_srcBuf le_startY le_srcDims le_srcRowBytes le_outStride
         le_startX le_endX le_inBytesPerPixel le_fn]; fold S;
    try reflexivity; try lia.
  unfold fnCall, bind, call_Fn, invertFn. cbn [blen srcPart bufRow dstRow len ptr].
  unfold dstRow, srcPart, bufRow. cbn [len ptr cap].
  destruct (invertLoop_spec (Z.to_nat (Width d * 3 - 0 * 3)) 0
              (mkSlice (ptr buf + (y - 0) * W3) W3 (cap buf - (y - 0) * W3))
              (mkSlice (ptr buf + y * S + 0 * 3) (Width d * 3 - 0 * 3)
                       (cap buf - y * S - 0 * 3)) (w_mem w2))
    as (m' & Hrun & Hval & Hfr); cbn [len ptr]; try (unfold W3; lia).
  rewrite Hrun. unfold ret. eexists. split; [reflexivity|].
  cbn [len ptr] in *. unfold iinv, in_inv. fold W3 S.
  split; [lia|]. cbn [w_mem]. split.
  - intros r i Hr Hi. destruct (Z.eq_dec r y) as [-> | Hne].
    + replace (ptr buf + y * W3 + i) with (ptr buf + (y - 0) * W3 + i) by lia.
      rewrite Hval by (unfold W3 in *; lia).
      f_equal. rewrite Hframe by lia. f_equal. lia.
    + rewrite Hfr by nia. apply Hrows; lia.
  - intros a Ha. rewrite Hfr by lia. apply Hframe. lia.
Qed.

(** An in-place inversion succeeds, returns the packed geometry and leaves
    the inverted rows packed at the start of the buffer. *)
Lemma Process_in_place_invert :
  exists w',
    Process NewInvertedPerPixel None src None w = Ret (packed_dims d, None) w' /\
    (forall r i, 0 <= r < Height d -> 0 <= i < W3 ->
       w_mem w' (ptr buf + r * W3 + i) =
       inv_byte (w_mem w (ptr buf + r * S + i))) /\
    (forall a, a < w_brk w -> ~ (ptr buf <= a < ptr buf + Height d * W3) ->
               w_mem w' a = w_mem w a) /\
    w_brk w' = w_brk w + W3.
Proof.
  destruct in_place_facts as (Hw & Hh & HWS & Hrow & Hhm & Hpack).
  assert (Hbits : BitsPerPixel (DShape d) = 8 * 3) by (rewrite Hshape; reflexivity).
  assert (Hsz : image_bytes d 3 <= Int.max_int) by lia.
  assert (Hdd : dstDimsOf NewInvertedPerPixel d None = packed_dims d).
  { unfold dstDimsOf, packed_dims, ShapeIO. cbn.
    assert (0 <= Width d * 3 <= Int.max_int) by (unfold W3, image_bytes in *; nia).
    unwrap. reflexivity. }
  unfold Process. cbn [NewInvertedPerPixel pf_Fn pf_In]. unfold bind at 1.
  destruct (call_Dims_stable src d w Hstable) as (st1 & ->).
  rewrite Hshape, Z.eqb_refl. cbn [negb]. unfold bind at 1.
  rewrite Hdd.
  destruct (ValidateProcessArgs_accepts_in_place buf (packed_dims d) src d
              (mkWorld (w_mem w) (w_brk w) st1 (w_calls w)) Hstable Hvalid Hexp)
    as (st2 & ->).
  { rewrite Hshape. reflexivity. }
  { rewrite (Size_whole_bytes d 3 Hbits Hvalid Hfit Hsz). exact Hfull. }
  { cbn [packed_dims Stride Height]. fold W3.
    assert (0 <= Height d * W3) by (unfold W3; nia).
    unfold Int.mul. rewrite (Z.mul_comm W3). unwrap. lia. }
  cbn [w_mem w_brk w_calls].
  rewrite processRows_region.
  unfold startX, startY, endX, endY. cbn [region fst snd].
  rewrite Hrow. cbn [NewInvertedPerPixel pf_In packed_dims Stride].
  change (Int.div (Int.add (BitsPerPixel ShapeRGB888) 7) 8) with 3.
  destruct Hexp as (bf & Hbf & Hans). rewrite Hbf.
  unfold bind at 1. unfold call_Buffer. cbn [w_img w_mem w_brk w_calls].
  specialize (Hans st2). destruct (bf st2) as [b st3]. cbn [fst] in Hans. subst b.
  unfold bind at 1. unfold make.
  destruct (Z.ltb_spec W3 0); [lia|]. cbn [w_mem w_brk w_img w_calls].
  set (m0 := fun x => if (w_brk w <=? x) && (x <? w_brk w + W3)
                      then x00 else w_mem w x).
  assert (Hm0 : forall a, a < w_brk w -> m0 a = w_mem w a).
  { intros a Ha. unfold m0. destruct (Z.leb_spec (w_brk w) a); [lia|reflexivity]. }
  fold W3.
  edestruct (rowLoop_invariant
               (mkLoopEnv invertFn src d (Some buf) (Some buf)
                  (mkSlice (w_brk w) W3 W3) W3 W3 3 0 0 (Width d))
               (Height d) (iinv m0) Hhm)
    as (w' & Hrun & Hinv).
  { intros y w2 Hy Hinv. apply row_in_place; assumption. }
  { instantiate (1 := 0). lia. }
  { instantiate (1 := Z.to_nat (Height d - 0)). lia. }
  { instantiate (1 := mkWorld m0 (w_brk w + W3) st3 (w_calls w)).
    split; [lia|]. split; [intros; lia|]. intros a _. reflexivity. }
  unfold bind. rewrite Hrun. unfold ret.
  exists w'. split; [reflexivity|].
  destruct Hinv as (_ & Hrows & Hframe). fold W3 S in Hrows, Hframe.
  unfold image_bytes in *. fold S W3 in Hfull, Hpack.
  split; [|split].
  - intros r i Hr Hi. rewrite Hrows by lia. f_equal. apply Hm0.
    assert (r * S <= (Height d - 1) * S) by nia. lia.
  - intros a Ha Hna. rewrite Hframe by lia. apply Hm0. exact Ha.
  - apply rowLoop_brk in Hrun. exact Hrun.
Qed.

End InPlaceInvert.

(** * ROI consistency and the round trip of the inversion filter *)

Lemma invert_byte_filter : byte_filter NewInvertedPerPixel 3 3 (map inv_byte).
Proof.
  exists invertFn. repeat split; try reflexivity. exact invertFn_per_pixel.
Qed.

(** C4, as the code has it: for a pure per-pixel transform between shapes
    made of whole bytes, a source of valid geometry within the range of
    [int] that shows its bytes through its buffer or through [ReadAt], a
    valid non-empty ROI and destinations that are large enough and apart
    from the source buffer, [Process] succeeds over the ROI and over the
    whole image, and every byte of the ROI output is the byte of the same
    pixel in the output for the whole image. *)
Theorem Process_roi_consistent {St} (f : PointFilter) ib ob g (src : Image St)
    d content (dstR dstF : slice) (r : Rectangle) (w : world St) :
  byte_filter f ib ob g ->
  sound_image src d ib ->
  DShape d = pf_In f ->
  roi_ok d (Some r) ->
  room w dstR ((Y (Max r) - Y (Min r)) * ((X (Max r) - X (Min r)) * ob)) ->
  room w dstF (Height d * (Width d * ob)) ->
  readable src d ib content w dstR ->
  readable src d ib content w dstF ->
  exists wR wF,
    Process f (Some dstR) src (Some r) w = Ret (dstDimsOf f d (Some r), None) wR /\
    Process f (Some dstF) src None w = Ret (dstDimsOf f d None, None) wF /\
    forall y x c,
      0 <= y < Y (Max r) - Y (Min r) ->
      0 <= x < X (Max r) - X (Min r) ->
      0 <= c < ob ->
      w_mem wR (ptr dstR + y * ((X (Max r) - X (Min r)) * ob) + x * ob + c) =
      w_mem wF (ptr dstF + (Y (Min r) + y) * (Width d * ob) +
                (X (Min r) + x) * ob + c).
Proof.
  intros (fn & Hfn & Hpp & Hin & Hout) (Hst & Hv & Hok & Hbits & Hfit & Hsz)
    Hshape Hroi (HdR & HlR) (HdF & HlF) HrR HrF.
  destruct (Process_out_of_place f fn g ib ob src d content dstR (Some r) w)
    as (wR & HrunR & HoutR & _); try assumption.
  destruct (Process_out_of_place f fn g ib ob src d content dstF None w)
    as (wF & HrunF & HoutF & _); try assumption; try exact I.
  { unfold startX, startY, endX, endY. cbn [region fst snd].
    rewrite !Z.sub_0_r. exact HlF. }
  exists wR, wF. split; [exact HrunR|]. split; [exact HrunF|].
  intros y x c Hy Hx Hc.
  unfold startX, startY, endX, endY in HoutR, HoutF.
  cbn [region fst snd] in HoutR, HoutF.
  simpl in Hroi. destruct Hroi as (Hx1 & Hx2 & Hy1 & Hy2).
  rewrite HoutR by assumption.
  specialize (HoutF (Y (Min r) + y) (X (Min r) + x) c ltac:(lia) ltac:(lia) Hc).
  rewrite !Z.sub_0_r in HoutF. rewrite HoutF.
  rewrite !Z.add_0_l. reflexivity.
Qed.

Lemma Process_roi_consistent_witness :
  exists wR wF,
    Process NewInvertedPerPixel (Some dstRight) (memImage dims2x2 buf2x2)
      (Some rect_right) world2x2 =
      Ret (dstDimsOf NewInvertedPerPixel dims2x2 (Some rect_right), None) wR /\
    Process NewInvertedPerPixel (Some dst2x2) (memImage dims2x2 buf2x2) None
      world2x2 = Ret (dstDimsOf NewInvertedPerPixel dims2x2 None, None) wF /\
    forall y x c,
      0 <= y < 2 - 0 -> 0 <= x < 2 - 1 -> 0 <= c < 3 ->
      w_mem wR (ptr dstRight + y * ((2 - 1) * 3) + x * 3 + c) =
      w_mem wF (ptr dst2x2 + (0 + y) * (2 * 3) + (1 + x) * 3 + c).
Proof.
  assert (Hread : forall dst : slice,
             ptr dst = 12 -> 
             readable (memImage dims2x2 buf2x2) dims2x2 3
               (fun o => w_mem world2x2 o) world2x2 dst).
  { intros dst Hp. left. exists buf2x2. split.
    - exists (fun st => (Some buf2x2, st)). split; [reflexivity|].
      intros st. reflexivity.
    - split; [split; vm_compute; discriminate|].
      split; [vm_compute; discriminate|].
      split; [left; rewrite Hp; vm_compute; discriminate|].
      split; [vm_compute; discriminate|].
      intros o _. reflexivity. }
  apply (Process_roi_consistent NewInvertedPerPixel 3 3 (map inv_byte)
           (memImage dims2x2 buf2x2) dims2x2 (fun o => w_mem world2x2 o)
           dstRight dst2x2 rect_right world2x2).
  - exact invert_byte_filter.
  - split; [intros st; reflexivity|]. split; [reflexivity|].
    split; [vm_compute; repeat split; discriminate|].
    split; [reflexivity|]. split; vm_compute; discriminate.
  - reflexivity.
  - vm_compute. repeat split; discriminate.
  - vm_compute. repeat split; discriminate.
  - vm_compute. repeat split; discriminate.
  - apply Hread. reflexivity.
  - apply Hread. reflexivity.
Defined.

(** C4 as stated fails for shapes that are not made of whole bytes: on a
    row of 8 one-bit pixels (1 byte) the call over the first pixel
    succeeds, and the call over the whole image slices the 1-byte row at
    [0:8] and panics, so that there is no output to compare with. *)
Lemma Process_roi_inconsistent_mono :
  Validate dimsMono = None /\
  roi_ok dimsMono (Some rect_first) /\
  (exists w', Process filterMono (Some dstMono) (memImage dimsMono bufMono)
                (Some rect_first) worldMono =
              Ret (mkDims 1 1 1 ShapeMonochrome, None) w') /\
  Process filterMono (Some dstMono) (memImage dimsMono bufMono) None worldMono =
  Panic.
Proof.
  split; [reflexivity|]. split; [vm_compute; repeat split; discriminate|].
  split; [eexists; vm_compute; reflexivity|].
  vm_compute. reflexivity.
Qed.

(** ** The inversion filter applied twice *)

Lemma pixel_out_invert content S r j c :
  0 <= c < 3 ->
  pixel_out (map inv_byte) content S 3 r j c = inv_byte (content (r * S + j * 3 + c)).
Proof.
  intros Hc. unfold pixel_out. change (Z.to_nat 3) with 3%nat.
  rewrite (nth_map_in inv_byte _ _ x00) by (rewrite read_list_length; lia).
  rewrite read_list_nth by lia. f_equal. f_equal. lia.
Qed.

(** The packed geometry of a valid RGB888 image is valid. *)
Lemma packed_dims_sound d :
  DShape d = ShapeRGB888 -> Validate d = None -> Dims_ok d ->
  Width d * BitsPerPixel (DShape d) + 7 <= Int.max_int ->
  Validate (packed_dims d) = None /\ Dims_ok (packed_dims d) /\
  Width (packed_dims d) * BitsPerPixel (DShape (packed_dims d)) + 7 <= Int.max_int /\
  image_bytes (packed_dims d) 3 = Height d * (Width d * 3).
Proof.
  intros Hsh Hv (Hw & Hh & Hs & Hshr) Hfit.
  pose proof (proj1 (Validate_None_iff d Hfit) Hv) as (Hw0 & Hh0 & _ & _).
  rewrite Hsh in Hfit. change (BitsPerPixel ShapeRGB888) with 24 in Hfit.
  split; [|split; [|split]].
  - apply (Validate_None_iff (packed_dims d)); cbn [packed_dims Width Height Stride DShape];
      change (BitsPerPixel ShapeRGB888) with 24; lia.
  - unfold Dims_ok. cbn [packed_dims Width Height Stride DShape].
    repeat split; try apply Hw; try apply Hh; int_consts;
      unfold ShapeRGB888; lia.
  - cbn [packed_dims Width Height Stride DShape].
    change (BitsPerPixel ShapeRGB888) with 24. lia.
  - unfold image_bytes. cbn [packed_dims Width Height Stride]. lia.
Qed.

(** Every byte offset of a row is a byte of a pixel. *)
Lemma byte_of_pixel i : 0 <= i -> i = (i / 3) * 3 + i mod 3 /\ 0 <= i mod 3 < 3.
Proof.
  intros Hi. pose proof (Z.div_mod i 3 ltac:(lia)).
  pose proof (Z.mod_pos_bound i 3 ltac:(lia)). lia.
Qed.

Section InvertTwice.

Context {St : Type}.
Variables (d : Dims) (w : world St).

Hypothesis Hshape : DShape d = ShapeRGB888.
Hypothesis Hvalid : Validate d = None.
Hypothesis Hok : Dims_ok d.
Hypothesis Hfit : Width d * BitsPerPixel (DShape d) + 7 <= Int.max_int.

(** Out of place: the second output holds the rows of the original. *)
Lemma invert_twice_out_of_place (src src2 : Image St) content (dst1 dst2 : slice) :
  stable_Dims src d ->
  image_bytes d 3 <= Int.max_int ->
  readable src d 3 content w dst1 ->
  room w dst1 (Height d * (Width d * 3)) ->
  room w dst2 (Height d * (Width d * 3)) ->
  ptr dst1 + len dst1 <= ptr dst2 \/ ptr dst2 + len dst2 <= ptr dst1 ->
  stable_Dims src2 (packed_dims d) ->
  exposes src2 (Some dst1) ->
  exists w1 w2,
    Process NewInvertedPerPixel (Some dst1) src None w =
      Ret (packed_dims d, None) w1 /\
    Process NewInvertedPerPixel (Some dst2) src2 None w1 =
      Ret (packed_dims d, None) w2 /\
    forall r i, 0 <= r < Height d -> 0 <= i < Width d * 3 ->
      w_mem w2 (ptr dst2 + r * (Width d * 3) + i) = content (r * Stride d + i).
Proof.
  intros Hst Hsz Hread (Hd1 & Hl1) (Hd2 & Hl2) Hdis Hst2 Hexp2.
  destruct invert_byte_filter as (fn & Hfn & Hpp & Hin & Hout).
  destruct (packed_dims_sound d Hshape Hvalid Hok Hfit)
    as (Hpv & Hpok & Hpfit & Hpsz).
  pose proof (proj1 (Validate_None_iff d Hfit) Hvalid) as (Hw0 & Hh0 & _ & _).
  assert (Hdd : forall d0, Validate d0 = None -> Dims_ok d0 ->
                  DShape d0 = ShapeRGB888 ->
                  Width d0 * BitsPerPixel (DShape d0) + 7 <= Int.max_int ->
                  dstDimsOf NewInvertedPerPixel d0 None = packed_dims d0).
  { intros d0 Hv0 Hok0 Hsh0 Hfit0.
    rewrite (dstDimsOf_whole_bytes NewInvertedPerPixel d0 None 3 Hout Hv0 I Hok0).
    - unfold startX, startY, endX, endY. cbn [region fst snd].
      rewrite !Z.sub_0_r. reflexivity.
    - rewrite Hsh0 in Hfit0. change (BitsPerPixel ShapeRGB888) with 24 in Hfit0.
      pose proof (proj1 (Validate_None_iff d0 ltac:(rewrite Hsh0; exact Hfit0)) Hv0).
      lia. }
  destruct (Process_out_of_place NewInvertedPerPixel fn (map inv_byte) 3 3 src d
              content dst1 None w)
    as (w1 & Hrun1 & Hout1 & Hframe1 & Hbrk1); try assumption; try exact I.
  { unfold startX, startY, endX, endY. cbn [region fst snd].
    rewrite !Z.sub_0_r. exact Hl1. }
  unfold startX, startY, endX, endY in Hout1. cbn [region fst snd] in Hout1.
  rewrite !Z.sub_0_r in Hout1.
  destruct (Process_out_of_place NewInvertedPerPixel fn (map inv_byte) 3 3 src2
              (packed_dims d) (fun o => w_mem w1 (ptr dst1 + o)) dst2 None w1)
    as (w2 & Hrun2 & Hout2 & _); try assumption; try exact I; try reflexivity.
  { rewrite Hpsz. lia. }
  { rewrite Hbrk1. lia. }
  { unfold startX, startY, endX, endY. cbn [region fst snd packed_dims Width Height].
    rewrite !Z.sub_0_r. exact Hl2. }
  { left. exists dst1. split; [exact Hexp2|].
    split; [lia|]. split; [rewrite Hpsz; lia|].
    split; [exact Hdis|]. split; [rewrite Hbrk1; lia|].
    intros o _. reflexivity. }
  unfold startX, startY, endX, endY in Hout2.
  cbn [region fst snd packed_dims Width Height Stride] in Hout2.
  rewrite !Z.sub_0_r in Hout2.
  exists w1, w2.
  rewrite (Hdd d Hvalid Hok Hshape Hfit) in Hrun1.
  rewrite (Hdd (packed_dims d) Hpv Hpok eq_refl Hpfit) in Hrun2.
  split; [exact Hrun1|]. split; [exact Hrun2|].
  intros r i Hr Hi.
  destruct (byte_of_pixel i ltac:(lia)) as (Ei & Hc).
  assert (Hj : 0 <= i / 3 < Width d).
  { split; [apply Z.div_pos; lia|apply Z.div_lt_upper_bound; lia]. }
  rewrite Ei at 1. rewrite Z.add_assoc.
  rewrite Hout2 by assumption.
  rewrite pixel_out_invert by exact Hc.
  rewrite !Z.add_0_l.
  replace (ptr dst1 + (r * (Width d * 3) + i / 3 * 3 + i mod 3))
    with (ptr dst1 + r * (Width d * 3) + i / 3 * 3 + i mod 3) by lia.
  rewrite Hout1 by assumption.
  rewrite pixel_out_invert by exact Hc.
  rewrite inv_byte_involutive. rewrite !Z.add_0_l. f_equal. lia.
Qed.

(** In place: the second call, on the buffer seen with the returned
    geometry, leaves the rows of the original packed at the start of the
    buffer; when the rows were packed already, the memory is as it was. *)
Lemma invert_twice_in_place (src src2 : Image St) (buf : slice) :
  stable_Dims src d ->
  exposes src (Some buf) ->
  len buf <= cap buf /\ cap buf <= Int.max_int ->
  image_bytes d 3 <= len buf ->
  ptr buf + len buf <= w_brk w ->
  stable_Dims src2 (packed_dims d) ->
  exposes src2 (Some buf) ->
  exists w1 w2,
    Process NewInvertedPerPixel None src None w = Ret (packed_dims d, None) w1 /\
    Process NewInvertedPerPixel None src2 None w1 = Ret (packed_dims d, None) w2 /\
    (forall r i, 0 <= r < Height d -> 0 <= i < Width d * 3 ->
       w_mem w2 (ptr buf + r * (Width d * 3) + i) =
       w_mem w (ptr buf + r * Stride d + i)) /\
    (Stride d = Width d * 3 ->
     forall a, a < w_brk w -> w_mem w2 a = w_mem w a).
Proof.
  intros Hst Hexp Hbuf Hfull Hlive Hst2 Hexp2.
  destruct (packed_dims_sound d Hshape Hvalid Hok Hfit)
    as (Hpv & Hpok & Hpfit & Hpsz).
  pose proof (proj1 (Validate_None_iff d Hfit) Hvalid) as (Hw0 & Hh0 & _ & HS).
  rewrite Hshape in HS. change (BitsPerPixel ShapeRGB888) with 24 in HS.
  assert (Hpack : Height d * (Width d * 3) <= image_bytes d 3).
  { unfold image_bytes. nia. }
  destruct (Process_in_place_invert src d buf w)
    as (w1 & Hrun1 & Hout1 & Hframe1 & Hbrk1); try assumption.
  destruct (Process_in_place_invert src2 (packed_dims d) buf w1)
    as (w2 & Hrun2 & Hout2 & Hframe2 & _); try assumption; try reflexivity.
  { rewrite Hpsz. lia. }
  { rewrite Hbrk1. lia. }
  cbn [packed_dims Width Height Stride] in Hout2, Hframe2, Hrun2.
  exists w1, w2. split; [exact Hrun1|]. split; [exact Hrun2|].
  assert (Hrows : forall r i, 0 <= r < Height d -> 0 <= i < Width d * 3 ->
            w_mem w2 (ptr buf + r * (Width d * 3) + i) =
            w_mem w (ptr buf + r * Stride d + i)).
  { intros r i Hr Hi. rewrite Hout2, Hout1 by assumption.
    apply inv_byte_involutive. }
  split; [exact Hrows|].
  intros HS3 a Ha.
  destruct (Z_lt_ge_dec a (ptr buf)) as [Hlo|Hlo];
    [rewrite Hframe2, Hframe1 by lia; reflexivity|].
  destruct (Z_lt_ge_dec a (ptr buf + Height d * (Width d * 3))) as [Hhi|Hhi];
    [|rewrite Hframe2, Hframe1 by lia; reflexivity].
  pose proof (Z.div_mod (a - ptr buf) (Width d * 3) ltac:(lia)) as Edm.
  pose proof (Z.mod_pos_bound (a - ptr buf) (Width d * 3) ltac:(lia)) as Hm.
  assert (Hq : 0 <= (a - ptr buf) / (Width d * 3) < Height d).
  { split; [apply Z.div_pos; lia|apply Z.div_lt_upper_bound; lia]. }
  replace a with (ptr buf + (a - ptr buf) / (Width d * 3) * (Width d * 3) +
                  (a - ptr buf) mod (Width d * 3)) at 1 by lia.
  rewrite Hrows by assumption. f_equal. rewrite HS3. lia.
Qed.

End InvertTwice.

(** C5, as the code has it: for every RGB888 image of valid geometry,
    inverting twice, the second time on the output of the first with the
    geometry returned for it, gives back byte [i] of every row [y] of
    the original, at offset [y * 3 * Width + i]; this holds out of place
    and in place (dst nil on a source that exposes its buffer).  When the
    rows of the image are packed ([Stride = 3 * Width]) the second in-place
    call leaves the whole memory as it was before the first. *)
Theorem invert_twice_restores {St} (d : Dims) (w : world St) :
  DShape d = ShapeRGB888 ->
  Validate d = None ->
  Dims_ok d ->
  Width d * BitsPerPixel (DShape d) + 7 <= Int.max_int ->
  (forall (src src2 : Image St) content (dst1 dst2 : slice),
      stable_Dims src d ->
      image_bytes d 3 <= Int.max_int ->
      readable src d 3 content w dst1 ->
      room w dst1 (Height d * (Width d * 3)) ->
      room w dst2 (Height d * (Width d * 3)) ->
      ptr dst1 + len dst1 <= ptr dst2 \/ ptr dst2 + len dst2 <= ptr dst1 ->
      stable_Dims src2 (packed_dims d) ->
      exposes src2 (Some dst1) ->
      exists w1 w2,
        Process NewInvertedPerPixel (Some dst1) src None w =
          Ret (packed_dims d, None) w1 /\
        Process NewInvertedPerPixel (Some dst2) src2 None w1 =
          Ret (packed_dims d, None) w2 /\
        forall r i, 0 <= r < Height d -> 0 <= i < Width d * 3 ->
          w_mem w2 (ptr dst2 + r * (Width d * 3) + i) =
          content (r * Stride d + i)) /\
  (forall (src src2 : Image St) (buf : slice),
      stable_Dims src d ->
      exposes src (Some buf) ->
      len buf <= cap buf /\ cap buf <= Int.max_int ->
      image_bytes d 3 <= len buf ->
      ptr buf + len buf <= w_brk w ->
      stable_Dims src2 (packed_dims d) ->
      exposes src2 (Some buf) ->
      exists w1 w2,
        Process NewInvertedPerPixel None src None w =
          Ret (packed_dims d, None) w1 /\
        Process NewInvertedPerPixel None src2 None w1 =
          Ret (packed_dims d, None) w2 /\
        (forall r i, 0 <= r < Height d -> 0 <= i < Width d * 3 ->
           w_mem w2 (ptr buf + r * (Width d * 3) + i) =
           w_mem w (ptr buf + r * Stride d + i)) /\
        (Stride d = Width d * 3 ->
         forall a, a < w_brk w -> w_mem w2 a = w_mem w a)).
Proof.
  intros Hshape Hvalid Hok Hfit. split.
  - intros. eapply invert_twice_out_of_place; eassumption.
  - intros. eapply invert_twice_in_place; eassumption.
Qed.

Lemma invert_twice_restores_witness :
  exists w1 w2,
    Process NewInvertedPerPixel None (memImage dims2x2 buf2x2) None world2x2 =
      Ret (packed_dims dims2x2, None) w1 /\
    Process NewInvertedPerPixel None (memImage dims2x2 buf2x2) None w1 =
      Ret (packed_dims dims2x2, None) w2 /\
    (forall r i, 0 <= r < 2 -> 0 <= i < 2 * 3 ->
       w_mem w2 (ptr buf2x2 + r * (2 * 3) + i) =
       w_mem world2x2 (ptr buf2x2 + r * 6 + i)) /\
    (6 = 2 * 3 ->
     forall a, a < w_brk world2x2 -> w_mem w2 a = w_mem world2x2 a).
Proof.
  assert (Hexp : exposes (memImage dims2x2 buf2x2) (Some buf2x2)).
  { exists (fun st => (Some buf2x2, st)). split; [reflexivity|].
    intros st. reflexivity. }
  apply (proj2 (invert_twice_restores dims2x2 world2x2 eq_refl eq_refl
                  ltac:(vm_compute; repeat split; discriminate)
                  ltac:(vm_compute; discriminate))
           (memImage dims2x2 buf2x2) (memImage dims2x2 buf2x2) buf2x2).
  - intros st. reflexivity.
  - exact Hexp.
  - vm_compute. split; discriminate.
  - vm_compute. discriminate.
  - vm_compute. discriminate.
  - intros st. reflexivity.
  - exact Hexp.
Defined.

(** C5 as stated fails for an image with padded rows: two rows of one
    pixel at stride 4.  The first in-place call packs the inverted rows at
    stride 3; a second in-place call, on the buffer seen with the returned
    geometry or on the source as it is, does not bring back the original
    contents of the buffer. *)
Lemma invert_twice_padded_in_place :
  Validate dimsPadded = None /\
  match Process NewInvertedPerPixel None (memImage dimsPadded bufPadded) None
          worldPadded with
  | Ret (d1, None) w1 =>
      d1 = dimsPacked /\
      match Process NewInvertedPerPixel None (memImage dimsPacked bufPadded) None
              w1 with
      | Ret (_, None) w2 =>
          read_list (w_mem w2) 0 7 = map byte_of_Z [1; 2; 3; 4; 5; 6; 6] /\
          read_list (w_mem w2) 0 7 <> read_list (w_mem worldPadded) 0 7
      | _ => False
      end /\
      match Process NewInvertedPerPixel None (memImage dimsPadded bufPadded) None
              w1 with
      | Ret (_, None) w2 =>
          read_list (w_mem w2) 0 7 = map byte_of_Z [1; 2; 3; 5; 6; 249; 6] /\
          read_list (w_mem w2) 0 7 <> read_list (w_mem worldPadded) 0 7
      | _ => False
      end
  | _ => False
  end.
Proof.
  split; [reflexivity|]. vm_compute.
  repeat split; try discriminate.
Qed.

(** * Further properties of the package *)

(** ** Row and image sizes *)

Lemma fits_facts d :
  fits d ->
  0 < Width d /\ 0 < Height d /\ 1 <= BitsPerPixel (DShape d) /\
  SizeRow d = (Width d * BitsPerPixel (DShape d) + 7) / 8 /\
  1 <= SizeRow d <= Stride d.
Proof.
  intros (Hv & Hok & Hfit & Hsz).
  pose proof (proj1 (Validate_None_iff d Hfit) Hv) as (Hw & Hh & Hb & Hs).
  assert (Hrow : SizeRow d = (Width d * BitsPerPixel (DShape d) + 7) / 8)
    by (apply SizeRow_exact; nia).
  repeat split; try lia; try exact Hrow.
  - rewrite Hrow.
    pose proof (Z.div_mod (Width d * BitsPerPixel (DShape d) + 7) 8 ltac:(lia)).
    pose proof (Z.mod_pos_bound (Width d * BitsPerPixel (DShape d) + 7) 8 ltac:(lia)).
    nia.
  - rewrite Hrow.
    apply (proj2 (ceil_le_iff (Width d * BitsPerPixel (DShape d)) (Stride d))).
    lia.
Qed.

(** X1: for a geometry that validates (within the range of [int]), a row
    takes the least whole number of bytes that holds [Width] pixels, at
    least one byte and at most a stride. *)
Theorem SizeRow_is_ceiling d :
  fits d ->
  8 * (SizeRow d - 1) < Width d * BitsPerPixel (DShape d) <= 8 * SizeRow d /\
  1 <= SizeRow d <= Stride d.
Proof.
  intros Hf. destruct (fits_facts d Hf) as (Hw & Hh & Hb & Hrow & Hr).
  split; [|exact Hr]. rewrite Hrow.
  pose proof (Z.div_mod (Width d * BitsPerPixel (DShape d) + 7) 8 ltac:(lia)).
  pose proof (Z.mod_pos_bound (Width d * BitsPerPixel (DShape d) + 7) 8 ltac:(lia)).
  lia.
Qed.

Lemma fits_dims2x2 : fits dims2x2.
Proof.
  split; [reflexivity|]. split; [vm_compute; repeat split; discriminate|].
  split; vm_compute; discriminate.
Qed.

Lemma SizeRow_is_ceiling_witness :
  8 * (SizeRow dims2x2 - 1) < 2 * 24 <= 8 * SizeRow dims2x2 /\
  1 <= SizeRow dims2x2 <= 6.
Proof.
  apply (SizeRow_is_ceiling dims2x2).
  split; [reflexivity|]. split; [vm_compute; repeat split; discriminate|].
  split; vm_compute; discriminate.
Defined.

Lemma Size_exact d :
  fits d -> Size d = (Height d - 1) * Stride d + SizeRow d.
Proof.
  intros Hf. destruct (fits_facts d Hf) as (Hw & Hh & Hb & Hrow & Hr).
  destruct Hf as (Hv & (_ & Hhr & _) & Hfit & Hsz).
  unfold Size.
  destruct (Z.eqb_spec (Height d) 0); [lia|].
  destruct (Z.eqb_spec (Width d) 0); [lia|]. cbn [orb].
  assert (0 <= (Height d - 1) * Stride d) by nia.
  assert (Height d - 1 <= (Height d - 1) * Stride d + SizeRow d) by nia.
  unwrap. reflexivity.
Qed.

(** X2: for such a geometry the readable size is all full strides but
    the last, plus one row; it is at least a row, at most
    [Height * Stride], and large enough for the bits of all
    [Height * Width] pixels, which is the number [NumPixels] gives when it
    is within the range of [int64]. *)
Theorem Size_bounds d :
  fits d ->
  Size d = (Height d - 1) * Stride d + SizeRow d /\
  SizeRow d <= Size d <= Height d * Stride d /\
  Height d * Width d * BitsPerPixel (DShape d) <= 8 * Size d /\
  (Height d * Width d <= Int.max_int -> NumPixels d = Height d * Width d).
Proof.
  intros Hf. destruct (fits_facts d Hf) as (Hw & Hh & Hb & Hrow & Hr).
  pose proof (Size_exact d Hf) as Hs.
  assert (Hc : Width d * BitsPerPixel (DShape d) <= 8 * SizeRow d).
  { rewrite Hrow.
    pose proof (Z.div_mod (Width d * BitsPerPixel (DShape d) + 7) 8 ltac:(lia)).
    pose proof (Z.mod_pos_bound (Width d * BitsPerPixel (DShape d) + 7) 8 ltac:(lia)).
    lia. }
  split; [exact Hs|]. rewrite Hs.
  split; [nia|]. split; [nia|].
  intros Hn. unfold NumPixels. assert (0 <= Height d * Width d) by nia.
  unwrap. reflexivity.
Qed.

Lemma Size_bounds_witness :
  Size dims2x2 = (2 - 1) * 6 + SizeRow dims2x2 /\
  SizeRow dims2x2 <= Size dims2x2 <= 2 * 6 /\
  2 * 2 * 24 <= 8 * Size dims2x2 /\
  (2 * 2 <= Int.max_int -> NumPixels dims2x2 = 2 * 2).
Proof.
  apply (Size_bounds dims2x2).
  split; [reflexivity|]. split; [vm_compute; repeat split; discriminate|].
  split; vm_compute; discriminate.
Defined.

(** ** ValidateProcessArgs: when it accepts *)

Ltac pick_disjunct :=
  first [ solve [lia] | solve [left; pick_disjunct] | solve [right; pick_disjunct] ].

(** The ROI checks fail exactly on a bad ROI. *)
Lemma requiredMinDstSize_cases dd d roi :
  (exists e r, requiredMinDstSize dd d roi = inl e /\ roi = Some r /\ bad_roi d r) \/
  (requiredMinDstSize dd d roi =
     inr (Int.mul (Stride dd) (match roi with
                               | Some r => Dy r
                               | None => Height dd
                               end)) /\
   forall r, roi = Some r -> ~ bad_roi d r).
Proof.
  unfold requiredMinDstSize, bad_roi. destruct roi as [r|].
  2:{ right. split; [reflexivity|]. intros r Hr. discriminate. }
  assert (Hbad : forall (e : error) (x : error + Z),
             x = inl e ->
             (Empty r = true \/ X (Min r) < 0 \/ Y (Min r) < 0 \/
              X (Max r) < 0 \/ Y (Max r) < 0 \/
              X (Max r) > Width d \/ Y (Max r) > Height d) ->
             (exists e r0, x = inl e /\ Some r = Some r0 /\
               (Empty r0 = true \/ X (Min r0) < 0 \/ Y (Min r0) < 0 \/
                X (Max r0) < 0 \/ Y (Max r0) < 0 \/
                X (Max r0) > Width d \/ Y (Max r0) > Height d)) \/
             (x = inr (Int.mul (Stride dd) (Dy r)) /\
              forall r0, Some r = Some r0 ->
                ~ (Empty r0 = true \/ X (Min r0) < 0 \/ Y (Min r0) < 0 \/
                   X (Max r0) < 0 \/ Y (Max r0) < 0 \/
                   X (Max r0) > Width d \/ Y (Max r0) > Height d))).
  { intros e x Hx Hb. left. exists e, r. auto. }
  destruct (Z.ltb_spec (X (Max r)) 0); [eapply Hbad; [reflexivity|pick_disjunct]|].
  destruct (Z.ltb_spec (X (Min r)) 0); [eapply Hbad; [reflexivity|pick_disjunct]|].
  destruct (Z.ltb_spec (Y (Min r)) 0); [eapply Hbad; [reflexivity|pick_disjunct]|].
  destruct (Z.ltb_spec (Y (Max r)) 0); [eapply Hbad; [reflexivity|pick_disjunct]|].
  destruct (Z.gtb_spec (X (Max r)) (Width d)); [eapply Hbad; [reflexivity|pick_disjunct]|].
  destruct (Z.gtb_spec (Y (Max r)) (Height d)); [eapply Hbad; [reflexivity|pick_disjunct]|].
  cbn [orb]. destruct (Empty r) eqn:E; [eapply Hbad; [reflexivity|auto]|].
  right. split; [reflexivity|].
  intros r0 Hr. inversion Hr; subst r0. clear Hbad.
  intuition (try congruence; try lia).
Qed.

(** X3: once the source geometry has validated, [ValidateProcessArgs]
    returns an error exactly for a bad ROI, a supplied destination that is
    too short, an in-place request that cannot be served (ROI, other
    shape, no buffer, nil or short buffer), or an in-place buffer shorter
    than the output asked for; otherwise it succeeds and the destination
    it returns is the supplied one, or the buffer of the source. *)
Theorem ValidateProcessArgs_error_iff {St} dst dstShape (src : Image St) roi w :
  Validate (Dims_of src w) = None ->
  exists b e w',
    ValidateProcessArgs dst dstShape src roi w = Ret (b, Dims_of src w, e) w' /\
    (e <> None <-> rejected dst dstShape src roi w) /\
    (e = None -> b = resolved_dst dst src w /\ b <> None).
Proof.
  intros Hv. unfold rejected, short_dst, bad_in_place, short_in_place, resolved_dst.
  vpa_unfold.
  destruct (im_Dims src (w_img w)) as [d st]; cbn [fst snd w_img] in *.
  rewrite Hv.
  destruct (requiredMinDstSize_cases dstShape d roi)
    as [(e0 & r & -> & Hr & Hbad)|(-> & Hgood)].
  { do 3 eexists. split; [reflexivity|]. split; [|discriminate].
    split; [intros _; left; eauto|discriminate]. }
  assert (Hnb : ~ (exists r, roi = Some r /\
                     (Empty r = true \/ X (Min r) < 0 \/ Y (Min r) < 0 \/
                      X (Max r) < 0 \/ Y (Max r) < 0 \/
                      X (Max r) > Width d \/ Y (Max r) > Height d))).
  { intros (r & Hr & Hb). exact (Hgood r Hr Hb). }
  destruct dst as [s|].
  - (* a destination is supplied *)
    cbn [blen].
    destruct (Z.ltb_spec (len s)
                (Int.mul (Stride dstShape)
                   match roi with Some r => Dy r | None => Height dstShape end))
      as [Hlt|Hge].
    + do 3 eexists. split; [reflexivity|]. split; [|discriminate].
      split; [intros _; right; left; exists s; split; [reflexivity|]|discriminate].
      destruct roi; exact Hlt.
    + do 3 eexists. split; [reflexivity|]. split.
      * split; [congruence|]. intros [H|[(s0 & Hs & Hl)|[(Hn & _)|(Hn & _)]]];
          try discriminate; [contradiction|].
        inversion Hs; subst s0. destruct roi; lia.
      * intros _. split; [reflexivity|discriminate].
  - (* in place *)
    destruct roi as [r|].
    { do 3 eexists. split; [reflexivity|]. split; [|discriminate].
      split; [intros _|discriminate].
      right. right. left. split; [reflexivity|]. left. discriminate. }
    destruct (Z.eqb_spec (DShape dstShape) (DShape d)) as [Hs|Hs]; cbn [negb].
    2:{ do 3 eexists. split; [reflexivity|]. split; [|discriminate].
        split; [intros _|discriminate].
        right. right. left. split; [reflexivity|]. right. left. exact Hs. }
    destruct (im_Buffer src) as [bf|].
    2:{ do 3 eexists. split; [reflexivity|]. split; [|discriminate].
        split; [intros _|discriminate].
        right. right. left. split; [reflexivity|]. auto. }
    cbn [w_img w_mem w_brk w_calls fst snd].
    destruct (bf st) as [buf st']; cbn [fst snd].
    destruct buf as [b|].
    2:{ do 3 eexists. split; [reflexivity|]. split; [|discriminate].
        split; [intros _|discriminate].
        right. right. left. split; [reflexivity|]. auto. }
    destruct (Z.ltb_spec (len b) (Size d)) as [Hsz|Hsz].
    { do 3 eexists. split; [reflexivity|]. split; [|discriminate].
      split; [intros _|discriminate].
      right. right. left. split; [reflexivity|].
      right. right. right. right. exists b. auto. }
    cbn [blen].
    destruct (Z.ltb_spec (len b) (Int.mul (Stride dstShape) (Height dstShape)))
      as [Hlt|Hge].
    + do 3 eexists. split; [reflexivity|]. split; [|discriminate].
      split; [intros _|discriminate].
      right. right. right. split; [reflexivity|]. exists b. auto.
    + do 3 eexists. split; [reflexivity|]. split.
      * split; [congruence|].
        intros [H|[(s0 & Hs0 & _)|[(_ & Hb)|(_ & b0 & Hb & Hl)]]];
          try discriminate; [contradiction| |].
        -- destruct Hb as [Hb|[Hb|[Hb|[Hb|(b0 & Hb & Hl)]]]];
             try congruence; try discriminate.
           inversion Hb; subst b0. lia.
        -- inversion Hb; subst b0. lia.
      * intros _. split; [reflexivity|discriminate].
Qed.

Lemma ValidateProcessArgs_error_iff_witness :
  exists b e w',
    ValidateProcessArgs (Some dst2x2) dims2x2 (memImage dims2x2 buf2x2)
      (Some rect_empty) world2x2 =
    Ret (b, Dims_of (memImage dims2x2 buf2x2) world2x2, e) w' /\
    (e <> None <->
     rejected (Some dst2x2) dims2x2 (memImage dims2x2 buf2x2) (Some rect_empty)
       world2x2) /\
    (e = None ->
     b = resolved_dst (Some dst2x2) (memImage dims2x2 buf2x2) world2x2 /\
     b <> None).
Proof.
  apply (ValidateProcessArgs_error_iff (Some dst2x2) dims2x2
           (memImage dims2x2 buf2x2) (Some rect_empty) world2x2).
  reflexivity.
Defined.

(** X4: a destination geometry with stride 0 switches the size check
    off: with a source that validates and an acceptable ROI (or none),
    every supplied destination, even an empty one, is accepted and
    returned as it is. *)
Theorem ValidateProcessArgs_stride0 {St} (s : slice) dstShape (src : Image St)
    roi w :
  Validate (Dims_of src w) = None ->
  (forall r, roi = Some r -> ~ bad_roi (Dims_of src w) r) ->
  Stride dstShape = 0 ->
  0 <= len s ->
  exists w',
    ValidateProcessArgs (Some s) dstShape src roi w =
    Ret (Some s, Dims_of src w, None) w'.
Proof.
  intros Hv Hroi Hs Hlen. vpa_unfold.
  destruct (im_Dims src (w_img w)) as [d st]; cbn [fst snd] in *.
  rewrite Hv.
  destruct (requiredMinDstSize_cases dstShape d roi)
    as [(e0 & r & _ & Hr & Hbad)|(-> & _)].
  { exfalso. exact (Hroi r Hr Hbad). }
  rewrite Hs. unfold Int.mul. rewrite Z.mul_0_l. cbn [blen].
  change (Int.wrap 0) with 0.
  destruct (Z.ltb_spec (len s) 0); [lia|].
  eexists. reflexivity.
Qed.

Lemma ValidateProcessArgs_stride0_witness :
  exists w',
    ValidateProcessArgs (Some (mkSlice 12 0 0)) (mkDims 2 2 0 ShapeRGB888)
      (memImage dims2x2 buf2x2) (Some rect_right) world2x2 =
    Ret (Some (mkSlice 12 0 0), Dims_of (memImage dims2x2 buf2x2) world2x2, None) w'.
Proof.
  apply (ValidateProcessArgs_stride0 (mkSlice 12 0 0) (mkDims 2 2 0 ShapeRGB888)
           (memImage dims2x2 buf2x2) (Some rect_right) world2x2).
  - reflexivity.
  - intros r Hr. inversion Hr; subst r. unfold bad_roi. vm_compute.
    intuition discriminate.
  - reflexivity.
  - vm_compute. discriminate.
Defined.

(** ** ImageRow *)

Ltac ir_unfold :=
  unfold ImageRow, bind, call_Dims, call_Buffer, ret, Dims_of, after_Dims in *.

(** The offsets of a row of a geometry that fits. *)
Lemma row_offsets d row :
  fits d -> 0 <= row < Height d ->
  0 <= row * Stride d /\
  row * Stride d + SizeRow d <= (Height d - 1) * Stride d + SizeRow d /\
  (Height d - 1) * Stride d + SizeRow d <= Int.max_int /\
  1 <= SizeRow d.
Proof.
  intros Hf Hr. destruct (fits_facts d Hf) as (Hw & Hh & Hb & Hrow & Hs).
  destruct Hf as (_ & _ & _ & Hsz).
  repeat split; try lia; nia.
Qed.

(** X5: on a source that exposes its buffer, [ImageRow] copies nothing:
    the slice it returns is the row inside that buffer (at offset
    [row * Stride], one row long), the memory is as it was and [dst] is
    only measured. *)
Theorem ImageRow_buffered_alias {St} dst (img : Image St) d buf row w :
  stable_Dims img d -> fits d ->
  exposes img (Some buf) ->
  SizeRow d <= blen dst ->
  0 <= row < Height d ->
  row * Stride d + SizeRow d <= cap buf -> cap buf <= Int.max_int ->
  exists w',
    ImageRow dst img row w =
    Ret (Some (mkSlice (ptr buf + row * Stride d) (SizeRow d)
                 (cap buf - row * Stride d)), None) w' /\
    w_mem w' = w_mem w /\ w_brk w' = w_brk w.
Proof.
  intros Hst Hf (bf & Hbf & Hans) Hdst Hrow Hcap Hmax.
  destruct (row_offsets d row Hf Hrow) as (O1 & O2 & O3 & O4).
  unfold ImageRow, bind.
  destruct (call_Dims_stable img d w Hst) as (st & ->).
  destruct Hf as (Hv & _). rewrite Hv.
  destruct (Z.ltb_spec (blen dst) (SizeRow d)); [lia|].
  destruct (Z.ltb_spec row 0); [lia|].
  destruct (Z.geb_spec row (Height d)); [lia|]. cbn [orb].
  rewrite Hbf. unfold call_Buffer. cbn [w_img w_mem w_brk w_calls].
  specialize (Hans st). destruct (bf st) as [b st']. cbn [fst] in Hans. subst b.
  unfold slice_expr. unwrap. rewrite reslice_ok by lia.
  replace (row * Stride d + SizeRow d - row * Stride d) with (SizeRow d) by lia.
  unfold ret. eexists. split; [reflexivity|]. split; reflexivity.
Qed.

Lemma exposes_memImage d b : exposes (memImage d b) (Some b).
Proof.
  exists (fun st => (Some b, st)). split; [reflexivity|]. intros st. reflexivity.
Qed.

Lemma ImageRow_buffered_alias_witness :
  exists w',
    ImageRow (Some dst2x2) (memImage dims2x2 buf2x2) 1 world2x2 =
    Ret (Some (mkSlice (ptr buf2x2 + 1 * 6) (SizeRow dims2x2) (cap buf2x2 - 1 * 6)),
         None) w' /\
    w_mem w' = w_mem world2x2 /\ w_brk w' = w_brk world2x2.
Proof.
  apply (ImageRow_buffered_alias (Some dst2x2) (memImage dims2x2 buf2x2) dims2x2
           buf2x2 1 world2x2).
  - intros st. reflexivity.
  - exact fits_dims2x2.
  - apply exposes_memImage.
  - vm_compute. discriminate.
  - vm_compute. split; [discriminate|reflexivity].
  - vm_compute. discriminate.
  - vm_compute. discriminate.
Defined.

(** X6: [ImageRow] turns its arguments down before it asks for the
    buffer or reads: with the error of [Validate] for a bad geometry,
    with [io.ErrShortBuffer] for a [dst] shorter than a row (also when the
    source exposes its buffer and [dst] would not be used), and with an
    error for a row outside the image.  It returns a nil slice then, and
    only the [Dims()] call has been made. *)
Theorem ImageRow_rejects {St} dst (img : Image St) row w :
  (forall e, Validate (Dims_of img w) = Some e ->
     ImageRow dst img row w = Ret (None, Some e) (after_Dims img w)) /\
  (Validate (Dims_of img w) = None ->
   blen dst < SizeRow (Dims_of img w) ->
     ImageRow dst img row w = Ret (None, Some ErrShortBuffer) (after_Dims img w)) /\
  (Validate (Dims_of img w) = None ->
   SizeRow (Dims_of img w) <= blen dst ->
   row < 0 \/ Height (Dims_of img w) <= row ->
     ImageRow dst img row w =
     Ret (None, Some "row out of bounds"%string) (after_Dims img w)).
Proof.
  ir_unfold. destruct (im_Dims img (w_img w)) as [d st]; cbn [fst snd].
  split; [|split].
  - intros e ->. reflexivity.
  - intros -> Hlt. destruct (Z.ltb_spec (blen dst) (SizeRow d)); [reflexivity|lia].
  - intros -> Hge Hrow.
    destruct (Z.ltb_spec (blen dst) (SizeRow d)); [lia|].
    destruct (Z.ltb_spec row 0); [reflexivity|].
    destruct (Z.geb_spec row (Height d)); [reflexivity|lia].
Qed.

Lemma ImageRow_rejects_witness :
  ImageRow (Some (mkSlice 12 5 5)) (memImage dims2x2 buf2x2) 0 world2x2 =
  Ret (None, Some ErrShortBuffer) (after_Dims (memImage dims2x2 buf2x2) world2x2).
Proof.
  apply (proj1 (proj2 (ImageRow_rejects (Some (mkSlice 12 5 5))
                         (memImage dims2x2 buf2x2) 0 world2x2))).
  - reflexivity.
  - vm_compute. reflexivity.
Defined.

(** X7: on a source without buffer, [ImageRow] reads the row into the
    start of [dst] and judges the read by its count alone: with a count
    equal to the row size it returns [dst[:rowLen]] and a nil error,
    whatever error [ReadAt] returned; with any other count it returns a
    nil slice and [io.ErrShortWrite]. *)
Theorem ImageRow_read {St} (s : slice) (img : Image St) d row w data n err :
  stable_Dims img d -> fits d ->
  unbuffered img ->
  SizeRow d <= len s -> len s <= cap s ->
  0 <= row < Height d ->
  (forall st, exists st',
      im_ReadAt img st (w_mem w) (SizeRow d) (row * Stride d) =
      (data, n, err, st')) ->
  exists w',
    ImageRow (Some s) img row w =
    Ret (if n =? SizeRow d
         then (Some (mkSlice (ptr s) (SizeRow d) (cap s)), None)
         else (None, Some ErrShortWrite)) w' /\
    w_mem w' = write_list (w_mem w) (ptr s) (firstn (Z.to_nat (SizeRow d)) data).
Proof.
  intros Hst Hf Hnb Hlen Hcap Hrow Hread.
  destruct (row_offsets d row Hf Hrow) as (O1 & O2 & O3 & O4).
  unfold ImageRow, bind.
  destruct (call_Dims_stable img d w Hst) as (st & ->).
  destruct Hf as (Hv & _). rewrite Hv. cbn [blen].
  destruct (Z.ltb_spec (len s) (SizeRow d)); [lia|].
  destruct (Z.ltb_spec row 0); [lia|].
  destruct (Z.geb_spec row (Height d)); [lia|]. cbn [orb].
  assert (Hrest : forall st0,
    exists w',
      (let (a, w'0) :=
         (Some (mkSlice (ptr s + 0) (SizeRow d - 0) (cap s - 0)),
          mkWorld (w_mem w) (w_brk w) st0 (w_calls w)) in
       match call_ReadAtB img a (Int.mul row (Stride d)) w'0 with
       | Ret r w2 =>
           (if negb (fst r =? SizeRow d)
            then ret (None, Some ErrShortWrite)
            else ret (a, None)) w2
       | Panic => Panic
       end) =
      Ret (if n =? SizeRow d
           then (Some (mkSlice (ptr s) (SizeRow d) (cap s)), None)
           else (None, Some ErrShortWrite)) w' /\
      w_mem w' = write_list (w_mem w) (ptr s) (firstn (Z.to_nat (SizeRow d)) data)).
  { intros st0. cbn [call_ReadAtB]. unfold call_ReadAt.
    cbn [w_img w_mem w_brk w_calls len ptr]. unwrap.
    rewrite !Z.sub_0_r, !Z.add_0_r.
    destruct (Hread st0) as (st' & ->). cbn [fst].
    destruct (n =? SizeRow d); cbn [negb]; unfold ret; eexists;
      (split; [reflexivity|]); cbn [w_mem];
      rewrite ?Z.sub_0_r; reflexivity. }
  destruct Hnb as [Hn|(bf & Hbf & Hans)].
  - rewrite Hn. unfold ret at 1. unfold slice_expr.
    rewrite reslice_ok by lia.
    destruct (Hrest st) as (w' & Hrun & Hm). exists w'. split; [|exact Hm].
    rewrite <- Hrun. reflexivity.
  - rewrite Hbf. unfold call_Buffer. cbn [w_img w_mem w_brk w_calls].
    specialize (Hans st). destruct (bf st) as [b st1]. cbn [fst] in Hans. subst b.
    unfold slice_expr. rewrite reslice_ok by lia.
    destruct (Hrest st1) as (w' & Hrun & Hm). exists w'. split; [|exact Hm].
    rewrite <- Hrun. reflexivity.
Qed.

Lemma fits_dims1x1 : fits dims1x1.
Proof.
  split; [reflexivity|]. split; [vm_compute; repeat split; discriminate|].
  split; vm_compute; discriminate.
Qed.

Lemma ImageRow_read_witness :
  exists w',
    ImageRow (Some dst1x1) (eofReader dims1x1 (map byte_of_Z [1; 2; 3])) 0
      world1x1 =
    Ret (if 3 =? SizeRow dims1x1
         then (Some (mkSlice (ptr dst1x1) (SizeRow dims1x1) (cap dst1x1)), None)
         else (None, Some ErrShortWrite)) w' /\
    w_mem w' =
    write_list (w_mem world1x1) (ptr dst1x1)
      (firstn (Z.to_nat (SizeRow dims1x1)) (map byte_of_Z [1; 2; 3])).
Proof.
  apply (ImageRow_read dst1x1 (eofReader dims1x1 (map byte_of_Z [1; 2; 3]))
           dims1x1 0 world1x1 (map byte_of_Z [1; 2; 3]) 3 (Some "EOF"%string)).
  - intros st. reflexivity.
  - exact fits_dims1x1.
  - left. reflexivity.
  - vm_compute. discriminate.
  - vm_compute. discriminate.
  - vm_compute. split; [discriminate|reflexivity].
  - intros st. exists st. reflexivity.
Defined.

(** X8: [ImageRow] does not measure the buffer a source exposes: when
    the row asked for ends beyond the capacity of that buffer, the slice
    expression panics (where [ValidateProcessArgs] returns an error for
    such a buffer of an in-place request). *)
Theorem ImageRow_short_buffer_panics {St} dst (img : Image St) d buf row w :
  stable_Dims img d -> fits d ->
  exposes img (Some buf) ->
  SizeRow d <= blen dst ->
  0 <= row < Height d ->
  cap buf < row * Stride d + SizeRow d ->
  ImageRow dst img row w = Panic.
Proof.
  intros Hst Hf (bf & Hbf & Hans) Hdst Hrow Hcap.
  destruct (row_offsets d row Hf Hrow) as (O1 & O2 & O3 & O4).
  unfold ImageRow, bind.
  destruct (call_Dims_stable img d w Hst) as (st & ->).
  destruct Hf as (Hv & _). rewrite Hv.
  destruct (Z.ltb_spec (blen dst) (SizeRow d)); [lia|].
  destruct (Z.ltb_spec row 0); [lia|].
  destruct (Z.geb_spec row (Height d)); [lia|]. cbn [orb].
  rewrite Hbf. unfold call_Buffer. cbn [w_img w_mem w_brk w_calls].
  specialize (Hans st). destruct (bf st) as [b st']. cbn [fst] in Hans. subst b.
  unfold slice_expr. unwrap. unfold reslice.
  destruct (Z.leb_spec (row * Stride d + SizeRow d) (cap buf)); [lia|].
  rewrite !andb_false_r. reflexivity.
Qed.

Lemma ImageRow_short_buffer_panics_witness :
  ImageRow (Some dst2x2) (memImage dims2x2 (mkSlice 0 9 9)) 1 world2x2 = Panic.
Proof.
  apply (ImageRow_short_buffer_panics (Some dst2x2)
           (memImage dims2x2 (mkSlice 0 9 9)) dims2x2 (mkSlice 0 9 9) 1 world2x2).
  - intros st. reflexivity.
  - exact fits_dims2x2.
  - apply exposes_memImage.
  - vm_compute. discriminate.
  - vm_compute. split; [discriminate|reflexivity].
  - vm_compute. reflexivity.
Defined.

(** ** PointFilter.Process: what every call does *)

(** A row calls the function once, unless its read fails. *)
Lemma rowBody_calls {St} (e : loopEnv St) y w r w' :
  rowBody e y w = Ret r w' ->
  match r with
  | None => List.length (w_calls w') = S (List.length (w_calls w))
  | Some _ => w_calls w' = w_calls w
  end.
Proof.
  unfold rowBody, bind, slice_expr, call_ReadAt, call_Fn, ret.
  destruct (le_srcBuf e).
  - destruct (reslice _ _ _); [|discriminate]. cbn [snd fst].
    destruct (reslice _ _ _); [|discriminate].
    destruct (reslice _ _ _); [|discriminate].
    destruct (le_fn e _ _ _); [|discriminate].
    intros H. inversion H. cbn [w_calls]. rewrite length_app. cbn. lia.
  - destruct (im_ReadAt _ _ _ _ _) as [[[data n] err] st]. cbn [snd fst].
    destruct err.
    + intros H. inversion H. reflexivity.
    + destruct (reslice _ _ _); [|discriminate].
      destruct (reslice _ _ _); [|discriminate].
      destruct (le_fn e _ _ _); [|discriminate].
      intros H. inversion H. cbn [w_calls]. rewrite length_app. cbn. lia.
Qed.

Lemma rowLoop_calls {St} (e : loopEnv St) n : forall y w r w',
  rowLoop e n y w = Ret r w' ->
  match r with
  | None => List.length (w_calls w') = (List.length (w_calls w) + n)%nat
  | Some _ => (List.length (w_calls w') < List.length (w_calls w) + n)%nat
  end.
Proof.
  induction n as [|n IH]; intros y w r w'; cbn [rowLoop].
  - unfold ret. intros H. inversion H. subst. lia.
  - unfold bind. destruct (rowBody e y w) as [[err|] w1|] eqn:E; [| |discriminate].
    + unfold ret. intros H. inversion H. subst.
      apply rowBody_calls in E. rewrite E. lia.
    + intros H. apply IH in H. apply rowBody_calls in E.
      destruct r; lia.
Qed.



(** X10: what an out-of-place call computes.  For a pure per-pixel
    transform between shapes made of whole bytes, a source of valid
    geometry that shows its bytes through its buffer or through [ReadAt],
    and a destination that is large enough and apart from the source
    buffer, [Process] succeeds; byte [c] of pixel [j] of row [r] of the
    region is written at offset [r * outStride + j * ob + c] of the
    destination as the pixel function makes it from the source pixel, and
    no other byte of the memory that was live is changed. *)
Theorem Process_per_pixel_correct {St} (f : PointFilter) ib ob g
    (src : Image St) d content (dst : slice) roi (w : world St) :
  byte_filter f ib ob g ->
  sound_image src d ib ->
  DShape d = pf_In f ->
  roi_ok d roi ->
  room w dst ((endY d roi - startY d roi) * ((endX d roi - startX d roi) * ob)) ->
  readable src d ib content w dst ->
  exists w',
    Process f (Some dst) src roi w = Ret (dstDimsOf f d roi, None) w' /\
    (forall r j c,
        0 <= r < endY d roi - startY d roi ->
        0 <= j < endX d roi - startX d roi ->
        0 <= c < ob ->
        w_mem w' (ptr dst + r * ((endX d roi - startX d roi) * ob) + j * ob + c) =
        pixel_out g content (Stride d) ib (startY d roi + r) (startX d roi + j) c) /\
    (forall a, a < w_brk w ->
               ~ (ptr dst <= a < ptr dst + (endY d roi - startY d roi) *
                                           ((endX d roi - startX d roi) * ob)) ->
               w_mem w' a = w_mem w a).
Proof.
  intros (fn & Hfn & Hpp & Hin & Hout) (Hst & Hv & Hok & Hbits & Hfit & Hsz)
    Hshape Hroi (Hd & Hl) Hr.
  destruct (Process_out_of_place f fn g ib ob src d content dst roi w)
    as (w' & Hrun & Hval & Hframe & _); try assumption.
  exists w'. auto.
Qed.

Lemma readable_2x2 (dst : slice) :
  ptr dst = 12 ->
  readable (memImage dims2x2 buf2x2) dims2x2 3 (fun o => w_mem world2x2 o)
    world2x2 dst.
Proof.
  intros Hp. left. exists buf2x2. split; [apply exposes_memImage|].
  split; [split; vm_compute; discriminate|].
  split; [vm_compute; discriminate|].
  split; [left; rewrite Hp; vm_compute; discriminate|].
  split; [vm_compute; discriminate|].
  intros o _. reflexivity.
Qed.

Lemma sound_2x2 : sound_image (memImage dims2x2 buf2x2) dims2x2 3.
Proof.
  split; [intros st; reflexivity|]. split; [reflexivity|].
  split; [vm_compute; repeat split; discriminate|].
  split; [reflexivity|]. split; vm_compute; discriminate.
Qed.

Lemma Process_per_pixel_correct_witness :
  exists w',
    Process NewInvertedPerPixel (Some dstRight) (memImage dims2x2 buf2x2)
      (Some rect_right) world2x2 =
    Ret (dstDimsOf NewInvertedPerPixel dims2x2 (Some rect_right), None) w' /\
    (forall r j c,
        0 <= r < 2 - 0 -> 0 <= j < 2 - 1 -> 0 <= c < 3 ->
        w_mem w' (ptr dstRight + r * ((2 - 1) * 3) + j * 3 + c) =
        pixel_out (map inv_byte) (fun o => w_mem world2x2 o) 6 3 (0 + r) (1 + j) c) /\
    (forall a, a < w_brk world2x2 ->
               ~ (ptr dstRight <= a < ptr dstRight + (2 - 0) * ((2 - 1) * 3)) ->
               w_mem w' a = w_mem world2x2 a).
Proof.
  apply (Process_per_pixel_correct NewInvertedPerPixel 3 3 (map inv_byte)
           (memImage dims2x2 buf2x2) dims2x2 (fun o => w_mem world2x2 o)
           dstRight (Some rect_right) world2x2).
  - exact invert_byte_filter.
  - exact sound_2x2.
  - reflexivity.
  - vm_compute. repeat split; discriminate.
  - vm_compute. repeat split; discriminate.
  - apply readable_2x2. reflexivity.
Defined.

(** A nil destination is accepted only without ROI and for the shape of
    the source. *)
Lemma ValidateProcessArgs_in_place_needs {St} dd (src : Image St) roi w b d w' :
  ValidateProcessArgs None dd src roi w = Ret (b, d, None) w' ->
  roi = None /\ DShape dd = DShape (Dims_of src w).
Proof.
  vpa_unfold.
  destruct (im_Dims src (w_img w)) as [d0 st]; cbn [fst snd].
  destruct (Validate d0); [discriminate|].
  destruct (requiredMinDstSize dd d0 roi); [discriminate|].
  destruct roi; [discriminate|].
  destruct (Z.eqb_spec (DShape dd) (DShape d0)); cbn [negb]; [|discriminate].
  intros _. auto.
Qed.

(** X11: a call with a nil destination never runs the loop when a ROI is
    given, or when the filter changes the shape and the source answers
    [Dims()] the same way each time: it returns an error, and the memory
    and the log of calls are what they were. *)
Theorem Process_in_place_refused {St} (f : PointFilter) (src : Image St) roi w :
  roi <> None \/ (pf_In f <> pf_Out f /\ exists d, stable_Dims src d) ->
  exists e w',
    Process f None src roi w = Ret (Dims_zero, Some e) w' /\
    w_mem w' = w_mem w /\ w_calls w' = w_calls w.
Proof.
  intros Hcase. unfold Process.
  destruct (pf_Fn f) as [fn|].
  2:{ exists errNilPixelFunc, w. repeat split. }
  unfold bind at 1. unfold call_Dims.
  destruct (im_Dims src (w_img w)) as [d st] eqn:Ed; cbn [fst].
  destruct (Z.eqb_spec (DShape d) (pf_In f)) as [Hs|Hs]; cbn [negb].
  2:{ do 2 eexists. unfold ret. split; [reflexivity|]. cbn. auto. }
  unfold bind.
  destruct (ValidateProcessArgs_total None (dstDimsOf f d roi) src roi
              (mkWorld (w_mem w) (w_brk w) st (w_calls w)))
    as (b & e & w1 & Hv & Hm & _ & Hc & _).
  rewrite Hv. cbn [w_mem w_calls] in Hm, Hc.
  destruct e as [e|]; [exists e, w1; unfold ret; auto|].
  exfalso. apply ValidateProcessArgs_in_place_needs in Hv.
  destruct Hv as (Hroi & Hsh).
  destruct Hcase as [Hc1|(Hio & d0 & Hst)]; [contradiction|].
  unfold Dims_of in Hsh. cbn [w_img] in Hsh.
  rewrite (Hst st) in Hsh.
  pose proof (Hst (w_img w)) as Hd. rewrite Ed in Hd. cbn [fst] in Hd. subst d0.
  assert (Hout : DShape (dstDimsOf f d roi) = pf_Out f).
  { unfold dstDimsOf, ShapeIO. destruct roi; reflexivity. }
  congruence.
Qed.

Lemma Process_in_place_refused_witness :
  exists e w',
    Process filterWiden None (memImage dims2x2 buf2x2) None world2x2 =
    Ret (Dims_zero, Some e) w' /\
    w_mem w' = w_mem world2x2 /\ w_calls w' = w_calls world2x2.
Proof.
  apply (Process_in_place_refused filterWiden (memImage dims2x2 buf2x2) None
           world2x2).
  right. split; [discriminate|]. exists dims2x2. intros st. reflexivity.
Defined.

(** ** PointFilter.Process: a read that fails *)

(** The loop up to a row [k] whose body returns the error [err]: the rows
    before it carry the invariant, row [k] ends the loop with [err]. *)
Lemma rowLoop_fails {St} (e : loopEnv St) (k : Z) (err : error)
    (Inv : Z -> world St -> Prop) :
  k <= Int.max_int ->
  (forall y w, 0 <= y < k -> Inv y w ->
               exists w1, rowBody e y w = Ret None w1 /\ Inv (y + 1) w1) ->
  (forall w, Inv k w ->
             exists w1, rowBody e k w = Ret (Some err) w1 /\ Inv k w1) ->
  forall n y w,
    0 <= y <= k -> k < y + Z.of_nat n -> Inv y w ->
    exists w', rowLoop e n y w = Ret (Some err) w' /\ Inv k w'.
Proof.
  intros Hk Hstep Hfail. induction n as [|n IH]; intros y w Hy Hn Hinv; [lia|].
  cbn [rowLoop]. unfold bind.
  destruct (Z.eq_dec y k) as [-> | Hne].
  - destruct (Hfail w Hinv) as (w1 & Hrun & Hinv1). rewrite Hrun.
    exists w1. split; [reflexivity|exact Hinv1].
  - destruct (Hstep y w ltac:(lia) Hinv) as (w1 & Hrun & Hinv1). rewrite Hrun.
    replace (Int.add y 1) with (y + 1) by (unwrap; reflexivity).
    apply IH; [lia|lia|exact Hinv1].
Qed.

Section ReadFailure.

Context {St : Type}.
Variables (fn : PointFunc) (g : list byte -> list byte) (ib ob : Z).
Hypothesis Hpp : per_pixel ib ob g fn.
Hypothesis Hib : 0 < ib.
Hypothesis Hob : 0 < ob.

Variables (src : Image St) (d : Dims) (content : Z -> byte).
Variables (dst rowBuf : slice) (sx sy ex ey : Z) (m0 : mem).

Let S := Stride d.
Let rb := Width d * ib.
Let os := (ex - sx) * ob.
Let e := mkLoopEnv fn src d (Some dst) None rowBuf rb os ib sx sy ex.
Let oinv := @out_inv St g ib ob d content dst rowBuf sx sy ex m0.

Hypothesis Hx : 0 <= sx <= ex /\ ex <= Width d.
Hypothesis Hy : 0 <= sy <= ey /\ ey <= Height d.
Hypothesis Hh : Height d <= Int.max_int.
Hypothesis HS : rb <= S.
Hypothesis Hsize : (Height d - 1) * S + rb <= Int.max_int.
Hypothesis Hdst : 0 <= len dst <= cap dst /\ cap dst <= Int.max_int.
Hypothesis Hout : (ey - sy) * os <= len dst.
Hypothesis Hrow : len rowBuf = rb /\ cap rowBuf = rb.
Hypothesis Hscratch :
  ptr rowBuf + rb <= ptr dst \/ ptr dst + len dst <= ptr rowBuf.

(** A row that [ReadAt] delivers. *)
Lemma row_streamed_at y w :
  sy <= y < ey ->
  (forall st m, exists n st',
      im_ReadAt src st m rb (y * S) =
      (read_list content (y * S) (Z.to_nat rb), n, None, st')) ->
  oinv y w ->
  exists w1, rowBody e y w = Ret None w1 /\ oinv (y + 1) w1.
Proof.
  intros Hr Hread Hinv.
  destruct (row_bounds ib ob Hib Hob d sx sy ex ey Hx Hy HS y Hr)
    as (B1 & B2 & B3 & B4 & B5 & B6 & B7 & B8).
  fold S rb os in B1, B2, B3, B4, B5, B6, B7, B8.
  destruct Hrow as [Hlr Hcr].
  destruct (Hread (w_img w) (w_mem w)) as (n & st' & Hrd).
  rewrite (rowBody_streamed e y w dst
             (read_list content (y * S) (Z.to_nat rb)) n st');
    cbn [e le_dst le_srcBuf le_startY le_srcDims le_srcRowBytes le_outStride
         le_startX le_endX le_inBytesPerPixel le_rowBuf le_src];
    fold S; try lia; try reflexivity; [|rewrite Hlr; exact Hrd].
  rewrite Hlr.
  rewrite firstn_all2 by (rewrite read_list_length; lia).
  eapply (fn_row fn g ib ob Hpp Hib Hob d content dst rowBuf) with (ey := ey);
    cbn [srcPart len ptr w_mem]; try eassumption; try lia.
  - destruct Hinv as (Hsy & Hrows & Hframe). split; [exact Hsy|].
    cbn [w_mem]. split.
    + intros r j c Hrr Hj Hc.
      rewrite write_list_outside by (rewrite read_list_length; nia).
      apply Hrows; lia.
    + intros a Ha Hb.
      rewrite write_list_outside by (rewrite read_list_length; lia).
      apply Hframe; assumption.
  - intros o Ho.
    replace (ptr rowBuf + sx * ib + o)
      with (ptr rowBuf + Z.of_nat (Z.to_nat (sx * ib + o))) by lia.
    rewrite write_list_inside by (rewrite read_list_length; lia).
    rewrite read_list_nth by lia.
    f_equal. lia.
Qed.

(** A row whose read returns an error: the loop body returns it, and the
    rows written so far stay. *)
Lemma row_read_fails y w err :
  sy <= y < ey ->
  (forall st m, exists data n st',
      im_ReadAt src st m rb (y * S) = (data, n, Some err, st')) ->
  oinv y w ->
  exists w1, rowBody e y w = Ret (Some err) w1 /\ oinv y w1.
Proof.
  intros Hr Hread (Hsy & Hrows & Hframe).
  destruct (row_bounds ib ob Hib Hob d sx sy ex ey Hx Hy HS y Hr)
    as (B1 & B2 & B3 & B4 & B5 & B6 & B7 & B8).
  fold S rb os in B1, B2, B3, B4, B5, B6, B7, B8.
  destruct Hrow as [Hlr Hcr].
  destruct (Hread (w_img w) (w_mem w)) as (data & n & st' & Hrd).
  unfold rowBody. cbn [e le_srcBuf le_srcDims le_src le_rowBuf]. fold S.
  unwrap. unfold bind, call_ReadAt. rewrite Hlr, Hrd. unfold ret. cbn [snd].
  eexists. split; [reflexivity|].
  assert (Hl : Z.of_nat (List.length (firstn (Z.to_nat rb) data)) <= rb).
  { rewrite length_firstn. lia. }
  split; [exact Hsy|]. cbn [w_mem]. split.
  - intros r j c Hrr Hj Hc.
    rewrite write_list_outside by nia.
    apply Hrows; lia.
  - intros a Ha Hb. rewrite write_list_outside by lia.
    apply Hframe; assumption.
Qed.

End ReadFailure.

(** An out-of-place call on a source without buffer, up to the start of
    the row loop. *)
Lemma Process_unbuffered_prefix {St} (f : PointFilter) fn ib ob (src : Image St)
    d (dst : slice) roi (w : world St) :
  pf_Fn f = Some fn ->
  BitsPerPixel (pf_In f) = 8 * ib ->
  BitsPerPixel (pf_Out f) = 8 * ob ->
  stable_Dims src d -> DShape d = pf_In f -> Validate d = None -> Dims_ok d ->
  Width d * BitsPerPixel (DShape d) + 7 <= Int.max_int ->
  roi_ok d roi ->
  (endY d roi - startY d roi) * ((endX d roi - startX d roi) * ob) <= len dst ->
  len dst <= Int.max_int ->
  unbuffered src ->
  exists st3,
    Process f (Some dst) src roi w =
    bind (rowLoop (mkLoopEnv fn src d (Some dst) None
                     (mkSlice (w_brk w) (Width d * ib) (Width d * ib))
                     (Width d * ib) ((endX d roi - startX d roi) * ob) ib
                     (startX d roi) (startY d roi) (endX d roi))
            (Z.to_nat (endY d roi - startY d roi)) (startY d roi))
      (fun r => match r with
                | Some err => ret (Dims_zero, Some err)
                | None => ret (dstDimsOf f d roi, None)
                end)
      (mkWorld (mem_after_make w (Width d * ib)) (w_brk w + Width d * ib) st3
         (w_calls w)).
Proof.
  intros Hfn Hin Hout Hstable Hshape Hvalid Hok Hfit Hroi Hlen Hlmax Hnb.
  destruct (BitsPerPixel_whole_bytes _ _ Hin) as [Hrib Hibpp].
  destruct (BitsPerPixel_whole_bytes _ _ Hout) as [Hrob Hobpp].
  pose proof (region_bounds d roi Hvalid Hroi) as HB.
  assert (Hrow : SizeRow d = Width d * ib).
  { apply SizeRow_whole_bytes; [rewrite Hshape; exact Hin|lia|exact Hfit]. }
  assert (Hw16 : Width d * 16 <= Int.max_int).
  { rewrite Hshape, Hin in Hfit. nia. }
  pose proof (dstDimsOf_whole_bytes f d roi ob Hout Hvalid Hroi Hok Hw16) as Hdd.
  destruct Hok as (Hwr & Hhr & _).
  unfold Process. rewrite Hfn. unfold bind at 1.
  destruct (call_Dims_stable src d w Hstable) as (st1 & ->).
  rewrite Hshape, Z.eqb_refl. cbn [negb]. unfold bind at 1.
  destruct (ValidateProcessArgs_accepts dst (dstDimsOf f d roi) src d roi
              (mkWorld (w_mem w) (w_brk w) st1 (w_calls w))
              Hstable Hvalid Hwr Hhr Hroi) as (st2 & ->).
  { rewrite Hdd. cbn [Stride Height].
    assert (0 <= (endX d roi - startX d roi) * ob) by nia.
    assert (0 <= (endY d roi - startY d roi) * ((endX d roi - startX d roi) * ob))
      by nia.
    destruct roi as [r|].
    - unfold Dy. unfold startY, endY, region in *. cbn [fst snd] in *.
      unfold Int.mul.
      rewrite (Z.mul_comm _ (Int.wrap (Y (Max r) - Y (Min r)))). unwrap. lia.
    - unfold Int.mul. rewrite (Z.mul_comm _ (endY d None - startY d None)).
      unwrap. lia. }
  cbn [w_mem w_brk w_calls].
  rewrite processRows_region.
  rewrite Hrow, Hibpp.
  assert (Hstr : Stride (dstDimsOf f d roi) = (endX d roi - startX d roi) * ob)
    by (rewrite Hdd; reflexivity).
  rewrite Hstr.
  assert (Hmake : forall st3,
             @make St (Width d * ib) (mkWorld (w_mem w) (w_brk w) st3 (w_calls w)) =
             Ret (mkSlice (w_brk w) (Width d * ib) (Width d * ib))
                 (mkWorld (mem_after_make w (Width d * ib))
                    (w_brk w + Width d * ib) st3 (w_calls w))).
  { intros st3. unfold make. destruct (Z.ltb_spec (Width d * ib) 0); [nia|].
    reflexivity. }
  destruct Hnb as [Hn|(bf & Hbf & Hans)].
  - rewrite Hn. exists st2. unfold bind at 1. unfold ret at 1.
    unfold bind at 1. rewrite Hmake. reflexivity.
  - rewrite Hbf. unfold bind at 1. unfold call_Buffer.
    cbn [w_img w_mem w_brk w_calls].
    specialize (Hans st2). destruct (bf st2) as [b st3]. cbn [fst] in Hans.
    subst b. exists st3. unfold bind at 1. rewrite Hmake. reflexivity.
Qed.

(** X12: a read that fails ends the call with its error, and nothing is
    rolled back.  For a pure per-pixel transform between shapes made of
    whole bytes and a source without buffer whose [ReadAt] delivers the
    rows of the region before row [k] and returns the error [err] for row
    [k]: [Process] returns the zero [Dims] and [err], and the rows of the
    region before [k] are in the destination as they were written. *)
Theorem Process_read_error_no_rollback {St} (f : PointFilter) ib ob g
    (src : Image St) d content (dst : slice) roi (w : world St) k err :
  byte_filter f ib ob g ->
  sound_image src d ib ->
  DShape d = pf_In f ->
  roi_ok d roi ->
  room w dst ((endY d roi - startY d roi) * ((endX d roi - startX d roi) * ob)) ->
  unbuffered src ->
  startY d roi <= k < endY d roi ->
  (forall r, startY d roi <= r < k ->
     forall st m, exists n st',
       im_ReadAt src st m (SizeRow d) (r * Stride d) =
       (read_list content (r * Stride d) (Z.to_nat (SizeRow d)), n, None, st')) ->
  (forall st m, exists data n st',
       im_ReadAt src st m (SizeRow d) (k * Stride d) = (data, n, Some err, st')) ->
  exists w',
    Process f (Some dst) src roi w = Ret (Dims_zero, Some err) w' /\
    forall r j c,
      0 <= r < k - startY d roi ->
      0 <= j < endX d roi - startX d roi ->
      0 <= c < ob ->
      w_mem w' (ptr dst + r * ((endX d roi - startX d roi) * ob) + j * ob + c) =
      pixel_out g content (Stride d) ib (startY d roi + r) (startX d roi + j) c.
Proof.
  intros (fn & Hfn & Hpp & Hin & Hout) (Hst & Hv & Hok & Hbits & Hfit & Hsz)
    Hshape Hroi ((Hd0 & Hd1 & Hd2) & Hl) Hnb Hk Hgood Hbad.
  destruct (BitsPerPixel_whole_bytes _ _ Hin) as [Hrib _].
  destruct (BitsPerPixel_whole_bytes _ _ Hout) as [Hrob _].
  pose proof (region_bounds d roi Hv Hroi) as HB.
  assert (Hrow : SizeRow d = Width d * ib).
  { apply SizeRow_whole_bytes; [exact Hbits|lia|exact Hfit]. }
  assert (HvS : Width d * ib <= Stride d).
  { pose proof (proj1 (Validate_None_iff d Hfit) Hv) as (_ & _ & _ & Hs).
    rewrite Hbits in Hs. lia. }
  assert (Hhmax : Height d <= Int.max_int)
    by (destruct Hok as (_ & Hhr & _); int_consts; lia).
  destruct (Process_unbuffered_prefix f fn ib ob src d dst roi w)
    as (st3 & ->); try assumption; try lia.
  rewrite Hrow in Hgood, Hbad. unfold image_bytes in Hsz.
  set (sx := startX d roi) in *. set (sy := startY d roi) in *.
  set (ex := endX d roi) in *. set (ey := endY d roi) in *.
  set (rowBuf := mkSlice (w_brk w) (Width d * ib) (Width d * ib)).
  set (m0 := mem_after_make w (Width d * ib)).
  assert (Hscr : ptr rowBuf + Width d * ib <= ptr dst \/
                 ptr dst + len dst <= ptr rowBuf) by (cbn [rowBuf ptr]; lia).
  edestruct (rowLoop_fails
               (mkLoopEnv fn src d (Some dst) None rowBuf (Width d * ib)
                  ((ex - sx) * ob) ib sx sy ex)
               k err (@out_inv St g ib ob d content dst rowBuf sx sy ex m0))
    as (w' & Hrun & Hinv).
  - lia.
  - intros y w2 Hy Hinv. destruct (Z_lt_ge_dec y sy) as [Hlt|Hge].
    + destruct Hinv as (Hsy & _). lia.
    + eapply (row_streamed_at fn g ib ob Hpp) with (ey := ey);
        try eassumption; try lia; try (split; reflexivity).
      apply Hgood. lia.
  - intros w2 Hinv.
    eapply (row_read_fails fn g ib ob) with (ey := ey);
      try eassumption; try lia; try (split; reflexivity).
  - instantiate (1 := sy). lia.
  - instantiate (1 := Z.to_nat (ey - sy)). lia.
  - instantiate (1 := mkWorld m0 (w_brk w + Width d * ib) st3 (w_calls w)).
    split; [lia|]. split; [intros; lia|]. intros a _ _. reflexivity.
  - unfold bind. rewrite Hrun. unfold ret. exists w'. split; [reflexivity|].
    destruct Hinv as (_ & Hrows & _).
    intros r j c Hr Hj Hc.
    specialize (Hrows (sy + r) j c ltac:(lia) Hj Hc).
    replace (sy + r - sy) with r in Hrows by lia. exact Hrows.
Qed.

Lemma Process_read_error_no_rollback_witness :
  exists w',
    Process NewInvertedPerPixel (Some dst2x2) (failingReader dims2x2 data2x2 6)
      None world2x2 = Ret (Dims_zero, Some "read failed"%string) w' /\
    forall r j c,
      0 <= r < 1 - 0 -> 0 <= j < 2 - 0 -> 0 <= c < 3 ->
      w_mem w' (ptr dst2x2 + r * ((2 - 0) * 3) + j * 3 + c) =
      pixel_out (map inv_byte) (fun o => nth (Z.to_nat o) data2x2 x00) 6 3
        (0 + r) (0 + j) c.
Proof.
  apply (Process_read_error_no_rollback NewInvertedPerPixel 3 3 (map inv_byte)
           (failingReader dims2x2 data2x2 6) dims2x2
           (fun o => nth (Z.to_nat o) data2x2 x00) dst2x2 None world2x2 1
           "read failed"%string).
  - exact invert_byte_filter.
  - split; [intros st; reflexivity|]. split; [reflexivity|].
    split; [vm_compute; repeat split; discriminate|].
    split; [reflexivity|]. split; vm_compute; discriminate.
  - reflexivity.
  - exact I.
  - vm_compute. repeat split; discriminate.
  - left. reflexivity.
  - vm_compute. split; [discriminate|reflexivity].
  - intros r Hr st m. unfold startY, region in Hr. cbn [fst snd] in Hr.
    assert (r = 0) by lia. subst r.
    exists 6, st. reflexivity.
  - intros st m. exists [], 0, st. reflexivity.
Defined.

(** ** The pixel functions *)

(** The loop of the inversion filter returns exactly when source and
    destination have all the indices it uses. *)
Lemma invertLoop_returns n : forall i d s m,
  0 <= i ->
  (invertLoop n i d s m <> None <->
   n = O \/ (i + Z.of_nat n <= blen s /\ i + Z.of_nat n <= blen d)).
Proof.
  induction n as [|n IH]; intros i d s m Hi.
  - simpl. split; [auto|discriminate].
  - cbn [invertLoop]. split.
    + intros H. right.
      destruct s as [s|]; cbn [index] in H; [|congruence].
      destruct ((0 <=? i) && (i <? len s)) eqn:Es; [|congruence].
      destruct d as [d|]; cbn [store] in H; [|congruence].
      destruct ((0 <=? i) && (i <? len d)) eqn:Ed; [|congruence].
      apply andb_true_iff in Es, Ed.
      destruct Es as [_ Es], Ed as [_ Ed].
      apply Z.ltb_lt in Es, Ed.
      apply IH in H; [|lia]. cbn [blen] in *. lia.
    + intros [H | [Hs Hd]]; [discriminate|].
      destruct s as [s|]; cbn [blen] in Hs; [|lia].
      destruct d as [d|]; cbn [blen] in Hd; [|lia].
      cbn [index store].
      assert (Es : (0 <=? i) && (i <? len s) = true).
      { apply andb_true_iff. split; [apply Z.leb_le|apply Z.ltb_lt]; lia. }
      assert (Ed : (0 <=? i) && (i <? len d) = true).
      { apply andb_true_iff. split; [apply Z.leb_le|apply Z.ltb_lt]; lia. }
      rewrite Es, Ed. apply IH; [lia|]. cbn [blen].
      destruct n; [left; reflexivity|right; lia].
Qed.

(** X13: the function of the inversion filter returns exactly when the
    destination is at least as long as the source; on a shorter
    destination it panics, whatever the bytes are. *)
Theorem invertFn_returns_iff (d s : bytes) (m : mem) :
  0 <= blen s -> 0 <= blen d ->
  (invertFn d s m <> None <-> blen s <= blen d).
Proof.
  intros Hs Hd. unfold invertFn.
  rewrite invertLoop_returns by lia.
  rewrite Z2Nat.id by exact Hs. split.
  - intros [H | H]; lia.
  - intros H. right. lia.
Qed.

Lemma invertFn_returns_iff_witness :
  (invertFn (Some dstRight) (Some buf2x2) (w_mem world2x2) <> None <->
   blen (Some buf2x2) <= blen (Some dstRight)) /\
  invertFn (Some dstRight) (Some buf2x2) (w_mem world2x2) = None.
Proof.
  split.
  - apply (invertFn_returns_iff (Some dstRight) (Some buf2x2) (w_mem world2x2));
      vm_compute; discriminate.
  - reflexivity.
Defined.

(** The loop of the grayscale filter returns exactly when source and
    destination have all the indices it uses. *)
Lemma grayLoop_returns mode n : forall i d s m,
  0 <= i ->
  (grayLoop mode n i d s m <> None <->
   n = O \/ (i + 3 * Z.of_nat n <= blen s /\ i + 3 * Z.of_nat n <= blen d)).
Proof.
  induction n as [|n IH]; intros i d s m Hi.
  - simpl. split; [auto|discriminate].
  - cbn [grayLoop]. split.
    + intros H. right.
      destruct s as [s|]; cbn [index] in H; [|congruence].
      destruct ((0 <=? i) && (i <? len s)) eqn:Es0; [|congruence].
      destruct ((0 <=? i + 1) && (i + 1 <? len s)) eqn:Es1; [|congruence].
      destruct ((0 <=? i + 2) && (i + 2 <? len s)) eqn:Es2; [|congruence].
      destruct d as [d|]; cbn [store] in H; [|congruence].
      destruct ((0 <=? i) && (i <? len d)) eqn:Ed0; [|congruence].
      destruct ((0 <=? i + 1) && (i + 1 <? len d)) eqn:Ed1; [|congruence].
      destruct ((0 <=? i + 2) && (i + 2 <? len d)) eqn:Ed2; [|congruence].
      apply andb_true_iff in Es2, Ed2.
      destruct Es2 as [_ Es2], Ed2 as [_ Ed2].
      apply Z.ltb_lt in Es2, Ed2.
      apply IH in H; [|lia]. cbn [blen] in *. lia.
    + intros [H | [Hs Hd]]; [discriminate|].
      destruct s as [s|]; cbn [blen] in Hs; [|lia].
      destruct d as [d|]; cbn [blen] in Hd; [|lia].
      cbn [index store].
      assert (E : forall k l, 0 <= k <= 2 -> i + 3 <= l ->
                              (0 <=? i + k) && (i + k <? l) = true).
      { intros k l Hk Hl. apply andb_true_iff.
        split; [apply Z.leb_le|apply Z.ltb_lt]; lia. }
      pose proof (E 0 (len s) ltac:(lia) ltac:(lia)) as Es0.
      pose proof (E 0 (len d) ltac:(lia) ltac:(lia)) as Ed0.
      rewrite Z.add_0_r in Es0, Ed0.
      rewrite Es0, Ed0, !E by lia.
      apply IH; [lia|]. cbn [blen].
      destruct n; [left; reflexivity|right; lia].
Qed.

(** X14: the function of the grayscale filter returns exactly when the
    source is a whole number of 3-byte pixels and the destination is at
    least as long; on any other pair of slices it panics. *)
Theorem grayscaleFn_returns_iff (mode : GrayscaleMode) (d s : bytes) (m : mem) :
  0 <= blen s -> 0 <= blen d ->
  (grayscaleFn mode d s m <> None <->
   blen s mod 3 = 0 /\ blen s <= blen d).
Proof.
  intros Hs Hd. unfold grayscaleFn.
  rewrite grayLoop_returns by lia.
  pose proof (Z.div_mod (blen s + 2) 3 ltac:(lia)) as Hdm.
  pose proof (Z.mod_pos_bound (blen s + 2) 3 ltac:(lia)) as Hm.
  pose proof (Z.div_mod (blen s) 3 ltac:(lia)) as Hdm'.
  pose proof (Z.mod_pos_bound (blen s) 3 ltac:(lia)) as Hm'.
  assert (Hq : 0 <= (blen s + 2) / 3) by (apply Z.div_pos; lia).
  rewrite Z2Nat.id by exact Hq. split.
  - intros [H | H]; [|lia].
    assert ((blen s + 2) / 3 = 0) by lia. lia.
  - intros [H1 H2]. right. lia.
Qed.

Lemma grayscaleFn_returns_iff_witness :
  (grayscaleFn GrayscaleAverage (Some dst2x2) (Some (mkSlice 0 4 4))
     (w_mem world2x2) <> None <->
   blen (Some (mkSlice 0 4 4)) mod 3 = 0 /\
   blen (Some (mkSlice 0 4 4)) <= blen (Some dst2x2)) /\
  grayscaleFn GrayscaleAverage (Some dst2x2) (Some (mkSlice 0 4 4))
    (w_mem world2x2) = None.
Proof.
  split.
  - apply (grayscaleFn_returns_iff GrayscaleAverage (Some dst2x2)
             (Some (mkSlice 0 4 4)) (w_mem world2x2));
      vm_compute; discriminate.
  - reflexivity.
Defined.

(** ** Gray levels *)

Lemma Z_of_byte_range b : 0 <= Z_of_byte b <= 255.
Proof.
  unfold Z_of_byte. pose proof (Byte.to_N_bounded b) as H.
  lia.
Qed.

Lemma Z_of_byte_of_Z z : 0 <= z <= 255 -> Z_of_byte (byte_of_Z z) = z.
Proof.
  intros Hz. unfold byte_of_Z, Z_of_byte.
  rewrite Z.mod_small by lia.
  destruct (Byte.of_N (Z.to_N z)) as [b|] eqn:E.
  - apply Byte.to_of_N in E. rewrite E. lia.
  - apply Byte.of_N_None_iff in E. lia.
Qed.

Lemma byte_of_Z_of_byte b : byte_of_Z (Z_of_byte b) = b.
Proof. destruct b; reflexivity. Qed.

(** Removes the conversions to [uint32] of values that fit, innermost
    first. *)
Ltac u32_fits :=
  unfold u32; change (2 ^ 32) with 4294967296;
  repeat match goal with
         | |- context [?z mod 4294967296] =>
             lazymatch z with
             | context [_ mod 4294967296] => fail
             | _ => rewrite (Z.mod_small z 4294967296) by lia
             end
         end.

(** The gray level as a number: no conversion in the computation loses
    anything. *)
Lemma gray_value_Z mode r g b :
  Z_of_byte (gray_value mode r g b) =
  if mode =? GrayscaleAverage
  then (Z_of_byte r + Z_of_byte g + Z_of_byte b) / 3
  else if mode =? GrayscaleLightness
  then (min3 r g b + max3 r g b) / 2
  else (77 * Z_of_byte r + 150 * Z_of_byte g + 29 * Z_of_byte b) / 256.
Proof.
  pose proof (Z_of_byte_range r) as Hr.
  pose proof (Z_of_byte_range g) as Hg.
  pose proof (Z_of_byte_range b) as Hb.
  unfold gray_value, min3, max3.
  destruct (mode =? GrayscaleAverage).
  - u32_fits.
    apply Z_of_byte_of_Z.
    pose proof (Z.div_mod (Z_of_byte r + Z_of_byte g + Z_of_byte b) 3 ltac:(lia)).
    pose proof (Z.mod_pos_bound (Z_of_byte r + Z_of_byte g + Z_of_byte b) 3 ltac:(lia)).
    lia.
  - destruct (mode =? GrayscaleLightness).
    + u32_fits.
      apply Z_of_byte_of_Z.
      set (lo := Z.min (Z.min (Z_of_byte r) (Z_of_byte g)) (Z_of_byte b)).
      set (hi := Z.max (Z.max (Z_of_byte r) (Z_of_byte g)) (Z_of_byte b)).
      assert (0 <= lo <= 255 /\ 0 <= hi <= 255) by (subst lo hi; lia).
      pose proof (Z.div_mod (lo + hi) 2 ltac:(lia)).
      pose proof (Z.mod_pos_bound (lo + hi) 2 ltac:(lia)).
      lia.
    + u32_fits.
      rewrite Z.shiftr_div_pow2 by lia.
      change (2 ^ 8) with 256.
      apply Z_of_byte_of_Z.
      set (x := 77 * Z_of_byte r + 150 * Z_of_byte g + 29 * Z_of_byte b).
      assert (0 <= x <= 256 * 255) by (subst x; lia).
      pose proof (Z.div_mod x 256 ltac:(lia)).
      pose proof (Z.mod_pos_bound x 256 ltac:(lia)).
      lia.
Qed.

(** X15: the gray level of a pixel.  In every mode the computation is
    exact (neither [uint32] nor [uint8] cuts anything off): the average
    mode gives [(r+g+b)/3], the lightness mode [(min+max)/2], and every
    other mode, the constants' or not, the luminance
    [(77r+150g+29b)/256], all rounded down.  The level always lies between
    the smallest and the largest channel, so a pixel that is gray already
    keeps its level. *)
Theorem gray_value_exact (mode : GrayscaleMode) (r g b : byte) :
  (mode = GrayscaleAverage ->
   Z_of_byte (gray_value mode r g b) =
   (Z_of_byte r + Z_of_byte g + Z_of_byte b) / 3) /\
  (mode = GrayscaleLightness ->
   Z_of_byte (gray_value mode r g b) = (min3 r g b + max3 r g b) / 2) /\
  (mode <> GrayscaleAverage -> mode <> GrayscaleLightness ->
   Z_of_byte (gray_value mode r g b) =
   (77 * Z_of_byte r + 150 * Z_of_byte g + 29 * Z_of_byte b) / 256) /\
  min3 r g b <= Z_of_byte (gray_value mode r g b) <= max3 r g b /\
  gray_value mode r r r = r.
Proof.
  assert (Hbetween : forall r g b,
            min3 r g b <= Z_of_byte (gray_value mode r g b) <= max3 r g b).
  { clear r g b. intros r g b.
    pose proof (Z_of_byte_range r) as Hr.
    pose proof (Z_of_byte_range g) as Hg.
    pose proof (Z_of_byte_range b) as Hb.
    rewrite gray_value_Z. unfold min3, max3.
    set (R := Z_of_byte r) in *. set (G := Z_of_byte g) in *.
    set (B := Z_of_byte b) in *.
    destruct (mode =? GrayscaleAverage); [|destruct (mode =? GrayscaleLightness)].
    - pose proof (Z.div_mod (R + G + B) 3 ltac:(lia)).
      pose proof (Z.mod_pos_bound (R + G + B) 3 ltac:(lia)). lia.
    - set (lo := Z.min (Z.min R G) B). set (hi := Z.max (Z.max R G) B).
      assert (lo <= hi) by (subst lo hi; lia).
      pose proof (Z.div_mod (lo + hi) 2 ltac:(lia)).
      pose proof (Z.mod_pos_bound (lo + hi) 2 ltac:(lia)). lia.
    - pose proof (Z.div_mod (77 * R + 150 * G + 29 * B) 256 ltac:(lia)).
      pose proof (Z.mod_pos_bound (77 * R + 150 * G + 29 * B) 256 ltac:(lia)).
      lia. }
  split; [|split; [|split; [|split]]].
  - intros ->. rewrite gray_value_Z. reflexivity.
  - intros ->. rewrite gray_value_Z. reflexivity.
  - intros H1 H2. rewrite gray_value_Z.
    destruct (Z.eqb_spec mode GrayscaleAverage); [contradiction|].
    destruct (Z.eqb_spec mode GrayscaleLightness); [contradiction|].
    reflexivity.
  - apply Hbetween.
  - specialize (Hbetween r r r). unfold min3, max3 in Hbetween.
    rewrite <- (byte_of_Z_of_byte (gray_value mode r r r)).
    rewrite <- (byte_of_Z_of_byte r) at 4.
    f_equal. lia.
Qed.

Lemma gray_value_exact_witness :
  Z_of_byte (gray_value GrayscaleAverage xff x00 x01) =
  (Z_of_byte xff + Z_of_byte x00 + Z_of_byte x01) / 3.
Proof.
  apply (proj1 (gray_value_exact GrayscaleAverage xff x00 x01)). reflexivity.
Defined.

(** ** The grayscale filter *)

(** Running the loop from index [i] for [n] more pixels, on a destination
    that starts at or before the source, or after the part of the source
    that is read: every byte read is still the original one. *)
Lemma grayLoop_spec mode n : forall i d s m,
  0 <= i ->
  i + 3 * Z.of_nat n <= len s ->
  i + 3 * Z.of_nat n <= len d ->
  ptr d <= ptr s \/ ptr s + (i + 3 * Z.of_nat n) <= ptr d ->
  exists m',
    grayLoop mode n i (Some d) (Some s) m = Some m' /\
    (forall j c, 0 <= j < Z.of_nat n -> 0 <= c < 3 ->
       m' (ptr d + i + 3 * j + c) =
       gray_value mode (m (ptr s + i + 3 * j)) (m (ptr s + i + 3 * j + 1))
         (m (ptr s + i + 3 * j + 2))) /\
    (forall a, ~ (ptr d + i <= a < ptr d + i + 3 * Z.of_nat n) -> m' a = m a).
Proof.
  induction n as [|n IH]; intros i d s m Hi Hs Hd Hov.
  - exists m. simpl. split; [reflexivity|]. split; intros; [lia|reflexivity].
  - cbn [grayLoop index store].
    assert (E : forall k l, 0 <= k <= 2 -> i + 3 <= l ->
                            (0 <=? i + k) && (i + k <? l) = true).
    { intros k l Hk Hl. apply andb_true_iff.
      split; [apply Z.leb_le|apply Z.ltb_lt]; lia. }
    pose proof (E 0 (len s) ltac:(lia) ltac:(lia)) as Es0.
    pose proof (E 0 (len d) ltac:(lia) ltac:(lia)) as Ed0.
    rewrite Z.add_0_r in Es0, Ed0.
    rewrite Es0, Ed0, !E by lia.
    set (v := gray_value mode (m (ptr s + i)) (m (ptr s + (i + 1)))
                (m (ptr s + (i + 2)))).
    set (m3 := upd (upd (upd m (ptr d + i) v) (ptr d + (i + 1)) v)
                 (ptr d + (i + 2)) v).
    assert (Hm3 : forall a, m3 a = if (ptr d + i <=? a) && (a <? ptr d + i + 3)
                                   then v else m a).
    { intros a. unfold m3, upd.
      destruct (Z.eqb_spec a (ptr d + (i + 2))), (Z.eqb_spec a (ptr d + (i + 1))),
        (Z.eqb_spec a (ptr d + i)), (Z.leb_spec (ptr d + i) a),
        (Z.ltb_spec a (ptr d + i + 3)); cbn [andb]; try reflexivity; lia. }
    destruct (IH (i + 3) d s m3) as (m' & Hrun & Hval & Hframe); try lia.
    exists m'. split; [exact Hrun|]. split.
    + intros j c Hj Hc. destruct (Z.eq_dec j 0) as [-> | Hne].
      * rewrite Hframe by lia. rewrite Hm3.
        replace ((ptr d + i <=? ptr d + i + 3 * 0 + c) &&
                 (ptr d + i + 3 * 0 + c <? ptr d + i + 3)) with true
          by (symmetry; apply andb_true_iff;
              split; [apply Z.leb_le|apply Z.ltb_lt]; lia).
        unfold v. f_equal; f_equal; lia.
      * replace (ptr d + i + 3 * j + c)
          with (ptr d + (i + 3) + 3 * (j - 1) + c) by lia.
        rewrite Hval by lia.
        assert (Hold : forall k, 0 <= k <= 2 ->
                  m3 (ptr s + (i + 3) + 3 * (j - 1) + k) = m (ptr s + i + 3 * j + k)).
        { intros k Hk. rewrite Hm3.
          replace ((ptr d + i <=? ptr s + (i + 3) + 3 * (j - 1) + k) &&
                   (ptr s + (i + 3) + 3 * (j - 1) + k <? ptr d + i + 3))
            with false
            by (symmetry; apply andb_false_iff;
                destruct Hov; [right; apply Z.ltb_ge|left; apply Z.leb_gt]; lia).
          f_equal. lia. }
        pose proof (Hold 0 ltac:(lia)) as H0.
        pose proof (Hold 1 ltac:(lia)) as H1.
        pose proof (Hold 2 ltac:(lia)) as H2.
        rewrite !Z.add_0_r in H0. rewrite H0, H1, H2. reflexivity.
    + intros a Ha. rewrite Hframe by lia. rewrite Hm3.
      replace ((ptr d + i <=? a) && (a <? ptr d + i + 3)) with false
        by (symmetry; apply andb_false_iff;
            destruct (Z.leb_spec (ptr d + i) a);
            [right; apply Z.ltb_ge|left; reflexivity]; lia).
      reflexivity.
Qed.

(** The grayscale filter is a pure per-pixel transform on pixels of 3
    bytes. *)
Lemma grayscaleFn_per_pixel mode :
  per_pixel 3 3 (gray_pixel mode) (grayscaleFn mode).
Proof.
  intros d s m k Hk Hs Hd Hdis. unfold grayscaleFn. cbn [blen].
  assert (Hn : (len s + 2) / 3 = k).
  { rewrite Hs. replace (k * 3 + 2) with (2 + k * 3) by lia.
    rewrite Z.div_add by lia. reflexivity. }
  rewrite Hn.
  destruct (grayLoop_spec mode (Z.to_nat k) 0 d s m)
    as (m' & Hrun & Hval & Hframe); try lia.
  exists m'. split; [exact Hrun|]. split.
  - intros j c Hj Hc.
    replace (ptr d + j * 3 + c) with (ptr d + 0 + 3 * j + c) by lia.
    rewrite Hval by lia.
    change (Z.to_nat 3) with 3%nat. cbn [read_list gray_pixel].
    replace (ptr s + j * 3) with (ptr s + 0 + 3 * j) by lia.
    replace (ptr s + 0 + 3 * j + 1 + 1) with (ptr s + 0 + 3 * j + 2) by lia.
    assert (Hc' : c = 0 \/ c = 1 \/ c = 2) by lia.
    destruct Hc' as [-> | [-> | ->]]; reflexivity.
  - intros a Ha. apply Hframe. lia.
Qed.

Lemma grayscale_byte_filter mode :
  byte_filter (grayscaleFilter mode) 3 3 (gray_pixel mode).
Proof.
  exists (grayscaleFn mode). split; [reflexivity|].
  split; [apply grayscaleFn_per_pixel|]. split; reflexivity.
Qed.

(** X16: what the grayscale filter computes.  For a source of valid RGB888
    geometry that shows its bytes through its buffer or through [ReadAt],
    and a destination that is large enough and apart from the source
    buffer, [Process] succeeds and returns a packed RGB888 geometry of
    the region; the three bytes of every output pixel are equal, and they
    are the gray level of the source pixel in the mode of the filter. *)
Theorem Process_grayscale {St} (mode : GrayscaleMode)
    (src : Image St) d content (dst : slice) roi (w : world St) :
  sound_image src d 3 ->
  DShape d = ShapeRGB888 ->
  roi_ok d roi ->
  room w dst ((endY d roi - startY d roi) * ((endX d roi - startX d roi) * 3)) ->
  readable src d 3 content w dst ->
  exists w',
    Process (grayscaleFilter mode) (Some dst) src roi w =
    Ret (mkDims (endX d roi - startX d roi) (endY d roi - startY d roi)
           ((endX d roi - startX d roi) * 3) ShapeRGB888, None) w' /\
    (forall r j c,
        0 <= r < endY d roi - startY d roi ->
        0 <= j < endX d roi - startX d roi ->
        0 <= c < 3 ->
        w_mem w' (ptr dst + r * ((endX d roi - startX d roi) * 3) + j * 3 + c) =
        gray_value mode
          (content ((startY d roi + r) * Stride d + (startX d roi + j) * 3))
          (content ((startY d roi + r) * Stride d + (startX d roi + j) * 3 + 1))
          (content ((startY d roi + r) * Stride d + (startX d roi + j) * 3 + 2))).
Proof.
  intros (Hst & Hv & Hok & Hbits & Hfit & Hsz) Hshape Hroi (Hd & Hl) Hr.
  destruct (grayscale_byte_filter mode) as (fn & Hfn & Hpp & Hin & Hout).
  destruct (Process_out_of_place (grayscaleFilter mode) fn (gray_pixel mode) 3 3
              src d content dst roi w)
    as (w' & Hrun & Hval & _ & _); try assumption.
  assert (Hw16 : Width d * 16 <= Int.max_int).
  { rewrite Hbits in Hfit. pose proof (proj1 Hok). int_consts. lia. }
  pose proof (dstDimsOf_whole_bytes (grayscaleFilter mode) d roi 3 Hout Hv Hroi
                Hok Hw16) as Hdd.
  exists w'. split.
  - rewrite Hrun. rewrite Hdd. reflexivity.
  - intros r j c Hr' Hj Hc. rewrite Hval by assumption.
    unfold pixel_out. change (Z.to_nat 3) with 3%nat. cbn [read_list gray_pixel].
    replace ((startY d roi + r) * Stride d + (startX d roi + j) * 3 + 1 + 1)
      with ((startY d roi + r) * Stride d + (startX d roi + j) * 3 + 2) by lia.
    assert (Hc' : c = 0 \/ c = 1 \/ c = 2) by lia.
    destruct Hc' as [-> | [-> | ->]]; reflexivity.
Qed.

Lemma Process_grayscale_witness :
  exists w',
    Process (grayscaleFilter GrayscaleLightness) (Some dstRight)
      (memImage dims2x2 buf2x2) (Some rect_right) world2x2 =
    Ret (mkDims (2 - 1) (2 - 0) ((2 - 1) * 3) ShapeRGB888, None) w' /\
    (forall r j c,
        0 <= r < 2 - 0 -> 0 <= j < 2 - 1 -> 0 <= c < 3 ->
        w_mem w' (ptr dstRight + r * ((2 - 1) * 3) + j * 3 + c) =
        gray_value GrayscaleLightness
          (w_mem world2x2 ((0 + r) * 6 + (1 + j) * 3))
          (w_mem world2x2 ((0 + r) * 6 + (1 + j) * 3 + 1))
          (w_mem world2x2 ((0 + r) * 6 + (1 + j) * 3 + 2))).
Proof.
  apply (Process_grayscale GrayscaleLightness (memImage dims2x2 buf2x2) dims2x2
           (fun o => w_mem world2x2 o) dstRight (Some rect_right) world2x2).
  - exact sound_2x2.
  - reflexivity.
  - vm_compute. repeat split; discriminate.
  - vm_compute. repeat split; discriminate.
  - apply readable_2x2. reflexivity.
Defined.

(** ** Controls *)



(** X18: [ControlEnum.ChangeValue].  Whenever the call returns, only the
    [Value] field can have changed.  An error leaves the control as it
    was.  A new value of another type, or one that is not among
    [ValidValues], gives an error before [OnChange] is called.  Without
    error the new value is of the type of the control, is one of
    [ValidValues], and is now the [Value]. *)
Theorem ControlEnum_ChangeValue_sound {T E} (eqb : T -> T -> bool)
    (show : T -> string) (typeName : string)
    (ce ce' : ControlEnum T E) (newValue : any T) (env env' : E)
    (err : option error) :
  ControlEnum_ChangeValue eqb show typeName ce newValue env =
    Some (err, ce', env') ->
  (ce_Name ce' = ce_Name ce /\ ce_Description ce' = ce_Description ce /\
   ce_ValidValues ce' = ce_ValidValues ce /\ ce_OnChange ce' = ce_OnChange ce) /\
  (err <> None -> ce' = ce) /\
  ((forall v, newValue = IsT v -> ~ listed eqb ce v) ->
   err <> None /\ env' = env) /\
  (err = None ->
   exists v, newValue = IsT v /\ listed eqb ce v /\ ce_Value ce' = v).
Proof.
  unfold ControlEnum_ChangeValue, listed. intros H.
  destruct newValue as [v | dyn].
  - destruct (existsb (eqb v) (ce_ValidValues ce)) eqn:Ein; cbn [negb] in H.
    + destruct (ce_OnChange ce) as [onChange|] eqn:Eon; [|discriminate].
      destruct (onChange v env) as [[e|] env1]; inversion H; subst;
        (split; [|split; [|split]]).
      * repeat split; cbn; congruence.
      * reflexivity.
      * intros Hoff. destruct (Hoff v eq_refl Ein).
      * discriminate.
      * repeat split; cbn; congruence.
      * intros He. congruence.
      * intros Hoff. destruct (Hoff v eq_refl Ein).
      * intros _. exists v. split; [reflexivity|]. split; [exact Ein|reflexivity].
    + inversion H; subst. split; [|split; [|split]].
      * repeat split; cbn; congruence.
      * reflexivity.
      * intros _. split; [discriminate|reflexivity].
      * discriminate.
  - inversion H; subst. split; [|split; [|split]].
    + repeat split; reflexivity.
    + reflexivity.
    + intros _. split; [discriminate|reflexivity].
    + discriminate.
Qed.

Lemma ControlEnum_ChangeValue_sound_witness :
  grayscaleChange (grayscaleControl GrayscaleLuminance) (IsT GrayscaleLightness)
    GrayscaleLuminance =
  Some (None, grayscaleControl GrayscaleLightness, GrayscaleLightness) /\
  (@None error = None ->
   exists v, IsT GrayscaleLightness = IsT v /\
             listed Z.eqb (grayscaleControl GrayscaleLuminance) v /\
             ce_Value (grayscaleControl GrayscaleLightness) = v).
Proof.
  split; [reflexivity|].
  apply (ControlEnum_ChangeValue_sound Z.eqb GrayscaleMode_String
           "filters.GrayscaleMode"%string
           (grayscaleControl GrayscaleLuminance)
           (grayscaleControl GrayscaleLightness)
           (IsT GrayscaleLightness) GrayscaleLuminance GrayscaleLightness None).
  reflexivity.
Defined.

(** The control of a grayscale filter and the variable of its function
    stay together through a call of [ChangeValue], which cannot panic. *)
Lemma grayscaleChange_sync ce fm v :
  ce_OnChange ce = ce_OnChange (grayscaleControl fm) ->
  ce_ValidValues ce = ce_ValidValues (grayscaleControl fm) ->
  ce_Value ce = fm ->
  exists err ce' fm',
    grayscaleChange ce v fm = Some (err, ce', fm') /\
    ce_OnChange ce' = ce_OnChange ce /\
    ce_ValidValues ce' = ce_ValidValues ce /\
    ce_Value ce' = fm' /\
    (fm' = fm \/ listed Z.eqb ce fm') /\
    (forall m, v = IsT m -> listed Z.eqb ce m -> fm' = m /\ err = None).
Proof.
  intros Hon Hvv Hval. unfold grayscaleChange, ControlEnum_ChangeValue, listed.
  unfold GrayscaleMode in *.
  destruct v as [m | dyn].
  - match goal with
    | |- context [negb ?b] => destruct b eqn:Ein; cbn [negb]
    end.
    + rewrite Hon. cbn.
      eexists _, _, _. split; [reflexivity|]. cbn.
      split; [reflexivity|]. split; [reflexivity|]. split; [reflexivity|].
      split; [right; exact Ein|].
      intros m' Hm' _. inversion Hm'; subst. split; reflexivity.
    + eexists _, _, _. split; [reflexivity|].
      split; [reflexivity|]. split; [reflexivity|]. split; [exact Hval|].
      split; [left; reflexivity|].
      intros m' Hm' Hl. inversion Hm'; subst. congruence.
  - eexists _, _, _. split; [reflexivity|].
    split; [reflexivity|]. split; [reflexivity|]. split; [exact Hval|].
    split; [left; reflexivity|].
    intros m' Hm'. discriminate.
Qed.

(** X19: the control of a grayscale filter.  Through any run of
    [ChangeValue] calls on the control that [NewGrayscalePerPixel(mode)]
    made, no call panics, the control always shows the mode that the
    function of the filter uses, and that mode is the initial one (which
    the constructor does not check) or one of luminance, average and
    lightness. *)
Theorem grayscale_control_in_sync (mode : GrayscaleMode)
    (l : list (any GrayscaleMode)) :
  exists ce filterMode,
    grayscaleChanges l (snd (fst (NewGrayscalePerPixel mode)))
      (snd (NewGrayscalePerPixel mode)) = Some (ce, filterMode) /\
    ce_Value ce = filterMode /\
    (filterMode = mode \/
     In filterMode [GrayscaleLuminance; GrayscaleAverage; GrayscaleLightness]).
Proof.
  cbn [NewGrayscalePerPixel fst snd].
  assert (G : forall l ce fm,
             ce_OnChange ce = ce_OnChange (grayscaleControl fm) ->
             ce_ValidValues ce = ce_ValidValues (grayscaleControl fm) ->
             ce_Value ce = fm ->
             (fm = mode \/ listed Z.eqb ce fm) ->
             exists ce' fm',
               grayscaleChanges l ce fm = Some (ce', fm') /\
               ce_Value ce' = fm' /\ (fm' = mode \/ listed Z.eqb ce fm')).
  { clear l. induction l as [|v l IH]; intros ce fm Hon Hvv Hval Hor.
    - exists ce, fm. split; [reflexivity|]. auto.
    - cbn [grayscaleChanges].
      destruct (grayscaleChange_sync ce fm v Hon Hvv Hval)
        as (err & ce1 & fm1 & -> & Hon1 & Hvv1 & Hval1 & Hor1 & _).
      destruct (IH ce1 fm1) as (ce' & fm' & Hrun & Hv' & Hor').
      + transitivity (ce_OnChange ce); [exact Hon1|exact Hon].
      + transitivity (ce_ValidValues ce); [exact Hvv1|exact Hvv].
      + exact Hval1.
      + unfold listed in *. unfold GrayscaleMode in *. rewrite Hvv1.
        destruct Hor1 as [-> | H1]; [exact Hor|right; exact H1].
      + exists ce', fm'. split; [exact Hrun|]. split; [exact Hv'|].
        unfold listed in *. unfold GrayscaleMode in *.
        rewrite Hvv1 in Hor'. exact Hor'. }
  destruct (G l (grayscaleControl mode) mode) as (ce & fm & Hrun & Hv & Hor);
    try reflexivity; [left; reflexivity|].
  exists ce, fm. split; [exact Hrun|]. split; [exact Hv|].
  destruct Hor as [-> | H]; [left; reflexivity|]. right.
  unfold listed in H. cbn in H.
  repeat match type of H with
         | (?a =? ?b) || _ = true =>
             destruct (Z.eqb_spec a b) as [-> | _]; [cbn; auto|cbn [orb] in H]
         end.
  discriminate.
Qed.
